(** * Freesound Speed Control: a shallow embedding of the userscript

    The userscript [FreesoundSpeedControl.user.js] attaches to every
    Freesound player a bar of speed buttons, a numeric rate field, a
    reverse-playback toggle, a local stop button and an apply-to-all
    button.  The repository file holds two revisions of the script; where
    they differ the definitions below take a [revision] argument.

    Numbers.  A JavaScript number is modelled as an exact rational or one
    of NaN, +Infinity, -Infinity.  Comparisons, [Math.min], [Math.max],
    [Math.round], [Number.isFinite] and the truthiness used by [||] behave
    on these as ECMAScript says.  Sums and differences are exact, and so
    are the products and quotients of the reverse toggle (the sign of
    zero is not modelled).  Where the script rounds a rate to two
    decimals, [Math.round(rate * 100) / 100], the rounding of the product
    and of the quotient decides which digits the rate field shows: this
    product and this quotient are the host's.

    Host.  [parseFloat], [String], the rounded product and quotient, and
    the set of playback rates the media element accepts belong to the
    browser, not to the script: they are the fields of the class [Host].
    [DecimalHost] is one host, which computes exactly, used to run the
    model on concrete inputs.

    The rate field.  The script makes the field an [input] of type
    [number].  What the user types into such a field reads back through
    [input.value] as typed only when it is a valid floating-point number
    with a finite value; any other text reads back as the empty string.

    Events.  The script is a set of listeners.  Each listener is a
    function on the state it closes over ([Rate.Page] for the rate
    controls of all players, [Reverse.Engine] for the reverse toggle of
    one player) and a run is a list of events folded over that state.
    The click listener of the reverse button is asynchronous: when it has
    to fetch and decode, the part before its first [await] and the part
    after its last one are two events, [ReverseClick] and [Decoded], and
    anything may happen in between.  Console output is not modelled. *)

From Stdlib Require Import QArith Qround Qminmax Qabs Lqa ZArith Lia.
From Stdlib Require Import String Ascii List Bool.
From stdpp Require Import base option list.
Import ListNotations.

Local Open Scope string_scope.
Local Open Scope Q_scope.

(** ** JavaScript numbers *)

Inductive num : Type :=
| NaN
| NegInf
| Fin (q : Q)
| PosInf.

Definition Qltb (x y : Q) : bool := negb (Qle_bool y x).

(** [a < b] of ECMAScript: false as soon as one side is NaN. *)
Definition num_ltb (a b : num) : bool :=
  match a, b with
  | NaN, _ | _, NaN => false
  | NegInf, NegInf => false
  | NegInf, _ => true
  | _, NegInf => false
  | PosInf, _ => false
  | Fin _, PosInf => true
  | Fin x, Fin y => Qltb x y
  end.

(** [a <= b] of ECMAScript. *)
Definition num_leb (a b : num) : bool :=
  match a, b with
  | NaN, _ | _, NaN => false
  | NegInf, _ => true
  | _, PosInf => true
  | PosInf, _ => false
  | Fin _, NegInf => false
  | Fin x, Fin y => Qle_bool x y
  end.

(** [a > b] is [b < a]. *)
Definition num_gtb (a b : num) : bool := num_ltb b a.

Definition is_NaN (a : num) : bool :=
  match a with NaN => true | _ => false end.

(** [Math.max(a, b)] and [Math.min(a, b)]: NaN when an argument is NaN. *)
Definition Math_max (a b : num) : num :=
  if is_NaN a || is_NaN b then NaN
  else if num_ltb b a then a else b.

Definition Math_min (a b : num) : num :=
  if is_NaN a || is_NaN b then NaN
  else if num_ltb a b then a else b.

(** [Number.isFinite]. *)
Definition isFinite (a : num) : bool :=
  match a with Fin _ => true | _ => false end.

(** Truthiness of a number: 0 and NaN are falsy. *)
Definition truthy (a : num) : bool :=
  match a with
  | NaN => false
  | Fin q => negb (Qeq_bool q 0)
  | _ => true
  end.

(** [a || d] on numbers. *)
Definition num_or (a d : num) : num := if truthy a then a else d.

(** [a || d] on strings: the empty string is falsy. *)
Definition str_or (a d : string) : string :=
  match a with EmptyString => d | _ => a end.

(** [item || d] where [item] may be [null]. *)
Definition item_or (item : option string) (d : string) : string :=
  match item with Some s => str_or s d | None => d end.

Definition num_neg (a : num) : num :=
  match a with
  | NaN => NaN
  | NegInf => PosInf
  | PosInf => NegInf
  | Fin x => Fin (- x)
  end.

Definition num_add (a b : num) : num :=
  match a, b with
  | NaN, _ | _, NaN => NaN
  | PosInf, NegInf | NegInf, PosInf => NaN
  | PosInf, _ | _, PosInf => PosInf
  | NegInf, _ | _, NegInf => NegInf
  | Fin x, Fin y => Fin (x + y)
  end.

Definition num_sub (a b : num) : num := num_add a (num_neg b).

Definition Qsgn (x : Q) : Z := Z.sgn (Qnum x).

Definition num_mul (a b : num) : num :=
  match a, b with
  | NaN, _ | _, NaN => NaN
  | Fin x, Fin y => Fin (x * y)
  | Fin x, PosInf | PosInf, Fin x =>
      match Qsgn x with Z0 => NaN | Zpos _ => PosInf | Zneg _ => NegInf end
  | Fin x, NegInf | NegInf, Fin x =>
      match Qsgn x with Z0 => NaN | Zpos _ => NegInf | Zneg _ => PosInf end
  | PosInf, PosInf | NegInf, NegInf => PosInf
  | PosInf, NegInf | NegInf, PosInf => NegInf
  end.

Definition num_div (a b : num) : num :=
  match a, b with
  | NaN, _ | _, NaN => NaN
  | Fin x, Fin y =>
      match Qsgn y with
      | Z0 => match Qsgn x with Z0 => NaN | Zpos _ => PosInf | Zneg _ => NegInf end
      | _ => Fin (x / y)
      end
  | Fin _, _ => Fin 0
  | PosInf, Fin y => match Qsgn y with Zneg _ => NegInf | _ => PosInf end
  | NegInf, Fin y => match Qsgn y with Zneg _ => PosInf | _ => NegInf end
  | _, _ => NaN
  end.

(** Truncation toward zero, and the remainder [x % y] of ECMAScript, which
    takes the sign of the dividend: [x - y * trunc (x / y)]. *)
Definition Qtrunc (x : Q) : Z := Z.quot (Qnum x) (Zpos (Qden x)).

Definition Qrem (x y : Q) : Q := x - y * inject_Z (Qtrunc (x / y)).

Definition num_rem (a b : num) : num :=
  match a, b with
  | Fin x, Fin y => match Qsgn y with Z0 => NaN | _ => Fin (Qrem x y) end
  | Fin x, (PosInf | NegInf) => Fin x
  | _, _ => NaN
  end.

Definition num_abs (a : num) : num :=
  match a with
  | NaN => NaN
  | Fin x => Fin (Qabs x)
  | _ => PosInf
  end.

(** [Math.round]: the nearest integer, halves going up. *)
Definition Math_round (a : num) : num :=
  match a with
  | Fin x => Fin (inject_Z (Qfloor (x + (1 # 2))))
  | _ => a
  end.

(** Equality of numbers as values ([Fin (1 # 2)] and [Fin (2 # 4)] are the
    same number). *)
Definition num_eq (a b : num) : Prop :=
  match a, b with
  | NaN, NaN | NegInf, NegInf | PosInf, PosInf => True
  | Fin x, Fin y => x == y
  | _, _ => False
  end.

(** ** Constants of the script *)

Definition SPEEDS : list num :=
  [Fin (1 # 4); Fin (1 # 2); Fin 1; Fin 2; Fin 3; Fin 4; Fin 8; Fin 12; Fin 16].
Definition MIN_RATE : num := Fin (1 # 10).
Definition MAX_RATE : num := Fin 16.

(** [const clamp = (v, min, max) => Math.min(max, Math.max(min, v))] *)
Definition clamp (v min max : num) : num := Math_min max (Math_max min v).

(** A rate that lies in [[MIN_RATE, MAX_RATE]]. *)
Definition in_range (v : num) : bool := num_leb MIN_RATE v && num_leb v MAX_RATE.

(** ** The host *)

(** What the script takes from the browser: [parseFloat], [String] on
    numbers, the product [a * b] and the quotient [a / b] as the
    arithmetic of the host rounds them, and whether the media element
    accepts a playback rate (the setter of [playbackRate] throws on a
    rate the user agent does not support, and the script catches it).
    The script passes the literals ['1'] and ['NaN'] to [parseFloat], and
    uses [||] to replace an empty string before parsing; what these three
    strings parse to is part of the interface. *)
Class Host : Type := {
  parseFloat : string -> num;
  js_String : num -> string;
  supportsRate : num -> bool;
  js_mul : num -> num -> num;
  js_div : num -> num -> num;
  parseFloat_one : parseFloat "1" = Fin 1;
  parseFloat_NaN : parseFloat "NaN" = NaN;
  parseFloat_empty : parseFloat "" = NaN
}.

(** *** A host that reads and prints plain decimals *)

Module Decimal.

Definition is_space (c : ascii) : bool :=
  match c with
  | " "%char | "009"%char | "010"%char | "011"%char | "012"%char | "013"%char => true
  | _ => false
  end.

Definition digit_of (c : ascii) : option Z :=
  let n := Z.of_nat (nat_of_ascii c) in
  if ((48 <=? n) && (n <=? 57))%Z then Some (n - 48)%Z else None.

Fixpoint trim_start (s : string) : string :=
  match s with
  | String c s' => if is_space c then trim_start s' else s
  | EmptyString => s
  end.

(** The digits at the head of [s]: their value after [acc], how many
    there are, and the rest of the string. *)
Fixpoint read_digits (s : string) (acc : Z) (count : nat) : Z * nat * string :=
  match s with
  | String c s' =>
      match digit_of c with
      | Some d => read_digits s' (acc * 10 + d)%Z (S count)
      | None => (acc, count, s)
      end
  | EmptyString => (acc, count, s)
  end.

(** The exponent part at the head of [s], 0 when there is none. *)
Definition read_exponent (s : string) : Z :=
  match s with
  | String ("e" | "E")%char s1 =>
      let '(neg, s2) :=
        match s1 with
        | String "-"%char r => (true, r)
        | String "+"%char r => (false, r)
        | _ => (false, s1)
        end in
      let '(e, n, _) := read_digits s2 0%Z 0%nat in
      match n with O => 0%Z | _ => if neg then (- e)%Z else e end
  | _ => 0%Z
  end.

Definition pow10 (e : Z) : Q :=
  match e with
  | Zneg p => 1 # (10 ^ p)
  | _ => inject_Z (10 ^ e)
  end.

(** Beyond this magnitude a decimal literal reads as an infinity. *)
Definition overflow_bound : Q := inject_Z (2 ^ 1024 - 2 ^ 970).

Definition finite_or_inf (neg : bool) (q : Q) : num :=
  if Qle_bool overflow_bound q then (if neg then NegInf else PosInf)
  else Fin (Qred (if neg then - q else q)).

(** The unsigned literal at the head of [s]. *)
Definition read_unsigned (neg : bool) (s : string) : num :=
  if String.prefix "Infinity" s then (if neg then NegInf else PosInf)
  else
    let '(ip, ni, s1) := read_digits s 0%Z 0%nat in
    match s1 with
    | String "."%char s2 =>
        let '(m, nf, s3) := read_digits s2 ip 0%nat in
        match ni, nf with
        | O, O => NaN
        | _, _ =>
            finite_or_inf neg
              (inject_Z m * pow10 (read_exponent s3 - Z.of_nat nf))
        end
    | _ =>
        match ni with
        | O => NaN
        | _ => finite_or_inf neg (inject_Z ip * pow10 (read_exponent s1))
        end
    end.

(** [parseFloat]: leading white space is skipped, then the longest
    prefix that is a decimal literal is read; NaN when there is none. *)
Definition parse (s : string) : num :=
  match trim_start s with
  | String "-"%char r => read_unsigned true r
  | String "+"%char r => read_unsigned false r
  | r => read_unsigned false r
  end.

Definition digit_char (d : Z) : ascii := ascii_of_nat (48 + Z.to_nat d).

Fixpoint nat_digits (fuel : nat) (n : Z) (acc : string) : string :=
  match fuel with
  | O => acc
  | S fuel' =>
      let acc' := String (digit_char (n mod 10)%Z) acc in
      if (n <? 10)%Z then acc' else nat_digits fuel' (n / 10)%Z acc'
  end.

Definition show_nat (n : Z) : string := nat_digits (S (Z.to_nat (Z.log2 n))) n "".

Fixpoint frac_digits (fuel : nat) (r d : Z) : string :=
  match fuel with
  | O => ""
  | S fuel' =>
      if (r =? 0)%Z then ""
      else String (digit_char (r * 10 / d)%Z) (frac_digits fuel' ((r * 10) mod d)%Z d)
  end.

(** [String] on a number: plain decimal notation, the fraction cut
    after twenty digits. *)
Definition show (a : num) : string :=
  match a with
  | NaN => "NaN"
  | PosInf => "Infinity"
  | NegInf => "-Infinity"
  | Fin q =>
      let n := Z.abs (Qnum q) in
      let d := Zpos (Qden q) in
      let body :=
        show_nat (n / d)%Z ++
        (if (n mod d =? 0)%Z then "" else "." ++ frac_digits 20 (n mod d)%Z d) in
      if (Qnum q <? 0)%Z then "-" ++ body else body
  end.

(** Every rate is supported. *)
Definition supports (_ : num) : bool := true.

End Decimal.

Local Close Scope Q_scope.

(** The decimal host computes the product and the quotient exactly.  A
    browser rounds them to binary64, so at a rate next to a tie, such as
    the binary64 number nearest 2.675, the two show different
    hundredths. *)
#[export] Instance DecimalHost : Host := {|
  parseFloat := Decimal.parse;
  js_String := Decimal.show;
  supportsRate := Decimal.supports;
  js_mul := num_mul;
  js_div := num_div;
  parseFloat_one := eq_refl;
  parseFloat_NaN := eq_refl;
  parseFloat_empty := eq_refl
|}.

(** The decimal host again, but with a media element that accepts the
    rates up to 4 only. *)
Definition PickyHost : Host := {|
  parseFloat := Decimal.parse;
  js_String := Decimal.show;
  supportsRate := fun v => num_leb v (Fin 4);
  js_mul := num_mul;
  js_div := num_div;
  parseFloat_one := eq_refl;
  parseFloat_NaN := eq_refl;
  parseFloat_empty := eq_refl
|}.

(** ** The media element *)

Record Audio : Type := {
  playbackRate : num;
  currentTime : num;
  paused : bool;
  loop : bool
}.

Definition set_playbackRate (r : num) (a : Audio) : Audio :=
  {| playbackRate := r; currentTime := currentTime a;
     paused := paused a; loop := loop a |}.

Definition set_currentTime (t : num) (a : Audio) : Audio :=
  {| playbackRate := playbackRate a; currentTime := t;
     paused := paused a; loop := loop a |}.

Definition set_paused (b : bool) (a : Audio) : Audio :=
  {| playbackRate := playbackRate a; currentTime := currentTime a;
     paused := b; loop := loop a |}.

(** [try { audio.playbackRate = rate } catch (e) { ... }]: the rate is
    stored when the host accepts it; otherwise the setter throws, the
    script catches, and the element keeps its rate. *)
Definition try_set_rate `{Host} (rate : num) (a : Audio) : Audio :=
  if supportsRate rate then set_playbackRate rate a else a.

(** The two revisions of the script held by the repository file. *)
Inductive revision : Type := Rev1 | Rev2.

(** ** The rate field *)

(** A valid floating-point number of the HTML standard: an optional
    minus sign; digits, or digits followed by a dot and digits, or a dot
    and digits; then optionally an exponent, [e] or [E], an optional
    sign, and digits.  Nothing may precede or follow. *)
Definition valid_floating_point_number (s : string) : bool :=
  let s0 := match s with String "-"%char r => r | _ => s end in
  let '(_, ni, s1) := Decimal.read_digits s0 0%Z 0%nat in
  let '(mantissa, s2) :=
    match s1 with
    | String "."%char r =>
        let '(_, nf, r') := Decimal.read_digits r 0%Z 0%nat in
        (negb (Nat.eqb nf 0), r')
    | _ => (negb (Nat.eqb ni 0), s1)
    end in
  mantissa &&
  match s2 with
  | EmptyString => true
  | String ("e" | "E")%char r =>
      let r1 := match r with String ("-" | "+")%char t => t | _ => r end in
      let '(_, ne, r2) := Decimal.read_digits r1 0%Z 0%nat in
      negb (Nat.eqb ne 0) && match r2 with EmptyString => true | _ => false end
  | _ => false
  end.

(** ** Rate control *)

Module Rate.

(** One [.bw-player] element of the page, with what the script attaches
    to it. *)
Record Player : Type := {
  tmEnhanced : bool;          (* player.__tmEnhanced *)
  tmApplyRate : bool;         (* player.__tmApplyRate is set *)
  audio : option Audio;       (* findAudio(player) *)
  input_value : string;       (* input.value of the rate field *)
  btn_active : list bool      (* tm-active on each speed button *)
}.

Definition with_audio (a : option Audio) (pl : Player) : Player :=
  {| tmEnhanced := tmEnhanced pl; tmApplyRate := tmApplyRate pl; audio := a;
     input_value := input_value pl; btn_active := btn_active pl |}.

Definition with_hook (pl : Player) : Player :=
  {| tmEnhanced := tmEnhanced pl; tmApplyRate := true; audio := audio pl;
     input_value := input_value pl; btn_active := btn_active pl |}.

Definition with_input (s : string) (pl : Player) : Player :=
  {| tmEnhanced := tmEnhanced pl; tmApplyRate := tmApplyRate pl; audio := audio pl;
     input_value := s; btn_active := btn_active pl |}.

(** The script's globals, the storage item under [STORE_KEY] with a count
    of the reads and the list of the writes (latest first), and the
    players of the document. *)
Record Page : Type := {
  GLOBAL_RATE : option num;
  INITIAL_RATE : num;         (* second revision only *)
  stored : option string;     (* localStorage.getItem(STORE_KEY) *)
  reads : nat;
  writes : list string;
  players : list Player
}.

Definition with_players (ps : list Player) (pg : Page) : Page :=
  {| GLOBAL_RATE := GLOBAL_RATE pg; INITIAL_RATE := INITIAL_RATE pg;
     stored := stored pg; reads := reads pg; writes := writes pg; players := ps |}.

Definition with_GLOBAL_RATE (g : option num) (pg : Page) : Page :=
  {| GLOBAL_RATE := g; INITIAL_RATE := INITIAL_RATE pg;
     stored := stored pg; reads := reads pg; writes := writes pg;
     players := players pg |}.

Definition with_INITIAL_RATE (r : num) (pg : Page) : Page :=
  {| GLOBAL_RATE := GLOBAL_RATE pg; INITIAL_RATE := r;
     stored := stored pg; reads := reads pg; writes := writes pg;
     players := players pg |}.

(** The playback rate of a player's media element. *)
Definition rate_of (pl : Player) : option num := playbackRate <$> audio pl.

(** The playback rate of the player at index [i]. *)
Definition rate_at (i : nat) (pg : Page) : option num :=
  players pg !! i ≫= rate_of.

(** The session override is never NaN. *)
Definition override_ok (pg : Page) : Prop :=
  forall g, GLOBAL_RATE pg = Some g -> is_NaN g = false.

Section WithHost.
Context `{Host}.

(** [input.type = 'number']: what [input.value] reads back once the user
    has typed [text] into the rate field.  Text that is not a valid
    floating-point number, or whose number is not finite, reads back as
    the empty string. *)
Definition number_value (text : string) : string :=
  if valid_floating_point_number text && isFinite (parseFloat text) then text else "".

(** [saveRate = (rate) => localStorage.setItem(STORE_KEY, String(rate))] *)
Definition saveRate (rate : num) (pg : Page) : Page :=
  {| GLOBAL_RATE := GLOBAL_RATE pg; INITIAL_RATE := INITIAL_RATE pg;
     stored := Some (js_String rate); reads := reads pg;
     writes := js_String rate :: writes pg; players := players pg |}.

(** The value [loadRate] computes from the storage item. *)
Definition loadRate_value (item : option string) : num :=
  let v := parseFloat (item_or item "1") in
  if isFinite v then clamp v MIN_RATE MAX_RATE else Fin 1.

(** [loadRate]: one read of the storage. *)
Definition loadRate (pg : Page) : num * Page :=
  (loadRate_value (stored pg),
   {| GLOBAL_RATE := GLOBAL_RATE pg; INITIAL_RATE := INITIAL_RATE pg;
      stored := stored pg; reads := S (reads pg); writes := writes pg;
      players := players pg |}).

(** [getEffectiveRate] of the second revision. *)
Definition getEffectiveRate (pg : Page) : num :=
  match GLOBAL_RATE pg with Some g => g | None => INITIAL_RATE pg end.

(** [syncUI]: highlight the buttons whose rate is the element's rate
    rounded to two decimals, and show that rate in the field.  The
    product and the quotient of [Math.round(rate * 100) / 100] are the
    host's. *)
Definition syncUI (pl : Player) : Player :=
  match audio pl with
  | Some a =>
      let r := js_div (Math_round (js_mul (num_or (playbackRate a) (Fin 1)) (Fin 100)))
                 (Fin 100) in
      {| tmEnhanced := tmEnhanced pl; tmApplyRate := tmApplyRate pl; audio := audio pl;
         input_value := js_String r;
         btn_active :=
           map (fun sp => num_ltb (num_abs (num_sub (parseFloat (js_String sp)) r))
                            (Fin (1 # 1000)%Q)) SPEEDS |}
  | None => pl
  end.

(** [applyRate(v)] of one player. *)
Definition applyRate (v : num) (pl : Player) : Player :=
  let pl1 := with_hook pl in
  let rate := clamp v MIN_RATE MAX_RATE in
  syncUI (with_audio (try_set_rate rate <$> audio pl1) pl1).

Definition on_player (i : nat) (f : Player -> Player) (pg : Page) : Page :=
  with_players (alter f i (players pg)) pg.

(** [setRate(v)] of player [i].  The first revision clamps before it
    applies and saves; the second applies [v] (which [applyRate] clamps)
    and saves [v] as it is. *)
Definition setRate (rev : revision) (i : nat) (v : num) (pg : Page) : Page :=
  match rev with
  | Rev1 =>
      let rate := clamp v MIN_RATE MAX_RATE in
      saveRate rate (on_player i (applyRate rate) pg)
  | Rev2 => saveRate v (on_player i (applyRate v) pg)
  end.

(** [handleInputEvent] of player [i]. *)
Definition handleInputEvent (rev : revision) (i : nat) (pg : Page) : Page :=
  match players pg !! i with
  | Some pl =>
      let val := clamp (parseFloat (str_or (input_value pl) "NaN")) MIN_RATE MAX_RATE in
      if isFinite val then setRate rev i val pg else pg
  | None => pg
  end.

(** What the apply-to-all handler does to another player of the page. *)
Definition broadcast_to (rate : num) (pl : Player) : Player :=
  if tmApplyRate pl then applyRate rate pl
  else with_audio (try_set_rate rate <$> audio pl) pl.

(** The click handler of the apply-to-all button of player [i]. *)
Definition applyBtn_click (i : nat) (pg : Page) : Page :=
  match players pg !! i with
  | Some src =>
      match audio src with
      | Some a =>
          let rate := num_or (playbackRate a) (Fin 1) in
          let pg1 := saveRate rate (with_GLOBAL_RATE (Some rate) pg) in
          with_players
            (imap (fun j pl => if decide (j = i) then pl else broadcast_to rate pl)
               (players pg1)) pg1
      | None => pg
      end
  | None => pg
  end.

(** The ['play'] listener that re-applies a rate. *)
Definition on_play (rev : revision) (i : nat) (pg : Page) : Page :=
  match players pg !! i with
  | Some pl =>
      match audio pl with
      | Some a =>
          match rev with
          | Rev1 =>
              let val := clamp (parseFloat (str_or (input_value pl) "NaN"))
                           MIN_RATE MAX_RATE in
              if isFinite val then on_player i (applyRate val) pg
              else
                let eff := match GLOBAL_RATE pg with
                           | Some g => g
                           | None => num_or (playbackRate a) (Fin 1)
                           end in
                on_player i (applyRate eff) pg
          | Rev2 =>
              let eff := getEffectiveRate pg in
              if num_gtb (num_abs (num_sub (playbackRate a) eff)) (Fin (1 # 1000)%Q)
              then on_player i (applyRate eff) pg else pg
          end
      | None => pg
      end
  | None => pg
  end.

(** [enhancePlayer] on the player at index [i]: nothing for a player
    already enhanced or without a media element; otherwise the controls
    are created (empty field, no button highlighted) and the initial rate
    is applied. *)
Definition enhancePlayer (rev : revision) (i : nat) (pg : Page) : Page :=
  match players pg !! i with
  | Some pl =>
      if tmEnhanced pl then pg
      else
        match audio pl with
        | None => pg
        | Some _ =>
            let fresh (p : Player) : Player :=
              {| tmEnhanced := true; tmApplyRate := tmApplyRate p; audio := audio p;
                 input_value := ""; btn_active := map (fun _ => false) SPEEDS |} in
            let pg1 := on_player i fresh pg in
            match rev with
            | Rev1 =>
                match GLOBAL_RATE pg1 with
                | Some g => on_player i (applyRate g) pg1
                | None =>
                    let '(r, pg2) := loadRate pg1 in on_player i (applyRate r) pg2
                end
            | Rev2 =>
                on_player i syncUI (on_player i (applyRate (getEffectiveRate pg1)) pg1)
            end
        end
  | None => pg
  end.

(** The body of the script: the second revision reads [INITIAL_RATE],
    then every player of the document is enhanced. *)
Definition startup (rev : revision) (pg : Page) : Page :=
  let pg0 :=
    match rev with
    | Rev1 => with_GLOBAL_RATE None pg
    | Rev2 => let '(r, pg1) := loadRate pg in
              with_GLOBAL_RATE None (with_INITIAL_RATE r pg1)
    end in
  foldl (fun acc i => enhancePlayer rev i acc) pg0 (seq 0 (length (players pg0))).

(** What can happen on the page after the script has run. *)
Inductive event : Type :=
| SpeedClick (i k : nat)          (* click on the [k]-th speed button of player [i] *)
| UserTypes (i : nat) (s : string)(* the user types [s] into the rate field *)
| InputEvent (i : nat)            (* ['input'] or ['change'] on the rate field *)
| ApplyAllClick (i : nat)         (* click on the apply-to-all button *)
| PlayEvent (i : nat)             (* ['play'] on the media element *)
| RateChange (i : nat)            (* ['ratechange'] on the media element *)
| LoadedMetadata (i : nat)        (* ['loadedmetadata'] on the media element *)
| ExternalRate (i : nat) (r : num)(* the page itself sets [playbackRate] *)
| NewPlayer (pl : Player).        (* a player is added to the document *)

Definition enhanced_at (i : nat) (pg : Page) : bool :=
  match players pg !! i with Some pl => tmEnhanced pl | None => false end.

(** The listeners exist on enhanced players only. *)
Definition handle (rev : revision) (ev : event) (pg : Page) : Page :=
  match ev with
  | SpeedClick i k =>
      match SPEEDS !! k with
      | Some r => if enhanced_at i pg then setRate rev i r pg else pg
      | None => pg
      end
  | UserTypes i s =>
      if enhanced_at i pg then on_player i (with_input (number_value s)) pg else pg
  | InputEvent i => if enhanced_at i pg then handleInputEvent rev i pg else pg
  | ApplyAllClick i => if enhanced_at i pg then applyBtn_click i pg else pg
  | PlayEvent i => if enhanced_at i pg then on_play rev i pg else pg
  | RateChange i => if enhanced_at i pg then on_player i syncUI pg else pg
  | LoadedMetadata i =>
      match rev with
      | Rev1 => pg
      | Rev2 => if enhanced_at i pg
                then on_player i (applyRate (getEffectiveRate pg)) pg else pg
      end
  | ExternalRate i r =>
      on_player i (fun pl => with_audio (try_set_rate r <$> audio pl) pl) pg
  | NewPlayer pl =>
      enhancePlayer rev (length (players pg)) (with_players (players pg ++ [pl]) pg)
  end.

Definition run (rev : revision) (evs : list event) (pg : Page) : Page :=
  foldl (fun acc ev => handle rev ev acc) pg evs.

(** The requests that reach [setRate] of player [i], with the rate [r]
    they ask for: a click on a speed button, or an input event while the
    field holds text that parses to a finite number. *)
Definition local_request (pg : Page) (i : nat) (ev : event) (r : num) : Prop :=
  (exists k, ev = SpeedClick i k /\ SPEEDS !! k = Some r) \/
  (ev = InputEvent i /\
   exists pl, players pg !! i = Some pl /\
     parseFloat (str_or (input_value pl) "NaN") = r /\ isFinite r = true).

(** The rate [enhancePlayer] applies to a player it enhances: the
    session override when there is one; otherwise what [loadRate] then
    returns (first revision) or [INITIAL_RATE] (second revision). *)
Definition initial_rate (rev : revision) (pg : Page) : num :=
  match GLOBAL_RATE pg with
  | Some g => g
  | None =>
      match rev with
      | Rev1 => loadRate_value (stored pg)
      | Rev2 => INITIAL_RATE pg
      end
  end.

(** An enhanced player has its hook and a media element whose rate is
    in range. *)
Definition good_player (pl : Player) : Prop :=
  tmEnhanced pl = true ->
  tmApplyRate pl = true /\
  exists a, audio pl = Some a /\ in_range (playbackRate a) = true.

(** The override is a number, the startup rate of the second revision is
    in range, and every player is as [good_player] says. *)
Definition good_page (rev : revision) (pg : Page) : Prop :=
  override_ok pg /\
  match rev with Rev1 => True | Rev2 => in_range (INITIAL_RATE pg) = true end /\
  forall i pl, players pg !! i = Some pl -> good_player pl.

(** The events that come from the script and its user: the page does not
    set rates itself, and a player added to the document is not enhanced
    yet. *)
Definition own_event (ev : event) : bool :=
  match ev with
  | ExternalRate _ _ => false
  | NewPlayer pl => negb (tmEnhanced pl)
  | _ => true
  end.

(** The host accepts every rate of [[MIN_RATE, MAX_RATE]]. *)
Definition accepts_range : Prop :=
  forall v, in_range v = true -> supportsRate v = true.

Definition is_broadcast (ev : event) : bool :=
  match ev with ApplyAllClick _ => true | _ => false end.

End WithHost.

(** A page for examples: nothing stored, no override, the given players. *)
Definition page_of (item : option string) (ps : list Player) : Page :=
  {| GLOBAL_RATE := None; INITIAL_RATE := Fin 1; stored := item; reads := 0;
     writes := []; players := ps |}.

(** A player the script has not seen yet, its element at rate [r]. *)
Definition plain_audio (r : num) : Audio :=
  {| playbackRate := r; currentTime := Fin 0; paused := true; loop := false |}.

Definition plain_player (r : num) : Player :=
  {| tmEnhanced := false; tmApplyRate := false; audio := Some (plain_audio r);
     input_value := ""; btn_active := [] |}.

(** [rate || 1] on a finite rate: what [syncUI] and the apply-to-all
    button read from the element. *)
Definition nonzero_rate (q : Q) : Q := if Qeq_bool q 0 then 1%Q else q.

(** The unit roundoff of binary64, 2^-53. *)
Definition unit_roundoff : Q := 1 # 9007199254740992.

(** [y] is [x] as binary64 rounds a result of its normal range: a finite
    number whose relative error is at most the unit roundoff. *)
Definition rounds_to (x : Q) (y : num) : Prop :=
  exists r, y = Fin r /\ (Qabs (r - x) <= Qabs x * unit_roundoff)%Q.

(** The rate an apply-to-all of [rate] asks of a player of the page:
    clamped when the player has its hook, as it is otherwise. *)
Definition broadcast_target (rate : num) (pl : Player) : num :=
  if tmApplyRate pl then clamp rate MIN_RATE MAX_RATE else rate.

(** The events whose listener writes the storage. *)
Definition writes_storage (ev : event) : bool :=
  match ev with
  | SpeedClick _ _ | InputEvent _ | ApplyAllClick _ => true
  | _ => false
  end.

(** A player without a media element. *)
Definition silent_player : Player :=
  {| tmEnhanced := false; tmApplyRate := false; audio := None;
     input_value := ""; btn_active := [] |}.

(** A page with one player at rate 1, after the script has run on the
    decimal host. *)
Definition one_player (rev : revision) : Page :=
  startup rev (page_of None [plain_player (Fin 1)]).

(** A page with two players, after the script has run on the decimal
    host. *)
Definition two_players (rev : revision) : Page :=
  startup rev (page_of None [plain_player (Fin 1); plain_player (Fin 1)]).

End Rate.

(** ** Reverse playback *)

Module Reverse.

Local Open Scope Q_scope.

(** A decoded buffer: its duration and the samples of each channel. *)
Record AudioBuffer : Type := {
  duration : num;
  channels : list (list num)
}.

(** [for (ch ...) decoded.getChannelData(ch).reverse()] *)
Definition reverse_channels (b : AudioBuffer) : AudioBuffer :=
  {| duration := duration b; channels := map reverse (channels b) |}.

(** An [AudioBufferSourceNode] of the context. *)
Record SourceNode : Type := {
  node_buffer : AudioBuffer;
  node_rate : num;            (* playbackRate.value *)
  node_loop : bool;
  node_offset : num;          (* the offset given to start *)
  node_onended : bool;        (* an onended handler is set *)
  node_playing : bool         (* started, and neither stopped nor ended *)
}.

Definition node_stop (n : SourceNode) : SourceNode :=
  {| node_buffer := node_buffer n; node_rate := node_rate n; node_loop := node_loop n;
     node_offset := node_offset n; node_onended := node_onended n;
     node_playing := false |}.

Definition node_set_rate (r : num) (n : SourceNode) : SourceNode :=
  {| node_buffer := node_buffer n; node_rate := r; node_loop := node_loop n;
     node_offset := node_offset n; node_onended := node_onended n;
     node_playing := node_playing n |}.

(** The variables of one enhanced player's closure that the reverse
    toggle uses, and the part of the host they act on. *)
Record Engine : Type := {
  audio : Audio;   (* the media element of the player *)
  tmReverseBuffer : option AudioBuffer;   (* player.__tmReverseBuffer *)
  reverseCtx : option num;   (* the AudioContext, as its currentTime *)
  reverseSource : option nat;   (* the node the variable refers to *)
  reverseRAF : option nat;   (* the pending animation frame request *)
  reverseStartOffset : num;
  reverseDuration : num;
  reverseStartCtxTime : num;
  indicator : option (option num);   (* the indicator and its translateX *)
  indicatorContainer : option num;   (* its container, as its offsetWidth *)
  btn_active : bool;   (* tm-active on the reverse button *)
  nodes : list SourceNode;   (* the nodes created; the id is the index *)
  frames : list (nat * num);   (* frame requests not yet served *)
  next_frame : nat;   (* the id of the next animation frame request *)
  awaiting : nat;   (* click handlers suspended at fetch and decode *)
  fetches : nat;   (* calls of fetch *)
  decodes : nat   (* decoded buffers reversed *)
}.

Definition set_audio (v : Audio) (e : Engine) : Engine :=
  {| audio := v; tmReverseBuffer := tmReverseBuffer e; reverseCtx :=
     reverseCtx e; reverseSource := reverseSource e; reverseRAF := reverseRAF
     e; reverseStartOffset := reverseStartOffset e; reverseDuration :=
     reverseDuration e; reverseStartCtxTime := reverseStartCtxTime e;
     indicator := indicator e; indicatorContainer := indicatorContainer e;
     btn_active := btn_active e; nodes := nodes e; frames := frames e;
     next_frame := next_frame e; awaiting := awaiting e; fetches := fetches e;
     decodes := decodes e |}.

Definition set_tmReverseBuffer (v : option AudioBuffer) (e : Engine) : Engine :=
  {| audio := audio e; tmReverseBuffer := v; reverseCtx := reverseCtx e;
     reverseSource := reverseSource e; reverseRAF := reverseRAF e;
     reverseStartOffset := reverseStartOffset e; reverseDuration :=
     reverseDuration e; reverseStartCtxTime := reverseStartCtxTime e;
     indicator := indicator e; indicatorContainer := indicatorContainer e;
     btn_active := btn_active e; nodes := nodes e; frames := frames e;
     next_frame := next_frame e; awaiting := awaiting e; fetches := fetches e;
     decodes := decodes e |}.

Definition set_reverseCtx (v : option num) (e : Engine) : Engine :=
  {| audio := audio e; tmReverseBuffer := tmReverseBuffer e; reverseCtx := v;
     reverseSource := reverseSource e; reverseRAF := reverseRAF e;
     reverseStartOffset := reverseStartOffset e; reverseDuration :=
     reverseDuration e; reverseStartCtxTime := reverseStartCtxTime e;
     indicator := indicator e; indicatorContainer := indicatorContainer e;
     btn_active := btn_active e; nodes := nodes e; frames := frames e;
     next_frame := next_frame e; awaiting := awaiting e; fetches := fetches e;
     decodes := decodes e |}.

Definition set_reverseSource (v : option nat) (e : Engine) : Engine :=
  {| audio := audio e; tmReverseBuffer := tmReverseBuffer e; reverseCtx :=
     reverseCtx e; reverseSource := v; reverseRAF := reverseRAF e;
     reverseStartOffset := reverseStartOffset e; reverseDuration :=
     reverseDuration e; reverseStartCtxTime := reverseStartCtxTime e;
     indicator := indicator e; indicatorContainer := indicatorContainer e;
     btn_active := btn_active e; nodes := nodes e; frames := frames e;
     next_frame := next_frame e; awaiting := awaiting e; fetches := fetches e;
     decodes := decodes e |}.

Definition set_reverseRAF (v : option nat) (e : Engine) : Engine :=
  {| audio := audio e; tmReverseBuffer := tmReverseBuffer e; reverseCtx :=
     reverseCtx e; reverseSource := reverseSource e; reverseRAF := v;
     reverseStartOffset := reverseStartOffset e; reverseDuration :=
     reverseDuration e; reverseStartCtxTime := reverseStartCtxTime e;
     indicator := indicator e; indicatorContainer := indicatorContainer e;
     btn_active := btn_active e; nodes := nodes e; frames := frames e;
     next_frame := next_frame e; awaiting := awaiting e; fetches := fetches e;
     decodes := decodes e |}.

Definition set_reverseStartOffset (v : num) (e : Engine) : Engine :=
  {| audio := audio e; tmReverseBuffer := tmReverseBuffer e; reverseCtx :=
     reverseCtx e; reverseSource := reverseSource e; reverseRAF := reverseRAF
     e; reverseStartOffset := v; reverseDuration := reverseDuration e;
     reverseStartCtxTime := reverseStartCtxTime e; indicator := indicator e;
     indicatorContainer := indicatorContainer e; btn_active := btn_active e;
     nodes := nodes e; frames := frames e; next_frame := next_frame e;
     awaiting := awaiting e; fetches := fetches e; decodes := decodes e |}.

Definition set_reverseDuration (v : num) (e : Engine) : Engine :=
  {| audio := audio e; tmReverseBuffer := tmReverseBuffer e; reverseCtx :=
     reverseCtx e; reverseSource := reverseSource e; reverseRAF := reverseRAF
     e; reverseStartOffset := reverseStartOffset e; reverseDuration := v;
     reverseStartCtxTime := reverseStartCtxTime e; indicator := indicator e;
     indicatorContainer := indicatorContainer e; btn_active := btn_active e;
     nodes := nodes e; frames := frames e; next_frame := next_frame e;
     awaiting := awaiting e; fetches := fetches e; decodes := decodes e |}.

Definition set_reverseStartCtxTime (v : num) (e : Engine) : Engine :=
  {| audio := audio e; tmReverseBuffer := tmReverseBuffer e; reverseCtx :=
     reverseCtx e; reverseSource := reverseSource e; reverseRAF := reverseRAF
     e; reverseStartOffset := reverseStartOffset e; reverseDuration :=
     reverseDuration e; reverseStartCtxTime := v; indicator := indicator e;
     indicatorContainer := indicatorContainer e; btn_active := btn_active e;
     nodes := nodes e; frames := frames e; next_frame := next_frame e;
     awaiting := awaiting e; fetches := fetches e; decodes := decodes e |}.

Definition set_indicator (v : option (option num)) (e : Engine) : Engine :=
  {| audio := audio e; tmReverseBuffer := tmReverseBuffer e; reverseCtx :=
     reverseCtx e; reverseSource := reverseSource e; reverseRAF := reverseRAF
     e; reverseStartOffset := reverseStartOffset e; reverseDuration :=
     reverseDuration e; reverseStartCtxTime := reverseStartCtxTime e;
     indicator := v; indicatorContainer := indicatorContainer e; btn_active :=
     btn_active e; nodes := nodes e; frames := frames e; next_frame :=
     next_frame e; awaiting := awaiting e; fetches := fetches e; decodes :=
     decodes e |}.

Definition set_btn_active (v : bool) (e : Engine) : Engine :=
  {| audio := audio e; tmReverseBuffer := tmReverseBuffer e; reverseCtx :=
     reverseCtx e; reverseSource := reverseSource e; reverseRAF := reverseRAF
     e; reverseStartOffset := reverseStartOffset e; reverseDuration :=
     reverseDuration e; reverseStartCtxTime := reverseStartCtxTime e;
     indicator := indicator e; indicatorContainer := indicatorContainer e;
     btn_active := v; nodes := nodes e; frames := frames e; next_frame :=
     next_frame e; awaiting := awaiting e; fetches := fetches e; decodes :=
     decodes e |}.

Definition set_nodes (v : list SourceNode) (e : Engine) : Engine :=
  {| audio := audio e; tmReverseBuffer := tmReverseBuffer e; reverseCtx :=
     reverseCtx e; reverseSource := reverseSource e; reverseRAF := reverseRAF
     e; reverseStartOffset := reverseStartOffset e; reverseDuration :=
     reverseDuration e; reverseStartCtxTime := reverseStartCtxTime e;
     indicator := indicator e; indicatorContainer := indicatorContainer e;
     btn_active := btn_active e; nodes := v; frames := frames e; next_frame :=
     next_frame e; awaiting := awaiting e; fetches := fetches e; decodes :=
     decodes e |}.

Definition set_frames (v : list (nat * num)) (e : Engine) : Engine :=
  {| audio := audio e; tmReverseBuffer := tmReverseBuffer e; reverseCtx :=
     reverseCtx e; reverseSource := reverseSource e; reverseRAF := reverseRAF
     e; reverseStartOffset := reverseStartOffset e; reverseDuration :=
     reverseDuration e; reverseStartCtxTime := reverseStartCtxTime e;
     indicator := indicator e; indicatorContainer := indicatorContainer e;
     btn_active := btn_active e; nodes := nodes e; frames := v; next_frame :=
     next_frame e; awaiting := awaiting e; fetches := fetches e; decodes :=
     decodes e |}.

Definition set_next_frame (v : nat) (e : Engine) : Engine :=
  {| audio := audio e; tmReverseBuffer := tmReverseBuffer e; reverseCtx :=
     reverseCtx e; reverseSource := reverseSource e; reverseRAF := reverseRAF
     e; reverseStartOffset := reverseStartOffset e; reverseDuration :=
     reverseDuration e; reverseStartCtxTime := reverseStartCtxTime e;
     indicator := indicator e; indicatorContainer := indicatorContainer e;
     btn_active := btn_active e; nodes := nodes e; frames := frames e;
     next_frame := v; awaiting := awaiting e; fetches := fetches e; decodes :=
     decodes e |}.

Definition set_awaiting (v : nat) (e : Engine) : Engine :=
  {| audio := audio e; tmReverseBuffer := tmReverseBuffer e; reverseCtx :=
     reverseCtx e; reverseSource := reverseSource e; reverseRAF := reverseRAF
     e; reverseStartOffset := reverseStartOffset e; reverseDuration :=
     reverseDuration e; reverseStartCtxTime := reverseStartCtxTime e;
     indicator := indicator e; indicatorContainer := indicatorContainer e;
     btn_active := btn_active e; nodes := nodes e; frames := frames e;
     next_frame := next_frame e; awaiting := v; fetches := fetches e; decodes
     := decodes e |}.

Definition set_fetches (v : nat) (e : Engine) : Engine :=
  {| audio := audio e; tmReverseBuffer := tmReverseBuffer e; reverseCtx :=
     reverseCtx e; reverseSource := reverseSource e; reverseRAF := reverseRAF
     e; reverseStartOffset := reverseStartOffset e; reverseDuration :=
     reverseDuration e; reverseStartCtxTime := reverseStartCtxTime e;
     indicator := indicator e; indicatorContainer := indicatorContainer e;
     btn_active := btn_active e; nodes := nodes e; frames := frames e;
     next_frame := next_frame e; awaiting := awaiting e; fetches := v; decodes
     := decodes e |}.

Definition set_decodes (v : nat) (e : Engine) : Engine :=
  {| audio := audio e; tmReverseBuffer := tmReverseBuffer e; reverseCtx :=
     reverseCtx e; reverseSource := reverseSource e; reverseRAF := reverseRAF
     e; reverseStartOffset := reverseStartOffset e; reverseDuration :=
     reverseDuration e; reverseStartCtxTime := reverseStartCtxTime e;
     indicator := indicator e; indicatorContainer := indicatorContainer e;
     btn_active := btn_active e; nodes := nodes e; frames := frames e;
     next_frame := next_frame e; awaiting := awaiting e; fetches := fetches e;
     decodes := v |}.

(** The nodes the context is rendering: the live reverse sessions. *)
Definition live (e : Engine) : list SourceNode := filter (fun n => node_playing n = true) (nodes e).

(** [requestAnimationFrame(step)], the step having captured [width]. *)
Definition requestAnimationFrame (width : num) (e : Engine) : Engine :=
  set_reverseRAF (Some (next_frame e))
    (set_next_frame (S (next_frame e))
       (set_frames (frames e ++ [(next_frame e, width)]) e)).

Definition cancelAnimationFrame (f : nat) (e : Engine) : Engine :=
  set_frames (filter (fun r => r.1 <> f) (frames e)) e.

(** [stopReverse(commitTime)].  The second revision tests
    [commitTime && reverseDuration > 0] only; [reverseDuration] is
    positive only once a context exists ([positive_duration_has_context]),
    so the extra [&& reverseCtx] of the first revision changes nothing. *)
Definition stopReverse (commitTime : bool) (e : Engine) : Engine :=
  let e1 :=
    match reverseSource e with
    | Some id => set_reverseSource None (set_nodes (alter node_stop id (nodes e)) e)
    | None => e
    end in
  let e2 :=
    match reverseRAF e1 with
    | Some f => set_reverseRAF None (cancelAnimationFrame f e1)
    | None => e1
    end in
  let e3 :=
    match indicator e2 with
    | Some _ => set_indicator (Some None) e2
    | None => e2
    end in
  let e4 :=
    match reverseCtx e3 with
    | Some now =>
        if commitTime && num_gtb (reverseDuration e3) (Fin 0) then
          let elapsed :=
            num_mul (num_sub now (reverseStartCtxTime e3))
              (num_or (playbackRate (audio e3)) (Fin 1)) in
          let T := Math_max (Fin 0) (num_sub (reverseStartOffset e3) elapsed) in
          set_audio (set_currentTime T (audio e3)) e3
        else e3
    | None => e3
    end in
  set_btn_active false e4.

(** The position the step function computes from the elapsed time. *)
Definition position (looping : bool) (startOffset elapsed dur : num) : num :=
  if looping then
    let cycleTime := num_rem (num_sub startOffset elapsed) dur in
    if num_leb cycleTime (Fin 0) then num_add cycleTime dur else cycleTime
  else Math_max (Fin 0) (num_sub startOffset elapsed).

(** [step], the animation frame callback of a session. *)
Definition step (width : num) (e : Engine) : Engine :=
  match reverseSource e, reverseCtx e with
  | Some id, Some now =>
      let looping := from_option node_loop false (nodes e !! id) in
      let rate := num_or (playbackRate (audio e)) (Fin 1) in
      let elapsed := num_mul (num_sub now (reverseStartCtxTime e)) rate in
      let T := position looping (reverseStartOffset e) elapsed (reverseDuration e) in
      let percent := num_div T (reverseDuration e) in
      let x := num_neg (num_mul (num_sub (Fin 1) percent) width) in
      let e1 := set_indicator (Some (Some x)) e in
      if negb looping && num_leb T (Fin 0) then stopReverse true e1
      else requestAnimationFrame width e1
  | _, _ => e
  end.

(** Whether the host lets a node with this rate start at this offset:
    the rate must be finite, and [start] throws on an offset that is
    negative or not finite. *)
Definition start_accepts (rate offset : num) : bool :=
  isFinite rate && isFinite offset && num_leb (Fin 0) offset.

(** The click handler from [const decoded = player.__tmReverseBuffer] to
    the end of its [try] block, with the [catch] that follows. *)
Definition start_session (e : Engine) : Engine :=
  match tmReverseBuffer e, reverseCtx e with
  | Some decoded, Some now =>
      let D := duration decoded in
      let t := currentTime (audio e) in
      let startOffset := if num_gtb t (Fin 0) then t else D in
      let reversedOffset := num_sub D startOffset in
      let rate := num_or (playbackRate (audio e)) (Fin 1) in
      let id := length (nodes e) in
      let node playing :=
        {| node_buffer := decoded; node_rate := rate; node_loop := loop (audio e);
           node_offset := reversedOffset;
           node_onended := playing && negb (loop (audio e));
           node_playing := playing |} in
      let e1 :=
        set_reverseSource (Some id)
          (set_reverseStartOffset startOffset (set_reverseDuration D e)) in
      if start_accepts rate reversedOffset then
        let e2 :=
          set_btn_active true
            (set_reverseStartCtxTime now (set_nodes (nodes e ++ [node true]) e1)) in
        match indicator e2, indicatorContainer e2 with
        | Some _, Some offsetWidth =>
            requestAnimationFrame (num_or offsetWidth (Fin 0)) e2
        | _, _ => e2
        end
      else stopReverse false (set_nodes (nodes e ++ [node false]) e1)
  | _, _ => e
  end.

(** The click handler of the reverse button, up to its first [await]
    when the reversed buffer is not cached yet. *)
Definition click (e : Engine) : Engine :=
  match reverseSource e with
  | Some _ =>
      let e1 := stopReverse true e in
      set_audio (set_paused false (audio e1)) e1
  | None =>
      let e1 := stopReverse false (set_audio (set_paused true (audio e)) e) in
      let e2 :=
        match reverseCtx e1 with
        | Some _ => e1
        | None => set_reverseCtx (Some (Fin 0)) e1
        end in
      match tmReverseBuffer e2 with
      | Some _ => start_session e2
      | None => set_fetches (S (fetches e2)) (set_awaiting (S (awaiting e2)) e2)
      end
  end.

(** A suspended click handler resumes with the decoded buffer: the
    channels are reversed, the buffer is cached, the session starts. *)
Definition decoded (buf : AudioBuffer) (e : Engine) : Engine :=
  match awaiting e with
  | O => e
  | S n =>
      start_session
        (set_tmReverseBuffer (Some (reverse_channels buf))
           (set_decodes (S (decodes e)) (set_awaiting n e)))
  end.

(** A suspended click handler resumes in its [catch]. *)
Definition decode_failed (e : Engine) : Engine :=
  match awaiting e with
  | O => e
  | S n => stopReverse false (set_awaiting n e)
  end.

(** The local stop button. *)
Definition stopLocal_click (e : Engine) : Engine :=
  let e1 := stopReverse false e in
  set_audio (set_currentTime (Fin 0) (set_paused true (audio e1))) e1.

(** The ['ratechange'] listener of the reverse toggle. *)
Definition on_ratechange (e : Engine) : Engine :=
  match reverseSource e with
  | Some id =>
      set_nodes
        (alter (node_set_rate (num_or (playbackRate (audio e)) (Fin 1))) id (nodes e)) e
  | None => e
  end.

(** What can happen to one player. *)
Inductive event : Type :=
| ReverseClick                 (* click on the reverse button *)
| Decoded (buf : AudioBuffer)  (* fetch and decode of a suspended click complete *)
| DecodeFailed                 (* fetch or decode of a suspended click fails *)
| PlayEvent                    (* ['play'] on the media element *)
| StopClick                    (* click on the stop button of the site *)
| StopLocalClick               (* click on the local stop button *)
| RateChange                   (* ['ratechange'] on the media element *)
| Frame (f : nat)              (* the animation frame request [f] is served *)
| Ended (id : nat)             (* ['ended'] on the node [id] *)
| Tick (dt : Q)                (* the clock of the context advances by [dt] *)
| MediaChange (a : Audio).     (* the media element changes: playback, seeking, rate *)

Definition handle (ev : event) (e : Engine) : Engine :=
  match ev with
  | ReverseClick => click e
  | Decoded buf => decoded buf e
  | DecodeFailed => decode_failed e
  | PlayEvent => stopReverse false e
  | StopClick => stopReverse false e
  | StopLocalClick => stopLocal_click e
  | RateChange => on_ratechange e
  | Frame f =>
      match list_find (fun r => r.1 = f) (frames e) with
      | Some (_, (_, width)) =>
          step width (set_frames (filter (fun r => r.1 <> f) (frames e)) e)
      | None => e
      end
  | Ended id =>
      match nodes e !! id with
      | Some n =>
          let e1 := set_nodes (alter node_stop id (nodes e)) e in
          if node_onended n then stopReverse true e1 else e1
      | None => e
      end
  | Tick dt =>
      match reverseCtx e with
      | Some now => if Qle_bool 0 dt then set_reverseCtx (Some (num_add now (Fin dt))) e else e
      | None => e
      end
  | MediaChange a => set_audio a e
  end.

Definition run (evs : list event) (e : Engine) : Engine :=
  foldl (fun acc ev => handle ev acc) e evs.

(** The start offset the click handler computes from a forward position
    [t] and a duration [d]: [t > 0 ? t : d]. *)
Definition start_offset (t d : Q) : Q := if Qltb 0 t then t else d.

(** The cache and the counters of the fetch and decode work. *)
Definition decode_work (e : Engine) : option AudioBuffer * nat * nat * nat :=
  (tmReverseBuffer e, awaiting e, fetches e, decodes e).

(** No two distinct nodes play. *)
Definition single_session (e : Engine) : Prop :=
  forall i j ni nj,
    nodes e !! i = Some ni -> node_playing ni = true ->
    nodes e !! j = Some nj -> node_playing nj = true -> i = j.

(** Every playing node is the one [reverseSource] refers to. *)
Definition source_owns_live (e : Engine) : Prop :=
  forall i n, nodes e !! i = Some n -> node_playing n = true -> reverseSource e = Some i.

(** No node plays and [reverseSource] is null. *)
Definition no_session (e : Engine) : Prop :=
  reverseSource e = None /\
  forall i n, nodes e !! i = Some n -> node_playing n = false.

(** Toggling reverse on: the click and, when nothing is cached yet, the
    completion of the decode with the buffer [raw]. *)
Definition toggle_on (raw : AudioBuffer) (e : Engine) : list event :=
  ReverseClick :: match tmReverseBuffer e with Some _ => [] | None => [Decoded raw] end.

(** The buffer the session then plays. *)
Definition session_buffer (raw : AudioBuffer) (e : Engine) : AudioBuffer :=
  match tmReverseBuffer e with Some b => b | None => reverse_channels raw end.

(** [rate || 1] on a finite rate. *)
Definition rate_or_1 (k : Q) : Q := if Qeq_bool k 0 then 1 else k.

(** One click is suspended at its awaits: nothing is cached, no session
    runs, the element is at rate [k] and at position [p] or 0. *)
Definition pending_one (k p : Q) (e : Engine) : Prop :=
  reverseSource e = None /\ tmReverseBuffer e = None /\ awaiting e = 1%nat /\
  is_Some (reverseCtx e) /\ playbackRate (audio e) = Fin k /\
  (currentTime (audio e) = Fin p \/ currentTime (audio e) = Fin 0).

(** The events that end reverse playback from outside the toggle. *)
Definition terminating (ev : event) : bool :=
  match ev with
  | PlayEvent | StopClick | StopLocalClick => true
  | _ => false
  end.

(** Time passing on the clock of the context. *)
Definition is_tick (ev : event) : bool :=
  match ev with Tick _ => true | _ => false end.

(** A player just enhanced: nothing cached, no context, no session. *)
Definition initial (a : Audio) (ind : bool) (offsetWidth : num) : Engine :=
  {| audio := a; tmReverseBuffer := None; reverseCtx := None; reverseSource := None;
     reverseRAF := None; reverseStartOffset := Fin 0; reverseDuration := Fin 0;
     reverseStartCtxTime := Fin 0;
     indicator := if ind then Some None else None;
     indicatorContainer := if ind then Some offsetWidth else None;
     btn_active := false; nodes := []; frames := []; next_frame := 1;
     awaiting := 0; fetches := 0; decodes := 0 |}.

(** Every pending frame request is the one [reverseRAF] holds. *)
Definition frames_owned (e : Engine) : Prop :=
  forall f w, (f, w) ∈ frames e -> reverseRAF e = Some f.

(** Samples: a looping element at rate 1 and position 0, a decoded
    buffer of ten seconds, and a player just enhanced, with an indicator
    200 pixels wide. *)
Definition sample_audio : Audio :=
  {| playbackRate := Fin 1; currentTime := Fin 0; paused := false; loop := true |}.

Definition sample_buffer : AudioBuffer :=
  {| duration := Fin 10; channels := [[Fin 1; Fin 2; Fin 3]] |}.

Definition sample_engine : Engine := initial sample_audio true (Fin 200).

(** An element that does not loop, at rate 2 and position 4; the two
    players with a session running on the decoded sample buffer. *)
Definition once_audio : Audio :=
  {| playbackRate := Fin 2; currentTime := Fin 4; paused := false; loop := false |}.

Definition playing_loop : Engine :=
  run [ReverseClick; Decoded sample_buffer] sample_engine.

Definition playing_once : Engine :=
  run [ReverseClick; Decoded sample_buffer] (initial once_audio true (Fin 200)).

End Reverse.

(** * Properties *)

(** Case analysis on every [match] of the goal. *)
Ltac split_matches :=
  repeat (simpl;
          match goal with
          | |- context [match ?x with _ => _ end] => destruct x eqn:?
          end);
  simpl; try reflexivity; try congruence.

(** ** Numbers and [clamp] *)

Section NumFacts.
Local Open Scope Q_scope.

Lemma Qltb_lt (x y : Q) : Qltb x y = true <-> x < y.
Proof.
  unfold Qltb. rewrite negb_true_iff, <- not_true_iff_false, Qle_bool_iff.
  split; [apply Qnot_le_lt | apply Qlt_not_le].
Qed.

Lemma Qltb_ge (x y : Q) : Qltb x y = false <-> y <= x.
Proof.
  unfold Qltb. rewrite negb_false_iff. apply Qle_bool_iff.
Qed.

Lemma num_leb_Fin (x y : Q) : num_leb (Fin x) (Fin y) = true <-> x <= y.
Proof. simpl. apply Qle_bool_iff. Qed.

Lemma num_ltb_Fin (x y : Q) : num_ltb (Fin x) (Fin y) = true <-> x < y.
Proof. simpl. apply Qltb_lt. Qed.

(** A rate in range is a finite number. *)
Lemma in_range_Fin (v : num) :
  in_range v = true -> exists q, v = Fin q /\ 1 # 10 <= q <= 16.
Proof.
  unfold in_range, MIN_RATE, MAX_RATE. intros Hr.
  apply andb_true_iff in Hr as [Hlo Hhi].
  destruct v as [| |q|]; try discriminate.
  exists q. split; [reflexivity|].
  split; [apply num_leb_Fin, Hlo | apply num_leb_Fin, Hhi].
Qed.

Lemma in_range_of_bounds (q : Q) : 1 # 10 <= q <= 16 -> in_range (Fin q) = true.
Proof.
  intros [Hlo Hhi]. unfold in_range, MIN_RATE, MAX_RATE.
  apply andb_true_iff. split; apply num_leb_Fin; assumption.
Qed.

(** [clamp] leaves a rate in range as it is. *)
Lemma clamp_in_range (v : num) :
  in_range v = true -> clamp v MIN_RATE MAX_RATE = v.
Proof.
  intros Hr. destruct (in_range_Fin v Hr) as (q & -> & Hlo & Hhi).
  unfold clamp, Math_max, Math_min, MIN_RATE, MAX_RATE. simpl.
  destruct (Qltb q (1 # 10)) eqn:E1.
  - apply Qltb_lt in E1. exfalso. apply (Qlt_not_le _ _ E1 Hlo).
  - simpl. destruct (Qltb 16 q) eqn:E2; [|reflexivity].
    apply Qltb_lt in E2. exfalso. apply (Qlt_not_le _ _ E2 Hhi).
Qed.

(** [clamp] of anything but NaN is in range. *)
Lemma clamp_range (v : num) :
  is_NaN v = false -> in_range (clamp v MIN_RATE MAX_RATE) = true.
Proof.
  intros Hn. destruct v as [| |q|]; try discriminate; try (vm_compute; reflexivity).
  unfold clamp, Math_max, Math_min, MIN_RATE, MAX_RATE. simpl.
  destruct (Qltb q (1 # 10)) eqn:E1; [vm_compute; reflexivity|].
  simpl. destruct (Qltb 16 q) eqn:E2; [vm_compute; reflexivity|].
  apply in_range_of_bounds. split; [apply Qltb_ge, E1 | apply Qltb_ge, E2].
Qed.

Lemma clamp_NaN : clamp NaN MIN_RATE MAX_RATE = NaN.
Proof. reflexivity. Qed.

(** What [clamp] returns on a finite number: 0.1 below the range, 16
    above it, the number itself inside. *)
Lemma clamp_Fin_cases (q : Q) :
  (q < 1 # 10 -> clamp (Fin q) MIN_RATE MAX_RATE = Fin (1 # 10)) /\
  (16 < q -> clamp (Fin q) MIN_RATE MAX_RATE = Fin 16) /\
  (1 # 10 <= q <= 16 -> clamp (Fin q) MIN_RATE MAX_RATE = Fin q).
Proof.
  split; [|split].
  - intros Hlt. unfold clamp, Math_max, Math_min, MIN_RATE, MAX_RATE. simpl.
    apply Qltb_lt in Hlt. rewrite Hlt. reflexivity.
  - intros Hgt. unfold clamp, Math_max, Math_min, MIN_RATE, MAX_RATE. simpl.
    assert (E1 : Qltb q (1 # 10) = false) by (apply Qltb_ge; lra).
    rewrite E1. simpl. apply Qltb_lt in Hgt. rewrite Hgt. reflexivity.
  - intros Hin. apply clamp_in_range, in_range_of_bounds, Hin.
Qed.

(** Only NaN makes [clamp] fail [Number.isFinite]. *)
Lemma clamp_isFinite (v : num) :
  isFinite (clamp v MIN_RATE MAX_RATE) = negb (is_NaN v).
Proof.
  destruct v as [| |q|]; try reflexivity. simpl.
  destruct (in_range_Fin _ (clamp_range (Fin q) eq_refl)) as (q' & -> & _).
  reflexivity.
Qed.

Lemma clamp_idempotent (v : num) :
  clamp (clamp v MIN_RATE MAX_RATE) MIN_RATE MAX_RATE = clamp v MIN_RATE MAX_RATE.
Proof.
  destruct (is_NaN v) eqn:E.
  - destruct v; try discriminate. reflexivity.
  - apply clamp_in_range, clamp_range, E.
Qed.

(** Every speed of the button bar is in range. *)
Lemma SPEEDS_in_range (k : nat) (r : num) :
  SPEEDS !! k = Some r -> in_range r = true.
Proof.
  intros Hk. do 9 (destruct k as [|k]; [injection Hk as <-; vm_compute; reflexivity|]).
  discriminate.
Qed.

Lemma in_range_truthy (v : num) : in_range v = true -> num_or v (Fin 1) = v.
Proof.
  intros Hr. destruct (in_range_Fin v Hr) as (q & -> & Hlo & _).
  unfold num_or, truthy. destruct (Qeq_bool q 0) eqn:E; [|reflexivity].
  apply Qeq_bool_eq in E. rewrite E in Hlo. exfalso. revert Hlo. apply Qlt_not_le.
  reflexivity.
Qed.

End NumFacts.

(** ** Rate control *)

Module RateProofs.
Import Rate.

Section WithHost.
Context `{Host}.

Lemma syncUI_audio (pl : Player) : audio (syncUI pl) = audio pl.
Proof. unfold syncUI. destruct (audio pl) eqn:E; simpl; congruence. Qed.

Lemma applyRate_audio (v : num) (pl : Player) :
  audio (applyRate v pl) = try_set_rate (clamp v MIN_RATE MAX_RATE) <$> audio pl.
Proof. unfold applyRate. rewrite syncUI_audio. reflexivity. Qed.

Lemma syncUI_enhanced (pl : Player) : tmEnhanced (syncUI pl) = tmEnhanced pl.
Proof. unfold syncUI. destruct (audio pl); reflexivity. Qed.

Lemma applyRate_enhanced (v : num) (pl : Player) :
  tmEnhanced (applyRate v pl) = tmEnhanced pl.
Proof. unfold applyRate. rewrite syncUI_enhanced. reflexivity. Qed.

(** The rate a player is at once [applyRate v] has run, when the host
    accepts the clamped rate. *)
Lemma applyRate_rate (v : num) (pl : Player) (a : Audio) :
  audio pl = Some a ->
  supportsRate (clamp v MIN_RATE MAX_RATE) = true ->
  rate_of (applyRate v pl) = Some (clamp v MIN_RATE MAX_RATE).
Proof.
  intros Ha Hs. unfold rate_of. rewrite applyRate_audio, Ha. simpl.
  unfold try_set_rate. rewrite Hs. reflexivity.
Qed.

Lemma lookup_on_player (i : nat) (f : Player -> Player) (pg : Page) :
  players (on_player i f pg) !! i = f <$> players pg !! i.
Proof. apply list_lookup_alter_eq. Qed.

Lemma lookup_on_player_ne (i j : nat) (f : Player -> Player) (pg : Page) :
  i <> j -> players (on_player i f pg) !! j = players pg !! j.
Proof. intros Hne. simpl. apply list_lookup_alter_ne, Hne. Qed.

(** *** [loadRate] *)

Lemma loadRate_value_absent : loadRate_value None = Fin 1.
Proof.
  unfold loadRate_value. simpl. rewrite parseFloat_one. reflexivity.
Qed.

Lemma loadRate_value_unparseable (s : string) :
  isFinite (parseFloat s) = false -> loadRate_value (Some s) = Fin 1.
Proof.
  intros Hs. unfold loadRate_value. simpl. destruct s as [|c s]; simpl.
  - rewrite parseFloat_one. reflexivity.
  - rewrite Hs. reflexivity.
Qed.

Lemma loadRate_value_finite (s : string) (q : Q) :
  parseFloat s = Fin q -> loadRate_value (Some s) = clamp (Fin q) MIN_RATE MAX_RATE.
Proof.
  intros Hs. unfold loadRate_value. simpl. destruct s as [|c s]; simpl.
  - rewrite parseFloat_empty in Hs. discriminate.
  - rewrite Hs. reflexivity.
Qed.

Lemma loadRate_value_in_range (item : option string) :
  in_range (loadRate_value item) = true.
Proof.
  unfold loadRate_value. destruct (parseFloat (item_or item "1")) as [| |q|]; simpl;
    try (vm_compute; reflexivity).
  apply (clamp_range (Fin q)). reflexivity.
Qed.

(** *** What the handlers leave alone *)

Lemma enhancePlayer_INITIAL_RATE (rev : revision) (i : nat) (pg : Page) :
  INITIAL_RATE (enhancePlayer rev i pg) = INITIAL_RATE pg.
Proof. unfold enhancePlayer, loadRate. split_matches. Qed.

Lemma enhancePlayer_GLOBAL_RATE (rev : revision) (i : nat) (pg : Page) :
  GLOBAL_RATE (enhancePlayer rev i pg) = GLOBAL_RATE pg.
Proof. unfold enhancePlayer, loadRate. split_matches. Qed.

Lemma enhancePlayer_Rev2_reads (i : nat) (pg : Page) :
  reads (enhancePlayer Rev2 i pg) = reads pg.
Proof. unfold enhancePlayer. split_matches. Qed.

Lemma handle_INITIAL_RATE (rev : revision) (ev : event) (pg : Page) :
  INITIAL_RATE (handle rev ev pg) = INITIAL_RATE pg.
Proof.
  destruct ev; simpl; try (rewrite enhancePlayer_INITIAL_RATE; reflexivity);
    unfold setRate, handleInputEvent, setRate, applyBtn_click, on_play; split_matches.
Qed.

Lemma handle_Rev2_reads (ev : event) (pg : Page) :
  reads (handle Rev2 ev pg) = reads pg.
Proof.
  destruct ev; simpl; try (rewrite enhancePlayer_Rev2_reads; reflexivity);
    unfold setRate, handleInputEvent, setRate, applyBtn_click, on_play; split_matches.
Qed.

Lemma handle_GLOBAL_RATE (rev : revision) (ev : event) (pg : Page) :
  is_broadcast ev = false -> GLOBAL_RATE (handle rev ev pg) = GLOBAL_RATE pg.
Proof.
  intros Hb. destruct ev; try discriminate Hb; simpl;
    try (rewrite enhancePlayer_GLOBAL_RATE; reflexivity);
    unfold setRate, handleInputEvent, setRate, on_play; split_matches.
Qed.

Lemma run_step (rev : revision) (ev : event) (evs : list event) (pg : Page) :
  run rev (ev :: evs) pg = run rev evs (handle rev ev pg).
Proof. reflexivity. Qed.

Lemma run_INITIAL_RATE (rev : revision) (evs : list event) (pg : Page) :
  INITIAL_RATE (run rev evs pg) = INITIAL_RATE pg.
Proof.
  revert pg. induction evs as [|ev evs IH]; intros pg; [reflexivity|].
  rewrite run_step, IH. apply handle_INITIAL_RATE.
Qed.

Lemma run_Rev2_reads (evs : list event) (pg : Page) :
  reads (run Rev2 evs pg) = reads pg.
Proof.
  revert pg. induction evs as [|ev evs IH]; intros pg; [reflexivity|].
  rewrite run_step, IH. apply handle_Rev2_reads.
Qed.

Lemma run_GLOBAL_RATE (rev : revision) (evs : list event) (pg : Page) :
  Forall (fun ev => is_broadcast ev = false) evs ->
  GLOBAL_RATE (run rev evs pg) = GLOBAL_RATE pg.
Proof.
  intros Hevs. revert pg. induction Hevs as [|ev evs Hev _ IH]; intros pg; [reflexivity|].
  rewrite run_step, IH. apply handle_GLOBAL_RATE, Hev.
Qed.

Lemma enhance_all_Rev2 (idx : list nat) (pg : Page) :
  let pg' := foldl (fun acc i => enhancePlayer Rev2 i acc) pg idx in
  reads pg' = reads pg /\ INITIAL_RATE pg' = INITIAL_RATE pg.
Proof.
  revert pg. induction idx as [|i idx IH]; intros pg; simpl; [split; reflexivity|].
  destruct (IH (enhancePlayer Rev2 i pg)) as [-> ->].
  split; [apply enhancePlayer_Rev2_reads | apply enhancePlayer_INITIAL_RATE].
Qed.

Lemma startup_Rev2_reads (pg : Page) : reads (startup Rev2 pg) = S (reads pg).
Proof. unfold startup. simpl. apply enhance_all_Rev2. Qed.

Lemma startup_Rev2_INITIAL_RATE (pg : Page) :
  INITIAL_RATE (startup Rev2 pg) = loadRate_value (stored pg).
Proof. unfold startup. simpl. apply enhance_all_Rev2. Qed.

(** *** Initial rate of a player *)

Lemma rate_at_on_player (i : nat) (f : Player -> Player) (pg : Page) :
  rate_at i (on_player i f pg) = players pg !! i ≫= (fun pl => rate_of (f pl)).
Proof.
  unfold rate_at. rewrite lookup_on_player. destruct (players pg !! i); reflexivity.
Qed.

Lemma rate_of_syncUI (pl : Player) : rate_of (syncUI pl) = rate_of pl.
Proof. unfold rate_of. rewrite syncUI_audio. reflexivity. Qed.

(** A player added to the document is enhanced at [initial_rate]. *)
Lemma new_player_rate (rev : revision) (pg : Page) (np : Player) (a : Audio) :
  tmEnhanced np = false ->
  audio np = Some a ->
  supportsRate (clamp (initial_rate rev pg) MIN_RATE MAX_RATE) = true ->
  rate_at (length (players pg)) (handle rev (NewPlayer np) pg)
  = Some (clamp (initial_rate rev pg) MIN_RATE MAX_RATE).
Proof.
  intros He Ha Hs. simpl. unfold enhancePlayer. simpl.
  rewrite list_lookup_middle by reflexivity. rewrite He, Ha.
  assert (Hrate : forall f v (pg0 : Page),
             players pg0 !! length (players pg) = Some (f np) ->
             audio (f np) = Some a ->
             supportsRate (clamp v MIN_RATE MAX_RATE) = true ->
             rate_at (length (players pg)) (on_player (length (players pg)) (applyRate v) pg0)
             = Some (clamp v MIN_RATE MAX_RATE)).
  { intros f v pg0 Hl Hfa Hv. rewrite rate_at_on_player, Hl. simpl.
    apply (applyRate_rate v (f np) a Hfa Hv). }
  set (fresh := fun p : Player => _).
  assert (Hl : players (on_player (length (players pg)) fresh
                 (with_players (players pg ++ [np]) pg)) !! length (players pg)
               = Some (fresh np)).
  { rewrite lookup_on_player. simpl. rewrite list_lookup_middle by reflexivity.
    reflexivity. }
  unfold initial_rate in *. destruct rev; simpl.
  - destruct (GLOBAL_RATE pg) as [g|] eqn:Eg.
    + apply (Hrate fresh); [exact Hl | exact Ha | exact Hs].
    + apply (Hrate fresh); [exact Hl | exact Ha | exact Hs].
  - unfold getEffectiveRate. simpl. rewrite rate_at_on_player.
    rewrite lookup_on_player, Hl. simpl. rewrite rate_of_syncUI.
    destruct (GLOBAL_RATE pg) as [g|] eqn:Eg;
      apply (applyRate_rate _ (fresh np) a Ha Hs).
Qed.

Lemma new_player_Rev1_reads (pg : Page) (np : Player) (a : Audio) :
  GLOBAL_RATE pg = None ->
  tmEnhanced np = false ->
  audio np = Some a ->
  reads (handle Rev1 (NewPlayer np) pg) = S (reads pg).
Proof.
  intros Hg He Ha. simpl. unfold enhancePlayer. simpl.
  rewrite list_lookup_middle by reflexivity. rewrite He, Ha, Hg. reflexivity.
Qed.

(** *** Loading the persisted rate *)

(** C10.  When the stored text parses to a finite number [q], the load
    at startup returns [clamp q 0.1 16]: 0.1 when [q] is below 0.1, 16
    when [q] is above 16, and [q] itself otherwise.  So the loaded rate
    lies within [[0.1, 16]] even when the stored number does not. *)
Theorem loadRate_clamps_stored (pg : Page) (s : string) (q : Q) :
  stored pg = Some s ->
  parseFloat s = Fin q ->
  (loadRate pg).1 = clamp (Fin q) MIN_RATE MAX_RATE /\
  in_range (loadRate pg).1 = true /\
  (q < 1 # 10 -> (loadRate pg).1 = Fin (1 # 10))%Q /\
  (16 < q -> (loadRate pg).1 = Fin 16)%Q /\
  (1 # 10 <= q <= 16 -> (loadRate pg).1 = Fin q)%Q.
Proof.
  intros Hst Hs.
  assert (Hload : (loadRate pg).1 = clamp (Fin q) MIN_RATE MAX_RATE).
  { simpl. rewrite Hst. apply loadRate_value_finite, Hs. }
  destruct (clamp_Fin_cases q) as (Hlo & Hhi & Hin).
  split; [exact Hload|]. split; [simpl; apply loadRate_value_in_range|].
  rewrite Hload. split; [exact Hlo | split; [exact Hhi | exact Hin]].
Qed.

Lemma num_or_not_NaN (v : num) : is_NaN (num_or v (Fin 1)) = false.
Proof.
  destruct v as [| |q|]; try reflexivity.
  unfold num_or, truthy. destruct (negb (Qeq_bool q 0)); reflexivity.
Qed.

Lemma handle_override_ok (rev : revision) (ev : event) (pg : Page) :
  override_ok pg -> override_ok (handle rev ev pg).
Proof.
  intros Hok. destruct (is_broadcast ev) eqn:Eb.
  - destruct ev; try discriminate Eb. simpl. unfold applyBtn_click.
    destruct (enhanced_at i pg); [|exact Hok].
    destruct (players pg !! i) as [src|]; [|exact Hok].
    destruct (audio src) as [a|]; [|exact Hok].
    intros g Hg. simpl in Hg. injection Hg as <-. apply num_or_not_NaN.
  - unfold override_ok. rewrite (handle_GLOBAL_RATE rev ev pg Eb). exact Hok.
Qed.

Lemma run_override_ok (rev : revision) (evs : list event) (pg : Page) :
  override_ok pg -> override_ok (run rev evs pg).
Proof.
  revert pg. induction evs as [|ev evs IH]; intros pg Hok; [exact Hok|].
  rewrite run_step. apply IH, handle_override_ok, Hok.
Qed.

Lemma enhance_all_GLOBAL_RATE (rev : revision) (idx : list nat) (pg : Page) :
  GLOBAL_RATE (foldl (fun acc i => enhancePlayer rev i acc) pg idx) = GLOBAL_RATE pg.
Proof.
  revert pg. induction idx as [|i idx IH]; intros pg; simpl; [reflexivity|].
  rewrite IH. apply enhancePlayer_GLOBAL_RATE.
Qed.

Lemma startup_override_ok (rev : revision) (pg : Page) : override_ok (startup rev pg).
Proof.
  intros g. unfold startup. rewrite enhance_all_GLOBAL_RATE.
  destruct rev; simpl; discriminate.
Qed.

(** On a host that accepts the rates of the range, the rate applied to
    a new player is in range, hence accepted. *)
Lemma initial_rate_supported (rev : revision) (pg : Page) :
  accepts_range ->
  override_ok pg ->
  in_range (INITIAL_RATE pg) = true ->
  supportsRate (clamp (initial_rate rev pg) MIN_RATE MAX_RATE) = true.
Proof.
  intros Hacc Hok Hin. apply Hacc, clamp_range. unfold initial_rate.
  destruct (GLOBAL_RATE pg) as [g|] eqn:Eg; [apply (Hok g Eg)|].
  destruct rev.
  - destruct (in_range_Fin _ (loadRate_value_in_range (stored pg))) as (q & -> & _).
    reflexivity.
  - destruct (in_range_Fin _ Hin) as (q & -> & _). reflexivity.
Qed.

(** Reading the persisted rate.  [loadRate] yields 1 when the item is
    absent or does not parse to a finite number.  The second revision reads the
    storage once, at startup, into [INITIAL_RATE]; no event reads it
    again, and a player enhanced later starts at the session override or
    at that startup value.  The first revision keeps no startup value:
    enhancing a player while no override is set reads the storage again
    and starts the player at what is stored then. *)
Theorem persisted_rate_read (pg : Page) (evs : list event) (np : Player) (a : Audio) :
  accepts_range ->
  tmEnhanced np = false ->
  audio np = Some a ->
  (stored pg = None \/
   (exists s, stored pg = Some s /\ isFinite (parseFloat s) = false) ->
   (loadRate pg).1 = Fin 1) /\
  (let pg2 := run Rev2 evs (startup Rev2 pg) in
   reads pg2 = S (reads pg) /\
   reads (handle Rev2 (NewPlayer np) pg2) = S (reads pg) /\
   rate_at (length (players pg2)) (handle Rev2 (NewPlayer np) pg2)
   = Some (clamp (match GLOBAL_RATE pg2 with
                  | Some g => g
                  | None => (loadRate pg).1
                  end) MIN_RATE MAX_RATE)) /\
  (let pg1 := run Rev1 evs (startup Rev1 pg) in
   GLOBAL_RATE pg1 = None ->
   reads (handle Rev1 (NewPlayer np) pg1) = S (reads pg1) /\
   rate_at (length (players pg1)) (handle Rev1 (NewPlayer np) pg1)
   = Some (loadRate pg1).1).
Proof.
  intros Hacc He Ha. split; [|split].
  - intros [Hn | (s & Hst & Hnf)]; simpl.
    + rewrite Hn. apply loadRate_value_absent.
    + rewrite Hst. apply loadRate_value_unparseable, Hnf.
  - intros pg2.
    assert (Hini : INITIAL_RATE pg2 = loadRate_value (stored pg)).
    { unfold pg2. rewrite run_INITIAL_RATE. apply startup_Rev2_INITIAL_RATE. }
    assert (Hok : override_ok pg2) by apply run_override_ok, startup_override_ok.
    split; [|split].
    + unfold pg2. rewrite run_Rev2_reads. apply startup_Rev2_reads.
    + rewrite handle_Rev2_reads. unfold pg2. rewrite run_Rev2_reads.
      apply startup_Rev2_reads.
    + rewrite (new_player_rate Rev2 pg2 np a He Ha).
      * unfold initial_rate. rewrite Hini. reflexivity.
      * apply initial_rate_supported; [exact Hacc | exact Hok |].
        rewrite Hini. apply loadRate_value_in_range.
  - intros pg1 Hg. split.
    + apply (new_player_Rev1_reads pg1 np a Hg He Ha).
    + rewrite (new_player_rate Rev1 pg1 np a He Ha).
      * unfold initial_rate. rewrite Hg. simpl.
        rewrite clamp_in_range by apply loadRate_value_in_range. reflexivity.
      * unfold initial_rate. rewrite Hg. apply Hacc, clamp_range.
        destruct (in_range_Fin _ (loadRate_value_in_range (stored pg1))) as (q & -> & _).
        reflexivity.
Qed.

(** *** Setting the rate of one player *)

Lemma rate_at_setRate (rev : revision) (i : nat) (v : num) (pg : Page) (pl : Player) (a : Audio) :
  players pg !! i = Some pl ->
  audio pl = Some a ->
  supportsRate (clamp v MIN_RATE MAX_RATE) = true ->
  rate_at i (setRate rev i v pg) = Some (clamp v MIN_RATE MAX_RATE).
Proof.
  intros Hl Ha Hs. destruct rev; simpl.
  - change (rate_at i (on_player i (applyRate (clamp v MIN_RATE MAX_RATE)) pg)
            = Some (clamp v MIN_RATE MAX_RATE)).
    rewrite rate_at_on_player, Hl. simpl.
    rewrite <- (clamp_idempotent v) at 2.
    apply (applyRate_rate _ pl a Ha). rewrite clamp_idempotent. exact Hs.
  - change (rate_at i (on_player i (applyRate v) pg) = Some (clamp v MIN_RATE MAX_RATE)).
    rewrite rate_at_on_player, Hl. simpl. apply (applyRate_rate _ pl a Ha Hs).
Qed.

Lemma stored_setRate (rev : revision) (i : nat) (v : num) (pg : Page) :
  in_range v = true ->
  stored (setRate rev i v pg) = Some (js_String v) /\
  writes (setRate rev i v pg) = js_String v :: writes pg.
Proof.
  intros Hr. destruct rev; simpl; [rewrite (clamp_in_range v Hr)|]; split; reflexivity.
Qed.

(** A rate requested through the speed buttons or through valid numeric
    input is a finite number. *)
Lemma local_request_finite (pg : Page) (i : nat) (ev : event) (r : num) :
  local_request pg i ev r -> exists q, r = Fin q.
Proof.
  intros [(k & _ & Hk) | (_ & pl & _ & _ & Hf)].
  - destruct (in_range_Fin r (SPEEDS_in_range k r Hk)) as (q & -> & _). exists q. reflexivity.
  - destruct r as [| |q|]; try discriminate Hf. exists q. reflexivity.
Qed.

(** C1.  A rate [r] requested through the speed buttons or through valid
    numeric input reaches the media element as [clamp r 0.1 16], and
    that clamped rate is what is written to the storage.  The rate is a
    finite number [q], and the clamped rate is 0.1 when [q] is below 0.1,
    16 when [q] is above 16, and [q] itself otherwise. *)
Theorem setRate_applies_and_saves
    (rev : revision) (pg : Page) (i : nat) (pl : Player) (a : Audio)
    (ev : event) (r : num) :
  players pg !! i = Some pl ->
  tmEnhanced pl = true ->
  audio pl = Some a ->
  local_request pg i ev r ->
  supportsRate (clamp r MIN_RATE MAX_RATE) = true ->
  (rate_at i (handle rev ev pg) = Some (clamp r MIN_RATE MAX_RATE) /\
   stored (handle rev ev pg) = Some (js_String (clamp r MIN_RATE MAX_RATE)) /\
   writes (handle rev ev pg) = js_String (clamp r MIN_RATE MAX_RATE) :: writes pg) /\
  in_range (clamp r MIN_RATE MAX_RATE) = true /\
  exists q, r = Fin q /\
    (q < 1 # 10 -> clamp r MIN_RATE MAX_RATE = Fin (1 # 10))%Q /\
    (16 < q -> clamp r MIN_RATE MAX_RATE = Fin 16)%Q /\
    (1 # 10 <= q <= 16 -> clamp r MIN_RATE MAX_RATE = Fin q)%Q.
Proof.
  intros Hl He Ha Hreq Hs.
  destruct (local_request_finite pg i ev r Hreq) as (q & Hq).
  split; [|split; [subst r; apply clamp_range; reflexivity|
                   exists q; split; [exact Hq | subst r; apply clamp_Fin_cases]]].
  assert (Hen : enhanced_at i pg = true) by (unfold enhanced_at; rewrite Hl; exact He).
  destruct Hreq as [(k & -> & Hk) | (-> & pl' & Hl' & Hp & Hf)].
  - simpl. rewrite Hk, Hen.
    pose proof (SPEEDS_in_range k r Hk) as Hr.
    rewrite (clamp_in_range r Hr) in *.
    split; [|apply (stored_setRate rev i r pg Hr)].
    rewrite <- (clamp_in_range r Hr) at 2.
    apply (rate_at_setRate rev i r pg pl a Hl Ha). rewrite (clamp_in_range r Hr). exact Hs.
  - simpl. rewrite Hen. unfold handleInputEvent. rewrite Hl.
    rewrite Hl' in Hl. injection Hl as ->. rewrite Hp.
    assert (Hn : is_NaN r = false) by (destruct r; try discriminate; reflexivity).
    rewrite clamp_isFinite, Hn. simpl.
    pose proof (clamp_range r Hn) as Hr.
    split; [|apply (stored_setRate rev i _ pg Hr)].
    rewrite <- (clamp_idempotent r) at 2.
    apply (rate_at_setRate rev i _ pg pl a Hl' Ha). rewrite clamp_idempotent. exact Hs.
Qed.

(** [handleInputEvent] on what the field holds: a value that parses to
    NaN is ignored, the page (rates, storage, fields, highlights) stays
    as it was; any other parsed value is clamped into [[0.1, 16]],
    applied and saved. *)
Lemma input_NaN_ignored_others_clamped
    (rev : revision) (pg : Page) (i : nat) (pl : Player) (a : Audio) (v : num) :
  players pg !! i = Some pl ->
  tmEnhanced pl = true ->
  audio pl = Some a ->
  parseFloat (str_or (input_value pl) "NaN") = v ->
  (is_NaN v = true -> handle rev (InputEvent i) pg = pg) /\
  (is_NaN v = false ->
   supportsRate (clamp v MIN_RATE MAX_RATE) = true ->
   in_range (clamp v MIN_RATE MAX_RATE) = true /\
   rate_at i (handle rev (InputEvent i) pg) = Some (clamp v MIN_RATE MAX_RATE) /\
   stored (handle rev (InputEvent i) pg) = Some (js_String (clamp v MIN_RATE MAX_RATE)) /\
   writes (handle rev (InputEvent i) pg)
   = js_String (clamp v MIN_RATE MAX_RATE) :: writes pg).
Proof.
  intros Hl He Ha Hp.
  assert (Hen : enhanced_at i pg = true) by (unfold enhanced_at; rewrite Hl; exact He).
  simpl. rewrite Hen. unfold handleInputEvent. rewrite Hl, Hp, clamp_isFinite. split.
  - intros ->. reflexivity.
  - intros Hn Hs. rewrite Hn. simpl.
    pose proof (clamp_range v Hn) as Hr. split; [exact Hr|]. split.
    + rewrite <- (clamp_idempotent v) at 2.
      apply (rate_at_setRate rev i _ pg pl a Hl Ha). rewrite clamp_idempotent. exact Hs.
    + apply (stored_setRate rev i _ pg Hr).
Qed.

(** The empty string is no valid floating-point number. *)
Lemma valid_number_not_empty (text : string) :
  valid_floating_point_number text = true -> str_or text "NaN" = text.
Proof. destruct text; [discriminate | reflexivity]. Qed.

(** What the rate field reads back: the text typed when it is a valid
    number with a finite value, the empty string otherwise. *)
Lemma number_value_cases (text : string) :
  (valid_floating_point_number text = false \/ isFinite (parseFloat text) = false ->
   number_value text = "") /\
  (valid_floating_point_number text = true -> isFinite (parseFloat text) = true ->
   number_value text = text).
Proof.
  unfold number_value. split.
  - intros [-> | ->]; [reflexivity | rewrite andb_false_r; reflexivity].
  - intros -> ->. reflexivity.
Qed.

(** C9.  The user types [text] into the rate field and the field fires
    its input event.  Malformed text (text that is no valid number, such
    as "abc", or whose number is not finite) is ignored: the page after
    the event is the page before it, so the rate of the player, the
    storage and the controls are unchanged.  Text that parses to a
    finite number [q] is never rejected: the rate becomes [clamp q 0.1
    16] (0.1 when [q] is below 0.1, 16 when above 16, [q] otherwise)
    and is saved. *)
Theorem malformed_input_ignored
    (rev : revision) (pg : Page) (i : nat) (pl : Player) (a : Audio) (text : string) :
  players pg !! i = Some pl ->
  tmEnhanced pl = true ->
  audio pl = Some a ->
  let typed := handle rev (UserTypes i text) pg in
  let after := handle rev (InputEvent i) typed in
  (valid_floating_point_number text = false \/ isFinite (parseFloat text) = false ->
   after = typed /\
   rate_at i after = rate_at i pg /\
   stored after = stored pg /\ writes after = writes pg) /\
  (forall q,
     valid_floating_point_number text = true ->
     parseFloat text = Fin q ->
     supportsRate (clamp (Fin q) MIN_RATE MAX_RATE) = true ->
     rate_at i after = Some (clamp (Fin q) MIN_RATE MAX_RATE) /\
     stored after = Some (js_String (clamp (Fin q) MIN_RATE MAX_RATE)) /\
     writes after = js_String (clamp (Fin q) MIN_RATE MAX_RATE) :: writes pg /\
     (q < 1 # 10 -> clamp (Fin q) MIN_RATE MAX_RATE = Fin (1 # 10))%Q /\
     (16 < q -> clamp (Fin q) MIN_RATE MAX_RATE = Fin 16)%Q /\
     (1 # 10 <= q <= 16 -> clamp (Fin q) MIN_RATE MAX_RATE = Fin q)%Q) /\
  valid_floating_point_number "abc" = false.
Proof.
  intros Hl He Ha typed after.
  assert (Hen : enhanced_at i pg = true) by (unfold enhanced_at; rewrite Hl; exact He).
  assert (Htyped : typed = on_player i (with_input (number_value text)) pg).
  { unfold typed. simpl. rewrite Hen. reflexivity. }
  assert (Hlt : players typed !! i = Some (with_input (number_value text) pl)).
  { rewrite Htyped, lookup_on_player, Hl. reflexivity. }
  assert (Hrate : rate_at i typed = rate_at i pg).
  { unfold rate_at. rewrite Hlt, Hl. reflexivity. }
  destruct (number_value_cases text) as [Hbad Hgood].
  split; [|split; [|reflexivity]].
  - intros Hmal.
    destruct (input_NaN_ignored_others_clamped rev typed i _ a NaN Hlt He Ha) as [Hnan _].
    { simpl. rewrite (Hbad Hmal). apply parseFloat_NaN. }
    fold after in Hnan. rewrite (Hnan eq_refl).
    split; [reflexivity|]. split; [exact Hrate|].
    rewrite Htyped. split; reflexivity.
  - intros q Hv Hq Hs.
    assert (Hfin : isFinite (parseFloat text) = true) by (rewrite Hq; reflexivity).
    destruct (input_NaN_ignored_others_clamped rev typed i _ a (Fin q) Hlt He Ha)
      as [_ Hset].
    { simpl. rewrite (Hgood Hv Hfin), (valid_number_not_empty text Hv). exact Hq. }
    fold after in Hset. destruct (Hset eq_refl Hs) as (_ & H1 & H2 & H3).
    split; [exact H1|]. split; [exact H2|].
    split; [rewrite H3, Htyped; reflexivity|]. apply clamp_Fin_cases.
Qed.

(** *** The rate of an enhanced player stays in range *)

Section InRange.
Hypothesis Hacc : accepts_range.

Lemma applyRate_good_audio (v : num) (pl : Player) :
  is_NaN v = false -> is_Some (audio pl) -> good_player (applyRate v pl).
Proof.
  intros Hv [a Ha] _. split; [unfold applyRate, syncUI; simpl; rewrite Ha; reflexivity|].
  rewrite applyRate_audio, Ha. simpl. eexists. split; [reflexivity|].
  unfold try_set_rate. rewrite (Hacc _ (clamp_range v Hv)). apply clamp_range, Hv.
Qed.

Lemma applyRate_good (v : num) (pl : Player) :
  is_NaN v = false -> good_player pl -> good_player (applyRate v pl).
Proof.
  intros Hv Hg He. assert (He' := He). rewrite applyRate_enhanced in He'.
  destruct (Hg He') as (_ & a & Ha & _).
  apply applyRate_good_audio; [exact Hv | rewrite Ha; eauto | exact He].
Qed.

Lemma syncUI_good (pl : Player) : good_player pl -> good_player (syncUI pl).
Proof.
  intros Hg He. rewrite syncUI_enhanced in He. destruct (Hg He) as (Hh & a & Ha & Hr).
  split; [unfold syncUI; rewrite Ha; exact Hh|].
  exists a. rewrite syncUI_audio. split; assumption.
Qed.

Lemma broadcast_to_good (rate : num) (pl : Player) :
  is_NaN rate = false -> good_player pl -> good_player (broadcast_to rate pl).
Proof.
  intros Hv Hg. unfold broadcast_to. destruct (tmApplyRate pl) eqn:Eh.
  - apply applyRate_good; assumption.
  - intros He. simpl in He. destruct (Hg He) as [Hh _]. congruence.
Qed.

Lemma on_player_good (i : nat) (f : Player -> Player) (pg : Page) :
  (forall pl, players pg !! i = Some pl -> good_player (f pl)) ->
  (forall j pl, players pg !! j = Some pl -> good_player pl) ->
  forall j pl, players (on_player i f pg) !! j = Some pl -> good_player pl.
Proof.
  intros Hf Hall j pl. destruct (decide (i = j)) as [->|Hne].
  - rewrite lookup_on_player. destruct (players pg !! j) as [pl0|] eqn:E; [|discriminate].
    intros [= <-]. apply Hf. reflexivity.
  - rewrite lookup_on_player_ne by exact Hne. apply Hall.
Qed.

Lemma in_range_not_NaN (v : num) : in_range v = true -> is_NaN v = false.
Proof. intros Hr. destruct (in_range_Fin v Hr) as (q & -> & _). reflexivity. Qed.

Lemma initial_rate_not_NaN (rev : revision) (pg : Page) :
  good_page rev pg -> is_NaN (initial_rate rev pg) = false.
Proof.
  intros (Hok & Hini & _). unfold initial_rate.
  destruct (GLOBAL_RATE pg) as [g|] eqn:Eg; [apply (Hok g Eg)|].
  destruct rev; apply in_range_not_NaN; [apply loadRate_value_in_range | exact Hini].
Qed.

Lemma good_page_on_player (rev : revision) (i : nat) (f : Player -> Player) (pg : Page) :
  (forall pl, players pg !! i = Some pl -> good_player pl -> good_player (f pl)) ->
  good_page rev pg -> good_page rev (on_player i f pg).
Proof.
  intros Hf (Hok & Hini & Hall). split; [exact Hok|]. split; [exact Hini|].
  apply on_player_good; [|exact Hall]. intros pl Hl. apply (Hf pl Hl), (Hall i pl Hl).
Qed.

Lemma good_page_saveRate (rev : revision) (r : num) (pg : Page) :
  good_page rev pg -> good_page rev (saveRate r pg).
Proof. intros H0. exact H0. Qed.

Lemma setRate_good (rev : revision) (i : nat) (v : num) (pg : Page) :
  is_NaN v = false -> good_page rev pg -> good_page rev (setRate rev i v pg).
Proof.
  intros Hv Hg. destruct rev; simpl; apply good_page_saveRate, good_page_on_player;
    try exact Hg; intros pl _; apply applyRate_good; try exact Hv.
  apply in_range_not_NaN, clamp_range, Hv.
Qed.

Lemma enhancePlayer_good (rev : revision) (i : nat) (pg : Page) :
  good_page rev pg -> good_page rev (enhancePlayer rev i pg).
Proof.
  intros Hg. pose proof (initial_rate_not_NaN rev pg Hg) as Hv.
  unfold enhancePlayer, initial_rate in *.
  destruct (players pg !! i) as [pl|] eqn:El; [|exact Hg].
  destruct (tmEnhanced pl) eqn:Ee; [exact Hg|].
  destruct (audio pl) as [a|] eqn:Ea; [|exact Hg].
  set (fresh := fun p : Player => _).
  assert (Hfresh : forall v, is_NaN v = false ->
            forall p, players pg !! i = Some p -> good_player (applyRate v (fresh p))).
  { intros v Hnv p Hp. rewrite El in Hp. injection Hp as <-.
    apply applyRate_good_audio; [exact Hnv | simpl; rewrite Ea; eauto]. }
  destruct Hg as (Hok & Hini & Hall).
  assert (Hstep : forall v (pg0 : Page), is_NaN v = false ->
            players pg0 = players (on_player i fresh pg) ->
            forall j p, players (on_player i (applyRate v) pg0) !! j = Some p ->
                        good_player p).
  { intros v pg0 Hnv Hpl j p. simpl. rewrite Hpl. simpl.
    rewrite list_alter_alter_eq. intros Hj.
    apply (on_player_good i (fun p0 => applyRate v (fresh p0)) pg (Hfresh v Hnv) Hall j p).
    exact Hj. }
  destruct rev; simpl.
  - destruct (GLOBAL_RATE pg) as [g|] eqn:Eg.
    + split; [intros g' Hg'; simpl in Hg'; apply (Hok g'); congruence|].
      split; [exact I|]. apply Hstep; [exact Hv | reflexivity].
    + split; [intros g' Hg'; simpl in Hg'; apply (Hok g'); congruence|].
      split; [exact I|]. apply Hstep; [exact Hv | reflexivity].
  - split; [exact Hok|]. split; [exact Hini|].
    apply on_player_good.
    + intros p Hp. apply syncUI_good. revert Hp. apply Hstep; [exact Hv | reflexivity].
    + apply Hstep; [exact Hv | reflexivity].
Qed.

(** Every event of the script and its user keeps the page good. *)
Lemma handle_good (rev : revision) (ev : event) (pg : Page) :
  own_event ev = true -> good_page rev pg -> good_page rev (handle rev ev pg).
Proof.
  intros Hev Hg. destruct ev; try discriminate Hev; simpl.
  - destruct (SPEEDS !! k) as [r|] eqn:Ek; [|exact Hg].
    destruct (enhanced_at i pg); [|exact Hg].
    apply setRate_good; [|exact Hg]. apply in_range_not_NaN, (SPEEDS_in_range k r Ek).
  - destruct (enhanced_at i pg); [|exact Hg].
    apply good_page_on_player; [|exact Hg]. intros pl _ Hp. exact Hp.
  - destruct (enhanced_at i pg); [|exact Hg]. unfold handleInputEvent.
    destruct (players pg !! i) as [pl|]; [|exact Hg].
    rewrite clamp_isFinite.
    destruct (is_NaN (parseFloat (str_or (input_value pl) "NaN"))) eqn:En; [exact Hg|].
    apply setRate_good; [|exact Hg]. apply in_range_not_NaN, clamp_range, En.
  - destruct (enhanced_at i pg); [|exact Hg]. unfold applyBtn_click.
    destruct (players pg !! i) as [src|]; [|exact Hg].
    destruct (audio src) as [a|]; [|exact Hg].
    destruct Hg as (Hok & Hini & Hall). split; [|split; [exact Hini|]].
    + intros g [= <-]. apply num_or_not_NaN.
    + intros j pl. simpl. rewrite list_lookup_imap.
      destruct (players pg !! j) as [pl0|] eqn:Ej; [|discriminate]. simpl.
      intros [= <-]. destruct (decide (j = i)); [apply (Hall j pl0 Ej)|].
      apply broadcast_to_good; [apply num_or_not_NaN | apply (Hall j pl0 Ej)].
  - destruct (enhanced_at i pg); [|exact Hg]. unfold on_play.
    destruct (players pg !! i) as [pl|]; [|exact Hg].
    destruct (audio pl) as [a|]; [|exact Hg].
    pose proof Hg as (Hok & Hini & _). destruct rev.
    + rewrite clamp_isFinite.
      destruct (is_NaN (parseFloat (str_or (input_value pl) "NaN"))) eqn:En; simpl.
      * apply good_page_on_player; [|exact Hg]. intros p _. apply applyRate_good.
        destruct (GLOBAL_RATE pg) as [g|] eqn:Eg; [apply (Hok g Eg) | apply num_or_not_NaN].
      * apply good_page_on_player; [|exact Hg]. intros p _. apply applyRate_good.
        apply in_range_not_NaN, clamp_range, En.
    + destruct (num_gtb _ _); [|exact Hg].
      apply good_page_on_player; [|exact Hg]. intros p _. apply applyRate_good.
      apply (initial_rate_not_NaN Rev2 pg Hg).
  - destruct (enhanced_at i pg); [|exact Hg].
    apply good_page_on_player; [|exact Hg]. intros pl _. apply syncUI_good.
  - destruct rev; [exact Hg|]. destruct (enhanced_at i pg); [|exact Hg].
    apply good_page_on_player; [|exact Hg]. intros p _. apply applyRate_good.
    apply (initial_rate_not_NaN Rev2 pg Hg).
  - apply enhancePlayer_good. destruct Hg as (Hok & Hini & Hall).
    split; [exact Hok|]. split; [exact Hini|]. intros j p. simpl. intros Hj.
    apply lookup_app_Some in Hj as [Hj | [_ Hj]]; [apply (Hall j p Hj)|].
    destruct (j - length (players pg))%nat as [|n]; simpl in Hj; [|destruct n; discriminate].
    injection Hj as <-. intros He. simpl in Hev. rewrite He in Hev. discriminate Hev.
Qed.

Lemma run_good (rev : revision) (evs : list event) (pg : Page) :
  Forall (fun ev => own_event ev = true) evs ->
  good_page rev pg -> good_page rev (run rev evs pg).
Proof.
  intros Hevs. revert pg. induction Hevs as [|ev evs Hev _ IH]; intros pg Hg; [exact Hg|].
  rewrite run_step. apply IH, handle_good; assumption.
Qed.

Lemma startup_good (rev : revision) (pg : Page) :
  (forall i pl, players pg !! i = Some pl -> tmEnhanced pl = false) ->
  good_page rev (startup rev pg).
Proof.
  intros Hplain. unfold startup.
  set (pg0 := match rev with Rev1 => _ | Rev2 => _ end).
  assert (H0 : good_page rev pg0).
  { split; [|split].
    - unfold pg0. destruct rev; intros g; simpl; discriminate.
    - unfold pg0. destruct rev; [exact I|]. simpl. apply loadRate_value_in_range.
    - intros i pl Hl He.
      assert (Hl' : players pg !! i = Some pl) by (unfold pg0 in Hl; destruct rev; exact Hl).
      rewrite (Hplain i pl Hl') in He. discriminate He. }
  generalize (seq 0 (length (players pg0))). intros idx. revert H0. generalize pg0.
  induction idx as [|i idx IH]; intros pg1 H1; simpl; [exact H1|].
  apply IH, enhancePlayer_good, H1.
Qed.

(** X13.  On a host that accepts the rates of the range, the script is
    started on a document of plain players and any events of the script
    and its user follow ([own_event]: the page itself sets no rate, and
    a player added to the document is not enhanced yet).  Then each
    enhanced player has a media element whose rate is in range.  A rate
    the page sets from outside is not clamped, the ['ratechange']
    listener only shows it ([outside_rate_is_not_clamped]). *)
Lemma enhanced_rate_in_range
    (rev : revision) (pg : Page) (evs : list event) (i : nat) (pl : Player) :
  (forall j p, players pg !! j = Some p -> tmEnhanced p = false) ->
  Forall (fun ev => own_event ev = true) evs ->
  players (run rev evs (startup rev pg)) !! i = Some pl ->
  tmEnhanced pl = true ->
  exists a, audio pl = Some a /\ in_range (playbackRate a) = true.
Proof.
  intros Hplain Hevs Hl He.
  destruct (run_good rev evs _ Hevs (startup_good rev pg Hplain)) as (_ & _ & Hall).
  destruct (Hall i pl Hl He) as (_ & Ha). exact Ha.
Qed.

End InRange.

(** *** Apply to all *)

Lemma broadcast_to_rate (r : num) (pl : Player) (b : Audio) :
  audio pl = Some b ->
  in_range r = true ->
  supportsRate r = true ->
  rate_of (broadcast_to r pl) = Some r.
Proof.
  intros Hb Hr Hs. unfold broadcast_to. destruct (tmApplyRate pl).
  - rewrite (applyRate_rate r pl b Hb); rewrite (clamp_in_range r Hr); auto.
  - unfold rate_of. simpl. rewrite Hb. simpl. unfold try_set_rate. rewrite Hs. reflexivity.
Qed.

(** C6.  The apply-to-all action of a player at rate [r] makes [r] the
    session override, writes it to the storage, and brings every other
    player of the page to [r], through the player's [__tmApplyRate] hook
    when it has one and by assigning [playbackRate] otherwise.  Until the
    next apply-to-all, whatever else happens on the page (the storage may
    change), a player enhanced afterwards starts at [r]. *)
Theorem broadcast_sets_override_and_rates
    (rev : revision) (pg : Page) (i : nat) (src : Player) (a : Audio) (r : num)
    (evs : list event) (np : Player) (b : Audio) :
  players pg !! i = Some src ->
  tmEnhanced src = true ->
  audio src = Some a ->
  playbackRate a = r ->
  in_range r = true ->
  supportsRate r = true ->
  Forall (fun ev => is_broadcast ev = false) evs ->
  tmEnhanced np = false ->
  audio np = Some b ->
  let pg' := handle rev (ApplyAllClick i) pg in
  let pg'' := run rev evs pg' in
  GLOBAL_RATE pg' = Some r /\
  stored pg' = Some (js_String r) /\
  writes pg' = js_String r :: writes pg /\
  (forall j pl c, j <> i -> players pg !! j = Some pl -> audio pl = Some c ->
     players pg' !! j
     = Some (if tmApplyRate pl then applyRate r pl
             else with_audio (try_set_rate r <$> audio pl) pl) /\
     rate_at j pg' = Some r) /\
  rate_at i pg' = Some r /\
  rate_at (length (players pg'')) (handle rev (NewPlayer np) pg'') = Some r.
Proof.
  intros Hl He Ha Hra Hr Hs Hevs Hne Hb pg' pg''.
  assert (Hen : enhanced_at i pg = true) by (unfold enhanced_at; rewrite Hl; exact He).
  assert (Hpg' : pg' = applyBtn_click i pg) by (unfold pg'; simpl; rewrite Hen; reflexivity).
  unfold applyBtn_click in Hpg'. rewrite Hl, Ha, Hra, (in_range_truthy r Hr) in Hpg'.
  assert (Hg : GLOBAL_RATE pg' = Some r) by (rewrite Hpg'; reflexivity).
  split; [exact Hg|]. split; [rewrite Hpg'; reflexivity|].
  split; [rewrite Hpg'; reflexivity|]. split; [|split].
  - intros j pl c Hj Hlj Hc.
    assert (Hlook : players pg' !! j = Some (broadcast_to r pl)).
    { rewrite Hpg'. simpl. rewrite list_lookup_imap, Hlj. simpl.
      destruct (decide (j = i)); [contradiction | reflexivity]. }
    split; [exact Hlook|].
    unfold rate_at. rewrite Hlook. simpl. apply (broadcast_to_rate r pl c Hc Hr Hs).
  - unfold rate_at. rewrite Hpg'. simpl. rewrite list_lookup_imap, Hl. simpl.
    destruct (decide (i = i)); [|contradiction]. unfold rate_of. rewrite Ha, <- Hra.
    reflexivity.
  - assert (Hg'' : GLOBAL_RATE pg'' = Some r).
    { unfold pg''. rewrite (run_GLOBAL_RATE rev evs pg' Hevs). exact Hg. }
    assert (Hini : initial_rate rev pg'' = r) by (unfold initial_rate; rewrite Hg''; reflexivity).
    rewrite (new_player_rate rev pg'' np b Hne Hb); rewrite Hini, (clamp_in_range r Hr); auto.
Qed.

End WithHost.

(** *** On the decimal host *)

Example parse_samples :
  map Decimal.parse
    ["abc"; ""; "1"; "  2.50x"; "-.5"; "1e2"; "100"; "0.01"; "Infinity"; "1e999"; "NaN"; "1e"]
  = [NaN; NaN; Fin 1; Fin (5 # 2); Fin (- 1 # 2); Fin 100; Fin 100; Fin (1 # 100);
     PosInf; PosInf; NaN; Fin 1].
Proof. vm_compute. reflexivity. Qed.

Example show_samples :
  map Decimal.show [Fin 16; Fin (1 # 10); Fin (1 # 4); Fin (- 3 # 2); Fin 0; NaN; PosInf]
  = ["16"; "0.1"; "0.25"; "-1.5"; "0"; "NaN"; "Infinity"].
Proof. vm_compute. reflexivity. Qed.

Lemma DecimalHost_accepts_range : accepts_range.
Proof. intros v _. reflexivity. Qed.

(** A stored 100 loads as 16. *)
Lemma loadRate_clamps_stored_witness :
  (loadRate (page_of (Some "100") [])).1 = Fin 16 /\
  in_range (loadRate (page_of (Some "100") [])).1 = true.
Proof.
  destruct (loadRate_clamps_stored (page_of (Some "100") []) "100" 100)
    as (_ & Hin & _ & Hhi & _); [reflexivity | reflexivity |].
  split; [apply Hhi; reflexivity | exact Hin].
Defined.

(** A stored 100 loads as 16, a stored 0.01 as 0.1. *)
Example loadRate_out_of_range :
  (loadRate (page_of (Some "100") [])).1 = Fin 16 /\
  (loadRate (page_of (Some "0.01") [])).1 = Fin (1 # 10).
Proof. split; reflexivity. Qed.

Lemma persisted_rate_read_witness :
  reads (run Rev2 [SpeedClick 0 3] (one_player Rev2)) = 1 /\
  rate_at 1 (run Rev2 [SpeedClick 0 3; NewPlayer (plain_player (Fin 3))] (one_player Rev2))
  = Some (Fin 1).
Proof.
  destruct (persisted_rate_read (page_of None [plain_player (Fin 1)]) [SpeedClick 0 3]
              (plain_player (Fin 3)) _ DecimalHost_accepts_range eq_refl eq_refl)
    as (_ & (Hreads & _ & Hrate) & _).
  split; [exact Hreads | exact Hrate].
Defined.

(** C7 on the first revision.  The script declares [appliedInitialOnce]
    under the comment that only the first enhanced player should load
    the saved rate, and never uses it: [enhancePlayer] calls [loadRate]
    for every player it enhances while no override is set.  A player
    added after another player has saved the rate 2 reads the storage
    again (two reads in all) and starts at 2, while the rate loaded at
    startup was 1.  The second revision reads once, into [INITIAL_RATE],
    and starts the added player at 1 ([persisted_rate_read]). *)
Lemma Rev1_init_reads_storage_again :
  let pg := page_of None [plain_player (Fin 1)] in
  let pg' := run Rev1 [SpeedClick 0 3; NewPlayer (plain_player (Fin 3))] (startup Rev1 pg) in
  (loadRate pg).1 = Fin 1 /\
  GLOBAL_RATE pg' = None /\
  reads pg' = 2 /\
  rate_at 1 pg' = Some (Fin 2).
Proof. vm_compute. repeat split; reflexivity. Qed.

(** The text "99" typed into the rate field brings the player to rate
    16 and stores "16". *)
Lemma setRate_applies_and_saves_witness :
  let pg := handle Rev1 (UserTypes 0 "99") (one_player Rev1) in
  let pg' := handle Rev1 (InputEvent 0) pg in
  rate_at 0 pg' = Some (Fin 16) /\ stored pg' = Some "16" /\ writes pg' = "16" :: writes pg.
Proof.
  intros pg pg'.
  pose (pl := default silent_player (players pg !! 0)).
  assert (H1 : players pg !! 0 = Some pl) by (vm_compute; reflexivity).
  assert (H2 : tmEnhanced pl = true) by (vm_compute; reflexivity).
  assert (H3 : audio pl = Some (plain_audio (Fin 1))) by (vm_compute; reflexivity).
  assert (H4 : local_request pg 0 (InputEvent 0) (Fin 99)).
  { right. split; [reflexivity|]. exists pl. split; [exact H1|].
    split; vm_compute; reflexivity. }
  assert (H5 : supportsRate (clamp (Fin 99) MIN_RATE MAX_RATE) = true) by reflexivity.
  destruct (setRate_applies_and_saves Rev1 pg 0 pl (plain_audio (Fin 1)) (InputEvent 0)
              (Fin 99) H1 H2 H3 H4 H5) as (Hset & _).
  exact Hset.
Defined.

(** The speed button 2 brings the player to rate 2 and stores "2". *)
Example speed_button_sample :
  let pg' := handle Rev2 (SpeedClick 0 3) (one_player Rev2) in
  rate_at 0 pg' = Some (Fin 2) /\ stored pg' = Some "2" /\ writes pg' = ["2"].
Proof. vm_compute. repeat split; reflexivity. Qed.

Example number_field_samples :
  map valid_floating_point_number
    ["abc"; ""; "1"; "-1.5"; ".5"; "5."; "+5"; " 5"; "12abc"; "1e2"; "1E-2"; "1e"; "1e999";
     "Infinity"; "NaN"; "-"; "."]
  = [false; false; true; true; true; false; false; false; false; true; true; false; true;
     false; false; false; false] /\
  map number_value ["abc"; "99"; "0.01"; "1e999"; "Infinity"; "12abc"]
  = [""; "99"; "0.01"; ""; ""; ""].
Proof. vm_compute. split; reflexivity. Qed.

(** The text "abc" in the rate field is ignored. *)
Lemma malformed_input_ignored_witness :
  let typed := handle Rev1 (UserTypes 0 "abc") (one_player Rev1) in
  let after := handle Rev1 (InputEvent 0) typed in
  after = typed /\
  rate_at 0 after = rate_at 0 (one_player Rev1) /\
  stored after = stored (one_player Rev1) /\ writes after = writes (one_player Rev1).
Proof.
  intros typed after.
  pose (pl := default silent_player (players (one_player Rev1) !! 0)).
  assert (H1 : players (one_player Rev1) !! 0 = Some pl) by (vm_compute; reflexivity).
  assert (H2 : tmEnhanced pl = true) by (vm_compute; reflexivity).
  assert (H3 : audio pl = Some (plain_audio (Fin 1))) by (vm_compute; reflexivity).
  destruct (malformed_input_ignored Rev1 (one_player Rev1) 0 pl (plain_audio (Fin 1)) "abc"
              H1 H2 H3) as (Hbad & _).
  apply Hbad. left. reflexivity.
Defined.

(** The texts "abc" and "1e999" leave the player at rate 1 and write
    nothing; "99" brings it to rate 16 and stores "16"; "0.01" brings it
    to rate 0.1. *)
Example input_samples :
  let after text :=
    run Rev1 [UserTypes 0 text; InputEvent 0] (one_player Rev1) in
  map (fun text => (rate_at 0 (after text), writes (after text)))
    ["abc"; "1e999"; "99"; "0.01"; "2.5"]
  = [(Some (Fin 1), []); (Some (Fin 1), []); (Some (Fin 16), ["16"]);
     (Some (Fin (1 # 10)), ["0.1"]); (Some (Fin (5 # 2)), ["2.5"])].
Proof. vm_compute. reflexivity. Qed.

(** Players A, B, C at rates 1, 1 and 2; A applies its rate to all; then
    C picks the speed 4 and a player D is added. *)
Lemma broadcast_sets_override_and_rates_witness :
  let pg := run Rev1 [SpeedClick 2 3]
              (startup Rev1 (page_of None [plain_player (Fin 1); plain_player (Fin 1);
                                           plain_player (Fin 1)])) in
  let pg' := handle Rev1 (ApplyAllClick 0) pg in
  let pg'' := run Rev1 [SpeedClick 2 5] pg' in
  rate_at 2 pg = Some (Fin 2) /\
  rate_at 1 pg' = Some (Fin 1) /\ rate_at 2 pg' = Some (Fin 1) /\
  stored pg'' = Some "4" /\
  rate_at 3 (handle Rev1 (NewPlayer (plain_player (Fin 3))) pg'') = Some (Fin 1).
Proof.
  intros pg pg' pg''.
  pose (src := default (plain_player NaN) (players pg !! 0)).
  destruct (broadcast_sets_override_and_rates Rev1 pg 0 src (plain_audio (Fin 1)) (Fin 1)
              [SpeedClick 2 5] (plain_player (Fin 3)) (plain_audio (Fin 3)))
    as (_ & _ & _ & Hothers & _ & Hnew);
    try (vm_compute; reflexivity).
  { repeat constructor. }
  split; [vm_compute; reflexivity|].
  split; [eapply (Hothers 1); [discriminate | vm_compute; reflexivity | reflexivity]|].
  split; [eapply (Hothers 2); [discriminate | vm_compute; reflexivity | reflexivity]|].
  split; [vm_compute; reflexivity | exact Hnew].
Defined.

End RateProofs.

(** ** Reverse playback *)

Module ReverseProofs.
Import Reverse.
Local Open Scope Q_scope.
Local Arguments num_gtb : simpl never.
Local Arguments stopReverse : simpl never.

(** *** The remainder and the position function *)

Lemma Qtrunc_bound (t : Q) :
  inject_Z (Qtrunc t) - 1 < t /\ t < inject_Z (Qtrunc t) + 1.
Proof.
  destruct t as [n d]. unfold Qtrunc, Qlt. simpl.
  pose proof (Z.quot_rem' n (Zpos d)) as Hqr.
  pose proof (Z.rem_bound_abs n (Zpos d) ltac:(discriminate)) as Hb.
  split; nia.
Qed.

(** For a positive divisor the remainder lies strictly between the
    divisor and its opposite. *)
Lemma Qrem_bound (x y : Q) : 0 < y -> - y < Qrem x y /\ Qrem x y < y.
Proof.
  intros Hy. unfold Qrem.
  destruct (Qtrunc_bound (x / y)) as [Hlo Hhi].
  set (z := inject_Z (Qtrunc (x / y))) in *.
  assert (Hx : x == y * (x / y)).
  { symmetry. apply Qmult_div_r. intros E. rewrite E in Hy. discriminate Hy. }
  assert (H1 : y * (z - 1) < y * (x / y)) by (apply Qmult_lt_l; assumption).
  assert (H2 : y * (x / y) < y * (z + 1)) by (apply Qmult_lt_l; assumption).
  rewrite <- Hx in H1, H2. split; lra.
Qed.

Lemma Qsgn_pos (y : Q) : 0 < y -> exists p, Qsgn y = Zpos p.
Proof.
  destruct y as [n d]. unfold Qlt, Qsgn. simpl. intros Hy.
  destruct n as [|p|p]; try lia. exists 1%positive. reflexivity.
Qed.

Lemma num_rem_Fin (x y : Q) : 0 < y -> num_rem (Fin x) (Fin y) = Fin (Qrem x y).
Proof.
  intros Hy. simpl. destruct (Qsgn_pos y Hy) as [p ->]. reflexivity.
Qed.

(** C2, as the code has it.  While a looping session plays, the position
    computed by the step function is a number of the interval
    [(0, duration]]: a cycle time of 0 is mapped to the duration, not
    to 0.  This holds for every start offset and every elapsed time, in
    particular for an offset in [[0, D]] and an elapsed time that is not
    negative. *)
Theorem looping_position_range (s e D : Q) :
  0 < D ->
  exists T, position true (Fin s) (Fin e) (Fin D) = Fin T /\ 0 < T /\ T <= D.
Proof.
  intros HD. unfold position. cbv zeta.
  change (num_sub (Fin s) (Fin e)) with (Fin (s + - e)).
  rewrite !(num_rem_Fin _ _ HD).
  destruct (Qrem_bound (s + - e) D HD) as [Hlo Hhi].
  set (c := Qrem (s + - e) D) in *.
  destruct (num_leb (Fin c) (Fin 0)) eqn:Ec.
  - apply num_leb_Fin in Ec. exists (c + D). split; [reflexivity|]. split; lra.
  - exists c. split; [reflexivity|].
    simpl in Ec. apply not_true_iff_false in Ec. rewrite Qle_bool_iff in Ec.
    apply Qnot_le_lt in Ec. split; lra.
Qed.

(** *** What [stopReverse] leaves alone *)

Lemma stopReverse_source (c : bool) (e : Engine) : reverseSource (stopReverse c e) = None.
Proof. unfold stopReverse, cancelAnimationFrame. split_matches. Qed.

Lemma stopReverse_buffer (c : bool) (e : Engine) :
  tmReverseBuffer (stopReverse c e) = tmReverseBuffer e.
Proof. unfold stopReverse, cancelAnimationFrame. split_matches. Qed.

Lemma stopReverse_ctx (c : bool) (e : Engine) : reverseCtx (stopReverse c e) = reverseCtx e.
Proof. unfold stopReverse, cancelAnimationFrame. split_matches. Qed.

Lemma stopReverse_awaiting (c : bool) (e : Engine) : awaiting (stopReverse c e) = awaiting e.
Proof. unfold stopReverse, cancelAnimationFrame. split_matches. Qed.

Lemma stopReverse_fetches (c : bool) (e : Engine) : fetches (stopReverse c e) = fetches e.
Proof. unfold stopReverse, cancelAnimationFrame. split_matches. Qed.

Lemma stopReverse_decodes (c : bool) (e : Engine) : decodes (stopReverse c e) = decodes e.
Proof. unfold stopReverse, cancelAnimationFrame. split_matches. Qed.

Lemma stopReverse_duration (c : bool) (e : Engine) :
  reverseDuration (stopReverse c e) = reverseDuration e.
Proof. unfold stopReverse, cancelAnimationFrame. split_matches. Qed.

Lemma stopReverse_false_audio (e : Engine) : audio (stopReverse false e) = audio e.
Proof. unfold stopReverse, cancelAnimationFrame. split_matches. Qed.


(** *** Starting a session *)

Lemma num_or_finite (k : Q) : isFinite (num_or (Fin k) (Fin 1)) = true.
Proof. unfold num_or. destruct (truthy (Fin k)); reflexivity. Qed.

Lemma start_offset_le (t d : Q) : t <= d -> start_offset t d <= d.
Proof. intros Ht. unfold start_offset. destruct (Qltb 0 t); [exact Ht | apply Qle_refl]. Qed.

(** With a cached buffer of positive duration [d], a context, and the
    forward position [t <= d], the session starts: a new node plays and
    [reverseSource] refers to it; the anchor is the clock of the context
    and the start offset. *)
Lemma start_session_starts (e : Engine) (buf : AudioBuffer) (now : num) (d t k : Q) :
  tmReverseBuffer e = Some buf ->
  reverseCtx e = Some now ->
  duration buf = Fin d ->
  currentTime (audio e) = Fin t ->
  t <= d ->
  playbackRate (audio e) = Fin k ->
  let e' := start_session e in
  reverseSource e' = Some (length (nodes e)) /\
  (exists n, nodes e' = (nodes e ++ [n])%list /\ node_playing n = true) /\
  reverseStartOffset e' = Fin (start_offset t d) /\
  reverseDuration e' = Fin d /\
  reverseStartCtxTime e' = now /\
  reverseCtx e' = Some now /\
  audio e' = audio e /\
  tmReverseBuffer e' = Some buf /\
  awaiting e' = awaiting e /\ fetches e' = fetches e /\ decodes e' = decodes e.
Proof.
  intros Hb Hc Hd Ht Hle Hk e'. unfold e', start_session.
  rewrite Hb, Hc, Hd, Ht, Hk.
  assert (Hacc : start_accepts (num_or (Fin k) (Fin 1))
                   (num_sub (Fin d) (if num_gtb (Fin t) (Fin 0) then Fin t else Fin d))
                 = true).
  { unfold start_accepts. rewrite num_or_finite. pose proof (start_offset_le t d Hle) as Hs.
    unfold start_offset in Hs. unfold num_gtb. simpl num_ltb.
    destruct (Qltb 0 t); simpl; apply Qle_bool_iff; lra. }
  rewrite Hacc.
  assert (Hs : (if num_gtb (Fin t) (Fin 0) then Fin t else Fin d) = Fin (start_offset t d)).
  { unfold start_offset, num_gtb. simpl. destruct (Qltb 0 t); reflexivity. }
  rewrite Hs.
  destruct (indicator e) as [tr|] eqn:Ei; destruct (indicatorContainer e) as [w|] eqn:Ew;
    simpl; rewrite ?Ei, ?Ew; simpl;
    repeat split; try reflexivity; try assumption; eexists; split; reflexivity.
Qed.

(** *** A stop while the decode is pending *)

Lemma run_event (ev : event) (evs : list event) (e : Engine) :
  run (ev :: evs) e = run evs (handle ev e).
Proof. reflexivity. Qed.

Lemma run_app (evs1 evs2 : list event) (e : Engine) :
  run (evs1 ++ evs2) e = run evs2 (run evs1 e).
Proof. apply foldl_app. Qed.

Lemma click_suspends (e : Engine) (k p : Q) :
  reverseSource e = None ->
  tmReverseBuffer e = None ->
  awaiting e = 0%nat ->
  playbackRate (audio e) = Fin k ->
  currentTime (audio e) = Fin p ->
  pending_one k p (click e) /\ fetches (click e) = S (fetches e).
Proof.
  intros Hs Hb Ha Hk Hp. unfold click. rewrite Hs.
  set (e1 := stopReverse false _).
  assert (H1 : reverseSource e1 = None) by apply stopReverse_source.
  assert (H2 : tmReverseBuffer e1 = None) by (unfold e1; rewrite stopReverse_buffer; exact Hb).
  assert (H3 : awaiting e1 = 0%nat) by (unfold e1; rewrite stopReverse_awaiting; exact Ha).
  assert (H4 : audio e1 = set_paused true (audio e)) by apply stopReverse_false_audio.
  assert (H5 : fetches e1 = fetches e) by (unfold e1; rewrite stopReverse_fetches; reflexivity).
  clearbody e1. unfold pending_one.
  destruct (reverseCtx e1) as [now|] eqn:Ec; simpl; rewrite H2; simpl;
    rewrite ?H1, ?H2, ?H3, ?H4, ?H5, ?Ec; simpl;
    (split; [|reflexivity]); repeat split; eauto.
Qed.

Lemma terminating_keeps_pending (ev : event) (e : Engine) (k p : Q) :
  terminating ev || is_tick ev = true -> pending_one k p e -> pending_one k p (handle ev e).
Proof.
  intros Ht (Hs & Hb & Ha & Hc & Hk & Hp).
  assert (Hstop : pending_one k p (stopReverse false e)).
  { unfold pending_one.
    rewrite stopReverse_source, stopReverse_buffer, stopReverse_awaiting,
      stopReverse_ctx, stopReverse_false_audio. repeat split; assumption. }
  destruct ev; try discriminate Ht; cbn [handle]; try exact Hstop.
  - unfold stopLocal_click. generalize dependent (stopReverse false e).
    intros e1 (Hs' & Hb' & Ha' & Hc' & Hk' & _).
    unfold pending_one. simpl. repeat split; try assumption. right. reflexivity.
  - destruct Hc as [now Hc]. rewrite Hc.
    destruct (Qle_bool 0 dt); unfold pending_one; simpl; rewrite ?Hc;
      repeat split; eauto.
Qed.

Lemma terminating_run_keeps_pending (ts : list event) (e : Engine) (k p : Q) :
  Forall (fun ev => terminating ev || is_tick ev = true) ts ->
  pending_one k p e -> pending_one k p (run ts e).
Proof.
  intros Hts. revert e. induction Hts as [|ev ts Hev _ IH]; intros e He; [exact He|].
  rewrite run_event. apply IH, terminating_keeps_pending; assumption.
Qed.

(** A click on the reverse button of a player with nothing cached
    suspends at the fetch.  Whatever stop, local
    stop or forward play events come, as time passes, before the decode
    completes, the handler resumes as if nothing had happened: the
    reversed buffer is cached and a session starts (a node plays,
    [reverseSource] refers to it).  A second click in that interval is
    not a toggle-off, no session existing yet. *)
Theorem decode_after_stop_starts_session
    (e : Engine) (ts : list event) (raw : AudioBuffer) (d p k : Q) :
  reverseSource e = None ->
  tmReverseBuffer e = None ->
  awaiting e = 0%nat ->
  playbackRate (audio e) = Fin k ->
  currentTime (audio e) = Fin p ->
  Forall (fun ev => terminating ev || is_tick ev = true) ts ->
  duration raw = Fin d ->
  0 < d ->
  p <= d ->
  let e' := run (ReverseClick :: ts ++ [Decoded raw]) e in
  tmReverseBuffer e' = Some (reverse_channels raw) /\
  exists id n, reverseSource e' = Some id /\ nodes e' !! id = Some n /\
               node_playing n = true.
Proof.
  intros Hs Hb Ha Hk Hp Hts Hd Hpos Hle e'.
  destruct (click_suspends e k p Hs Hb Ha Hk Hp) as [Hpend _].
  pose proof (terminating_run_keeps_pending ts _ k p Hts Hpend) as Hpend'.
  unfold e'. rewrite run_event, run_app. simpl handle.
  set (e1 := run ts (click e)) in *. simpl. unfold decoded.
  destruct Hpend' as (Hs1 & Hb1 & Ha1 & [now Hc1] & Hk1 & Hp1).
  rewrite Ha1.
  set (e2 := set_tmReverseBuffer _ _).
  assert (Ht : exists t, currentTime (audio e2) = Fin t /\ t <= d).
  { destruct Hp1 as [Hp1 | Hp1]; [exists p | exists 0]; (split; [exact Hp1|]); lra. }
  destruct Ht as (t & Ht & Htd).
  destruct (start_session_starts e2 (reverse_channels raw) now d t k
              eq_refl Hc1 Hd Ht Htd Hk1)
    as (Hsrc & (n & Hn & Hplay) & _ & _ & _ & _ & _ & Hbuf & _).
  split; [exact Hbuf|].
  exists (length (nodes e2)), n. split; [exact Hsrc|]. split; [|exact Hplay].
  rewrite Hn. apply list_lookup_middle. reflexivity.
Qed.

(** *** Toggling on, then off *)

Lemma stopReverse_commit (e : Engine) (now : num) :
  reverseCtx e = Some now ->
  num_gtb (reverseDuration e) (Fin 0) = true ->
  audio (stopReverse true e)
  = set_currentTime
      (Math_max (Fin 0)
         (num_sub (reverseStartOffset e)
            (num_mul (num_sub now (reverseStartCtxTime e))
               (num_or (playbackRate (audio e)) (Fin 1)))))
      (audio e).
Proof.
  intros Hc Hd. unfold stopReverse, cancelAnimationFrame.
  destruct (reverseSource e); simpl;
    destruct (reverseRAF e); simpl;
    destruct (indicator e); simpl;
    rewrite Hc; simpl; rewrite Hd; reflexivity.
Qed.

(** The state once reverse has been toggled on. *)
Lemma toggle_on_anchors (e : Engine) (raw : AudioBuffer) (d p k : Q) :
  reverseSource e = None ->
  awaiting e = 0%nat ->
  (forall now, reverseCtx e = Some now -> isFinite now = true) ->
  duration (session_buffer raw e) = Fin d ->
  currentTime (audio e) = Fin p ->
  p <= d ->
  playbackRate (audio e) = Fin k ->
  let e1 := run (toggle_on raw e) e in
  exists id c,
    reverseSource e1 = Some id /\
    reverseCtx e1 = Some (Fin c) /\
    reverseStartCtxTime e1 = Fin c /\
    reverseStartOffset e1 = Fin (start_offset p d) /\
    reverseDuration e1 = Fin d /\
    audio e1 = set_paused true (audio e).
Proof.
  intros Hs Ha Hfin Hd Hp Hle Hk e1.
  set (e0 := stopReverse false (set_audio (set_paused true (audio e)) e)).
  assert (H0 : reverseSource e0 = None /\ tmReverseBuffer e0 = tmReverseBuffer e /\
               awaiting e0 = 0%nat /\ audio e0 = set_paused true (audio e) /\
               reverseCtx e0 = reverseCtx e).
  { unfold e0. rewrite stopReverse_source, stopReverse_buffer, stopReverse_awaiting,
      stopReverse_false_audio, stopReverse_ctx. repeat split; assumption. }
  destruct H0 as (Hs0 & Hb0 & Ha0 & Hau0 & Hc0).
  set (e2 := match reverseCtx e0 with
             | Some _ => e0
             | None => set_reverseCtx (Some (Fin 0)) e0
             end).
  assert (H2 : exists c, reverseCtx e2 = Some (Fin c) /\
               tmReverseBuffer e2 = tmReverseBuffer e /\ awaiting e2 = 0%nat /\
               audio e2 = set_paused true (audio e)).
  { unfold e2. destruct (reverseCtx e0) as [now|] eqn:Ec.
    - pose proof (Hfin now (eq_sym Hc0)) as Hf.
      destruct now as [| |c|]; try discriminate Hf. exists c.
      repeat split; assumption.
    - exists 0. simpl. repeat split; assumption. }
  destruct H2 as (c & Hc2 & Hb2 & Ha2 & Hau2).
  assert (Hclick : click e = match tmReverseBuffer e2 with
                             | Some _ => start_session e2
                             | None => set_fetches (S (fetches e2))
                                         (set_awaiting (S (awaiting e2)) e2)
                             end).
  { unfold click. rewrite Hs. reflexivity. }
  clearbody e2. clear e0 Hs0 Hb0 Ha0 Hau0 Hc0.
  assert (Hstart : forall e3 buf,
             tmReverseBuffer e3 = Some buf -> duration buf = Fin d ->
             reverseCtx e3 = Some (Fin c) -> audio e3 = set_paused true (audio e) ->
             exists id,
               reverseSource (start_session e3) = Some id /\
               reverseCtx (start_session e3) = Some (Fin c) /\
               reverseStartCtxTime (start_session e3) = Fin c /\
               reverseStartOffset (start_session e3) = Fin (start_offset p d) /\
               reverseDuration (start_session e3) = Fin d /\
               audio (start_session e3) = set_paused true (audio e)).
  { intros e3 buf Hb3 Hd3 Hc3 Hau3.
    destruct (start_session_starts e3 buf (Fin c) d p k Hb3 Hc3 Hd3)
      as (H1 & _ & H3 & H4 & H5 & H6 & H7 & _);
      try (rewrite Hau3; simpl; assumption); try assumption.
    exists (length (nodes e3)). rewrite H7. repeat split; assumption. }
  unfold e1, toggle_on, session_buffer in *. rewrite Hb2 in Hclick.
  destruct (tmReverseBuffer e) as [buf|] eqn:Eb.
  - destruct (Hstart e2 buf Hb2 Hd Hc2 Hau2) as (id & Hres).
    exists id, c. simpl. rewrite Hclick. exact Hres.
  - simpl. rewrite Hclick. unfold decoded. simpl. rewrite Ha2.
    match goal with |- context [start_session ?x] => set (e3 := x) end.
    destruct (Hstart e3 (reverse_channels raw) eq_refl Hd Hc2 Hau2) as (id & Hres).
    exists id, c. exact Hres.
Qed.

Lemma num_or_Fin (k : Q) : num_or (Fin k) (Fin 1) = Fin (rate_or_1 k).
Proof.
  unfold num_or, rate_or_1. simpl. destruct (Qeq_bool k 0); reflexivity.
Qed.

Lemma start_offset_pos (p d : Q) : 0 < d -> 0 < start_offset p d.
Proof.
  intros Hd. unfold start_offset. destruct (Qltb 0 p) eqn:E; [apply Qltb_lt, E | exact Hd].
Qed.

Lemma click_toggles_off (e : Engine) (id : nat) :
  reverseSource e = Some id ->
  click e = set_audio (set_paused false (audio (stopReverse true e))) (stopReverse true e).
Proof. intros Hs. unfold click. rewrite Hs. reflexivity. Qed.

Lemma tick_advances (e : Engine) (c dt : Q) :
  reverseCtx e = Some (Fin c) ->
  0 <= dt ->
  handle (Tick dt) e = set_reverseCtx (Some (Fin (c + dt))) e.
Proof.
  intros Hc Hdt. simpl. rewrite Hc. apply Qle_bool_iff in Hdt. rewrite Hdt. reflexivity.
Qed.

(** The forward position a toggle-off commits, for a session anchored at
    clock [c0] and offset [s] when the clock shows [c1]. *)
Lemma toggle_off_position (e : Engine) (id : nat) (c0 c1 s d k : Q) :
  reverseSource e = Some id ->
  reverseCtx e = Some (Fin c1) ->
  reverseStartCtxTime e = Fin c0 ->
  reverseStartOffset e = Fin s ->
  reverseDuration e = Fin d ->
  0 < d ->
  playbackRate (audio e) = Fin k ->
  num_eq (currentTime (audio (click e))) (Fin (Qmax 0 (s - (c1 - c0) * rate_or_1 k))) /\
  paused (audio (click e)) = false /\
  reverseSource (click e) = None.
Proof.
  intros Hs Hc Ha Ho Hd Hpos Hk. rewrite (click_toggles_off e id Hs).
  change (num_eq (currentTime (audio (stopReverse true e)))
            (Fin (Qmax 0 (s - (c1 - c0) * rate_or_1 k))) /\
          false = false /\ reverseSource (stopReverse true e) = None).
  split; [|split; [reflexivity | apply stopReverse_source]].
  rewrite (stopReverse_commit e (Fin c1) Hc).
  2:{ rewrite Hd. apply Qltb_lt, Hpos. }
  rewrite Ha, Ho, Hk, num_or_Fin. simpl. unfold Math_max. simpl.
  set (x := s + - ((c1 + - c0) * rate_or_1 k)).
  assert (Hx : x == s - (c1 - c0) * rate_or_1 k) by (unfold x; ring).
  destruct (Qltb x 0) eqn:E; simpl.
  - apply Qltb_lt in E. rewrite Q.max_l; [reflexivity | lra].
  - apply Qltb_ge in E. rewrite Q.max_r; [exact Hx | lra].
Qed.

(** C8.  Reverse is toggled on at forward position [p] (the session
    starts from [p], or from the duration when [p] is 0) and, the clock
    of the context having advanced by [dt] and the rate not having
    changed, toggled off: the forward position is then the start offset
    minus [dt] times the rate, or 0 when that is negative, and forward
    playback resumes.  Toggled off at once, the position is the start
    offset itself. *)
Theorem reverse_round_trip (e : Engine) (raw : AudioBuffer) (d p k dt : Q) :
  reverseSource e = None ->
  awaiting e = 0%nat ->
  (forall now, reverseCtx e = Some now -> isFinite now = true) ->
  duration (session_buffer raw e) = Fin d ->
  0 < d ->
  currentTime (audio e) = Fin p ->
  p <= d ->
  playbackRate (audio e) = Fin k ->
  0 <= dt ->
  let later := run (toggle_on raw e ++ [Tick dt; ReverseClick]) e in
  let at_once := run (toggle_on raw e ++ [ReverseClick]) e in
  num_eq (currentTime (audio later))
    (Fin (Qmax 0 (start_offset p d - dt * rate_or_1 k))) /\
  paused (audio later) = false /\
  reverseSource later = None /\
  num_eq (currentTime (audio at_once)) (Fin (start_offset p d)).
Proof.
  intros Hs Ha Hfin Hd Hpos Hp Hle Hk Hdt later at_once.
  destruct (toggle_on_anchors e raw d p k Hs Ha Hfin Hd Hp Hle Hk)
    as (id & c & Hsrc & Hctx & Hanchor & Hoff & Hdur & Haud).
  unfold later, at_once. rewrite !run_app.
  set (e1 := run (toggle_on raw e) e) in *. clearbody e1.
  assert (Hk1 : playbackRate (audio e1) = Fin k) by (rewrite Haud; exact Hk).
  pose proof (start_offset_pos p d Hpos) as Hspos.
  change (run [Tick dt; ReverseClick] e1) with (click (handle (Tick dt) e1)).
  change (run [ReverseClick] e1) with (click e1).
  rewrite (tick_advances e1 c dt Hctx Hdt).
  destruct (toggle_off_position (set_reverseCtx (Some (Fin (c + dt))) e1) id c (c + dt)
              (start_offset p d) d k Hsrc eq_refl Hanchor Hoff Hdur Hpos Hk1)
    as (Hlater & Hplay & Hnone).
  destruct (toggle_off_position e1 id c c (start_offset p d) d k
              Hsrc Hctx Hanchor Hoff Hdur Hpos Hk1) as (Honce & _ & _).
  split; [|split; [exact Hplay | split; [exact Hnone|]]].
  - destruct (currentTime (audio (click (set_reverseCtx (Some (Fin (c + dt))) e1))));
      simpl in *; try contradiction.
    rewrite Hlater. apply Q.max_compat; [reflexivity | ring].
  - destruct (currentTime (audio (click e1))); simpl in *; try contradiction.
    rewrite Honce. rewrite Q.max_r; [ring | lra].
Qed.

(** *** The context exists once a duration is known *)

Lemma start_session_ctx (e : Engine) : reverseCtx (start_session e) = reverseCtx e.
Proof.
  unfold start_session, requestAnimationFrame. cbv zeta.
  destruct (tmReverseBuffer e); [|reflexivity].
  destruct (reverseCtx e) eqn:Ec; [|congruence].
  destruct (start_accepts _ _).
  - simpl. destruct (indicator e); [destruct (indicatorContainer e)|]; simpl; exact Ec.
  - rewrite stopReverse_ctx. simpl. exact Ec.
Qed.

Lemma start_session_duration (e : Engine) :
  reverseCtx e = None -> reverseDuration (start_session e) = reverseDuration e.
Proof.
  intros Ec. unfold start_session. rewrite Ec. destruct (tmReverseBuffer e); reflexivity.
Qed.

Lemma step_ctx (w : num) (e : Engine) : reverseCtx (step w e) = reverseCtx e.
Proof.
  unfold step, requestAnimationFrame. cbv zeta.
  destruct (reverseSource e); [|reflexivity].
  destruct (reverseCtx e) eqn:Ec; [|congruence].
  match goal with |- context [if ?b then _ else _] => destruct b end.
  - rewrite stopReverse_ctx. simpl. exact Ec.
  - simpl. exact Ec.
Qed.

Lemma step_duration (w : num) (e : Engine) : reverseDuration (step w e) = reverseDuration e.
Proof.
  unfold step, requestAnimationFrame. cbv zeta.
  destruct (reverseSource e); [|reflexivity].
  destruct (reverseCtx e) eqn:Ec; [|reflexivity].
  match goal with |- context [if ?b then _ else _] => destruct b end.
  - rewrite stopReverse_duration. reflexivity.
  - reflexivity.
Qed.

(** The invariant: there is a context, or no duration was ever set. *)
Lemma handle_keeps_context (ev : event) (e : Engine) :
  is_Some (reverseCtx e) \/ reverseDuration e = Fin 0 ->
  is_Some (reverseCtx (handle ev e)) \/ reverseDuration (handle ev e) = Fin 0.
Proof.
  intros Hinv.
  assert (Hstop : forall c e0, is_Some (reverseCtx e0) \/ reverseDuration e0 = Fin 0 ->
            is_Some (reverseCtx (stopReverse c e0)) \/
            reverseDuration (stopReverse c e0) = Fin 0).
  { intros c e0 H0. rewrite stopReverse_ctx, stopReverse_duration. exact H0. }
  destruct ev; cbn [handle]; try (apply Hstop; exact Hinv).
  - unfold click. destruct (reverseSource e).
    + exact (Hstop true e Hinv).
    + left. set (e1 := stopReverse false _).
      set (e2 := match reverseCtx e1 with
                 | Some _ => e1
                 | None => set_reverseCtx (Some (Fin 0)) e1
                 end).
      assert (H2 : is_Some (reverseCtx e2)).
      { unfold e2. destruct (reverseCtx e1) eqn:Ec; [rewrite Ec|]; simpl; eauto. }
      destruct (tmReverseBuffer e2); [rewrite start_session_ctx|]; exact H2.
  - unfold decoded. destruct (awaiting e); [exact Hinv|].
    rewrite start_session_ctx. simpl.
    destruct (reverseCtx e) eqn:Ec; [left; eauto|].
    right. rewrite start_session_duration by exact Ec. simpl.
    destruct Hinv as [[? Hc] | Hd]; [discriminate Hc | exact Hd].
  - unfold decode_failed. destruct (awaiting e); [exact Hinv|]. apply Hstop. exact Hinv.
  - unfold on_ratechange. destruct (reverseSource e); exact Hinv.
  - destruct (list_find _ _) as [[? [? w]]|]; [|exact Hinv].
    rewrite step_ctx, step_duration. exact Hinv.
  - destruct (nodes e !! id); [|exact Hinv].
    destruct (node_onended _); [apply Hstop|]; exact Hinv.
  - destruct (reverseCtx e) eqn:Ec; [|rewrite Ec; exact Hinv].
    destruct (Qle_bool 0 dt); simpl; [|rewrite Ec]; eauto.
  - exact Hinv.
Qed.

Lemma run_keeps_context (evs : list event) (e : Engine) :
  is_Some (reverseCtx e) \/ reverseDuration e = Fin 0 ->
  is_Some (reverseCtx (run evs e)) \/ reverseDuration (run evs e) = Fin 0.
Proof.
  revert e. induction evs as [|ev evs IH]; intros e He; [exact He|].
  rewrite run_event. apply IH, handle_keeps_context, He.
Qed.

(** X16.  In every state a player reaches, a positive [reverseDuration]
    comes with a context: the test [&& reverseCtx] that only the first
    revision makes in [stopReverse] never decides. *)
Lemma positive_duration_has_context (a : Audio) (ind : bool) (w : num) (evs : list event) :
  let e := run evs (initial a ind w) in
  num_gtb (reverseDuration e) (Fin 0) = true -> is_Some (reverseCtx e).
Proof.
  intros e Hd.
  destruct (run_keeps_context evs (initial a ind w) (or_intror eq_refl)) as [Hc | H0];
    [exact Hc|].
  fold e in H0. rewrite H0 in Hd. discriminate Hd.
Qed.

(** *** The decode work of a player *)

Lemma stopReverse_decode_work (c : bool) (e : Engine) :
  decode_work (stopReverse c e) = decode_work e.
Proof.
  unfold decode_work.
  rewrite stopReverse_buffer, stopReverse_awaiting, stopReverse_fetches, stopReverse_decodes.
  reflexivity.
Qed.

Lemma start_session_decode_work (e : Engine) :
  decode_work (start_session e) = decode_work e.
Proof.
  unfold start_session, requestAnimationFrame. cbv zeta.
  destruct (tmReverseBuffer e) eqn:Eb; [|reflexivity].
  destruct (reverseCtx e); [|reflexivity].
  destruct (start_accepts _ _).
  - destruct (indicator _) eqn:Ei; [destruct (indicatorContainer _) eqn:Ew|];
      unfold decode_work; simpl; rewrite ?Ei, ?Ew; simpl; rewrite Eb; reflexivity.
  - rewrite stopReverse_decode_work. unfold decode_work. simpl. rewrite Eb. reflexivity.
Qed.

Lemma step_decode_work (w : num) (e : Engine) : decode_work (step w e) = decode_work e.
Proof.
  unfold step, requestAnimationFrame. cbv zeta.
  destruct (reverseSource e); [|reflexivity].
  destruct (reverseCtx e); [|reflexivity].
  match goal with |- context [if ?b then _ else _] => destruct b end.
  - rewrite stopReverse_decode_work. reflexivity.
  - reflexivity.
Qed.

(** With the buffer cached and no click suspended, no event fetches or
    decodes. *)
Lemma handle_cached_decode_work (ev : event) (e : Engine) (buf : AudioBuffer) :
  tmReverseBuffer e = Some buf ->
  awaiting e = 0%nat ->
  decode_work (handle ev e) = decode_work e.
Proof.
  intros Hb Ha. destruct ev; cbn [handle];
    try apply stopReverse_decode_work; try reflexivity.
  - unfold click. destruct (reverseSource e).
    + apply (stopReverse_decode_work true e).
    + set (e1 := stopReverse false _).
      assert (H1 : decode_work e1 = decode_work e)
        by (unfold e1; rewrite stopReverse_decode_work; reflexivity).
      set (e2 := match reverseCtx e1 with
                 | Some _ => e1
                 | None => set_reverseCtx (Some (Fin 0)) e1
                 end).
      assert (H2 : decode_work e2 = decode_work e)
        by (unfold e2; destruct (reverseCtx e1); [exact H1 | exact H1]).
      assert (Hb2 : tmReverseBuffer e2 = Some buf).
      { apply (f_equal (fun w => w.1.1.1)) in H2. simpl in H2. rewrite H2. exact Hb. }
      rewrite Hb2, start_session_decode_work. exact H2.
  - unfold decoded. rewrite Ha. reflexivity.
  - unfold decode_failed. rewrite Ha. reflexivity.
  - unfold on_ratechange. destruct (reverseSource e); reflexivity.
  - destruct (list_find _ _) as [[? [? w]]|]; [|reflexivity].
    rewrite step_decode_work. reflexivity.
  - destruct (nodes e !! id); [|reflexivity].
    destruct (node_onended _); [rewrite stopReverse_decode_work|]; reflexivity.
  - destruct (reverseCtx e); [|reflexivity]. destruct (Qle_bool 0 dt); reflexivity.
Qed.

Lemma run_cached_decode_work (evs : list event) (e : Engine) (buf : AudioBuffer) :
  tmReverseBuffer e = Some buf ->
  awaiting e = 0%nat ->
  decode_work (run evs e) = decode_work e.
Proof.
  revert e. induction evs as [|ev evs IH]; intros e Hb Ha; [reflexivity|].
  rewrite run_event.
  pose proof (handle_cached_decode_work ev e buf Hb Ha) as Hw.
  rewrite <- Hw. unfold decode_work in Hw. injection Hw as Hb' Ha' _ _.
  apply (IH _ (eq_trans Hb' Hb) (eq_trans Ha' Ha)).
Qed.

(** X15.  When the first decode completes before the next click, the
    source is fetched, decoded and reversed once, whatever comes
    afterwards. *)
Lemma sequential_toggles_decode_once (e : Engine) (raw : AudioBuffer) (evs : list event) :
  reverseSource e = None ->
  tmReverseBuffer e = None ->
  awaiting e = 0%nat ->
  let e' := run (ReverseClick :: Decoded raw :: evs) e in
  fetches e' = S (fetches e) /\ decodes e' = S (decodes e) /\
  tmReverseBuffer e' = Some (reverse_channels raw).
Proof.
  intros Hs Hb Ha e'. unfold e'. rewrite !run_event.
  set (e1 := handle ReverseClick e).
  assert (H1 : decode_work e1 = (None, 1%nat, S (fetches e), decodes e)).
  { unfold e1. cbn [handle]. unfold click. rewrite Hs.
    set (e0 := stopReverse false _).
    assert (H0 : decode_work e0 = decode_work e)
      by (unfold e0; rewrite stopReverse_decode_work; reflexivity).
    set (e2 := match reverseCtx e0 with
               | Some _ => e0
               | None => set_reverseCtx (Some (Fin 0)) e0
               end).
    assert (H2 : decode_work e2 = decode_work e)
      by (unfold e2; destruct (reverseCtx e0); [exact H0 | exact H0]).
    unfold decode_work in H2. injection H2 as Hb2 Ha2 Hf2 Hd2.
    rewrite Hb2, Hb. unfold decode_work. simpl. rewrite Hb2, Ha2, Hf2, Hd2, Hb, Ha.
    reflexivity. }
  unfold decode_work in H1. injection H1 as Hb1 Ha1 Hf1 Hd1.
  set (e2 := handle (Decoded raw) e1).
  assert (H2 : decode_work e2
               = (Some (reverse_channels raw), 0%nat, S (fetches e), S (decodes e))).
  { unfold e2. cbn [handle]. unfold decoded. rewrite Ha1, start_session_decode_work.
    unfold decode_work. simpl. rewrite Hf1, Hd1. reflexivity. }
  pose proof H2 as H2'. unfold decode_work in H2'. injection H2' as Hb2 Ha2 _ _.
  pose proof (run_cached_decode_work evs e2 _ Hb2 Ha2) as Hrun.
  rewrite H2 in Hrun. unfold decode_work in Hrun. injection Hrun as Hb3 _ Hf3 Hd3.
  repeat split; assumption.
Qed.

(** *** One session at a time *)

Lemma stopReverse_nodes (c : bool) (e : Engine) :
  nodes (stopReverse c e)
  = match reverseSource e with
    | Some id => alter node_stop id (nodes e)
    | None => nodes e
    end.
Proof. unfold stopReverse, cancelAnimationFrame. split_matches. Qed.

Lemma no_session_owns (e : Engine) : no_session e -> source_owns_live e.
Proof.
  intros [_ Hn] i n Hi Hp. rewrite (Hn i n Hi) in Hp. discriminate Hp.
Qed.

Lemma source_owns_single (e : Engine) : source_owns_live e -> single_session e.
Proof.
  intros Ho i j ni nj Hi Hpi Hj Hpj.
  pose proof (Ho i ni Hi Hpi) as H1. pose proof (Ho j nj Hj Hpj) as H2.
  rewrite H1 in H2. injection H2 as ->. reflexivity.
Qed.

(** [stopReverse] stops the only node that may be playing. *)
Lemma stopReverse_no_session (c : bool) (e : Engine) :
  source_owns_live e -> no_session (stopReverse c e).
Proof.
  intros Ho. split; [apply stopReverse_source|].
  intros i n. rewrite stopReverse_nodes.
  destruct (reverseSource e) as [id|] eqn:Es.
  - destruct (decide (id = i)) as [->|Hne].
    + rewrite list_lookup_alter_eq. destruct (nodes e !! i); [|discriminate].
      intros [= <-]. reflexivity.
    + rewrite list_lookup_alter_ne by exact Hne. intros Hi.
      destruct (node_playing n) eqn:Hp; [|reflexivity].
      pose proof (Ho i n Hi Hp) as Hs. rewrite Es in Hs. injection Hs as ->.
      contradiction.
  - intros Hi. destruct (node_playing n) eqn:Hp; [|reflexivity].
    pose proof (Ho i n Hi Hp) as Hs. rewrite Es in Hs. discriminate Hs.
Qed.

Lemma lookup_snoc_playing (l : list SourceNode) (x n : SourceNode) (i : nat) :
  (forall j m, l !! j = Some m -> node_playing m = false) ->
  (l ++ [x])%list !! i = Some n -> node_playing n = true -> i = length l /\ n = x.
Proof.
  intros Hl Hi Hp. destruct (decide (i < length l)%nat) as [Hlt|Hge].
  - rewrite lookup_app_l in Hi by exact Hlt. rewrite (Hl i n Hi) in Hp. discriminate Hp.
  - rewrite lookup_app_r in Hi by lia.
    destruct (i - length l)%nat as [|k] eqn:Ek; simpl in Hi; [|destruct k; discriminate Hi].
    injection Hi as <-. split; [lia | reflexivity].
Qed.

(** A session started while none runs is the only one. *)
Lemma start_session_owns (e : Engine) : no_session e -> source_owns_live (start_session e).
Proof.
  intros [Hs Hn]. unfold start_session. cbv zeta.
  destruct (tmReverseBuffer e) as [buf|]; [|apply no_session_owns; split; assumption].
  destruct (reverseCtx e) as [now|]; [|apply no_session_owns; split; assumption].
  destruct (start_accepts _ _).
  - assert (Ho : forall e2 x, nodes e2 = (nodes e ++ [x])%list ->
                   reverseSource e2 = Some (length (nodes e)) -> source_owns_live e2).
    { intros e2 x Hn2 Hs2 i n Hi Hp. rewrite Hn2 in Hi.
      destruct (lookup_snoc_playing _ _ _ _ Hn Hi Hp) as [-> _]. exact Hs2. }
    destruct (indicator _); [destruct (indicatorContainer _)|]; eapply Ho; reflexivity.
  - apply no_session_owns, stopReverse_no_session.
    intros i n Hi Hp. simpl in Hi.
    destruct (lookup_snoc_playing _ _ _ _ Hn Hi Hp) as [_ ->]. discriminate Hp.
Qed.

Lemma step_owns (w : num) (e : Engine) : source_owns_live e -> source_owns_live (step w e).
Proof.
  intros Ho. unfold step. cbv zeta.
  destruct (reverseSource e) as [id|] eqn:Es; [|exact Ho].
  destruct (reverseCtx e) as [now|]; [|exact Ho].
  match goal with |- context [if ?b then _ else _] => destruct b end.
  - apply no_session_owns, stopReverse_no_session. exact Ho.
  - exact Ho.
Qed.

(** With the buffer cached and no click suspended, every event keeps the
    playing node, if any, in [reverseSource]. *)
Lemma handle_cached_owns (ev : event) (e : Engine) (buf : AudioBuffer) :
  tmReverseBuffer e = Some buf ->
  awaiting e = 0%nat ->
  source_owns_live e ->
  source_owns_live (handle ev e).
Proof.
  intros Hb Ha Ho.
  assert (Hstop : forall c, source_owns_live (stopReverse c e))
    by (intros c; apply no_session_owns, stopReverse_no_session, Ho).
  destruct ev; cbn [handle]; try exact (Hstop _); try exact Ho.
  - unfold click. destruct (reverseSource e) eqn:Es; [exact (Hstop true)|].
    set (e1 := stopReverse false _).
    assert (H1 : no_session e1) by (apply stopReverse_no_session; exact Ho).
    assert (Hb1 : tmReverseBuffer e1 = Some buf)
      by (unfold e1; rewrite stopReverse_buffer; exact Hb).
    clearbody e1.
    destruct (reverseCtx e1); simpl; rewrite Hb1;
      apply start_session_owns; exact H1.
  - unfold decoded. rewrite Ha. exact Ho.
  - unfold decode_failed. rewrite Ha. exact Ho.
  - unfold on_ratechange. destruct (reverseSource e) as [id|] eqn:Es; [|exact Ho].
    intros i n. simpl. rewrite Es. intros Hi Hp.
    destruct (decide (id = i)) as [->|Hne]; [reflexivity|].
    rewrite list_lookup_alter_ne in Hi by exact Hne.
    rewrite <- Es. apply (Ho i n Hi Hp).
  - destruct (list_find _ _) as [[? [? w]]|]; [|exact Ho]. apply step_owns. exact Ho.
  - destruct (nodes e !! id) as [m|] eqn:Em; [|exact Ho].
    assert (Ho' : source_owns_live (set_nodes (alter node_stop id (nodes e)) e)).
    { intros i n. simpl. intros Hi Hp.
      destruct (decide (id = i)) as [->|Hne].
      - rewrite list_lookup_alter_eq in Hi. destruct (nodes e !! i); [|discriminate Hi].
        injection Hi as <-. discriminate Hp.
      - rewrite list_lookup_alter_ne in Hi by exact Hne. apply (Ho i n Hi Hp). }
    destruct (node_onended m); [|exact Ho'].
    apply no_session_owns, stopReverse_no_session, Ho'.
  - destruct (reverseCtx e); [|exact Ho]. destruct (Qle_bool 0 dt); exact Ho.
Qed.

(** X14.  Once the buffer is cached and while no click is suspended, at
    most one session is live, whatever happens. *)
Lemma cached_single_session (evs : list event) (e : Engine) (buf : AudioBuffer) :
  tmReverseBuffer e = Some buf ->
  awaiting e = 0%nat ->
  source_owns_live e ->
  single_session (run evs e).
Proof.
  intros Hb Ha Ho. apply source_owns_single.
  revert e Hb Ha Ho. induction evs as [|ev evs IH]; intros e Hb Ha Ho; [exact Ho|].
  rewrite run_event.
  pose proof (handle_cached_decode_work ev e buf Hb Ha) as Hw.
  unfold decode_work in Hw. injection Hw as Hb' Ha' _ _.
  apply (IH _ (eq_trans Hb' Hb) (eq_trans Ha' Ha)).
  apply (handle_cached_owns ev e buf Hb Ha Ho).
Qed.

(** *** On the sample player *)

Lemma looping_position_range_witness :
  exists T, position true (Fin 3) (Fin 5) (Fin 10) = Fin T /\ 0 < T /\ T <= 10.
Proof. apply (looping_position_range 3 5 10). reflexivity. Defined.

(** C2 fails when the cycle time is 0: started from the end of a buffer
    of ten seconds, at elapsed time 0, the position is 10, which is not
    below the duration. *)
Lemma looping_position_at_duration :
  ~ (exists T, position true (Fin 10) (Fin 0) (Fin 10) = Fin T /\ 0 <= T /\ T < 10).
Proof.
  intros (T & HT & _ & Hlt). vm_compute in HT. injection HT as <-.
  revert Hlt. apply Qle_not_lt. apply Qle_refl.
Qed.

Lemma decode_after_stop_starts_session_witness :
  let e := run (ReverseClick :: [Tick 1; StopClick; PlayEvent; Tick 2; StopLocalClick]
                  ++ [Decoded sample_buffer]) sample_engine in
  tmReverseBuffer e = Some (reverse_channels sample_buffer) /\
  exists id n, reverseSource e = Some id /\ nodes e !! id = Some n /\
               node_playing n = true.
Proof.
  apply (decode_after_stop_starts_session sample_engine
           [Tick 1; StopClick; PlayEvent; Tick 2; StopLocalClick] sample_buffer 10 0 1);
    try reflexivity.
  - repeat constructor.
  - unfold Qle. simpl. lia.
Defined.

(** C3 at a stop while the decode is pending.  The listeners of the stop
    button and of ['play'] call [stopReverse], and the click handler
    pauses the element before it starts a session; but the handler,
    once resumed after its awaits, starts the session without looking
    for a stop that came in between.  With the stop button pressed
    while the decode is pending, the buffer is cached and the session
    starts all the same.  With forward playback resumed in that
    interval, the session starts while the element plays forward: both
    are heard at once. *)
Lemma stop_before_decode_does_not_cancel :
  let e := run [ReverseClick; StopClick; Decoded sample_buffer] sample_engine in
  let f := run [ReverseClick; MediaChange sample_audio; PlayEvent; Decoded sample_buffer]
             sample_engine in
  tmReverseBuffer e = Some (reverse_channels sample_buffer) /\
  reverseSource e = Some 0%nat /\
  length (live e) = 1%nat /\
  paused (audio (handle ReverseClick sample_engine)) = true /\
  paused (audio f) = false /\
  length (live f) = 1%nat.
Proof. vm_compute. repeat split; reflexivity. Qed.

Lemma reverse_round_trip_witness :
  let later := run (toggle_on sample_buffer sample_engine ++ [Tick 4; ReverseClick])
                 sample_engine in
  let at_once := run (toggle_on sample_buffer sample_engine ++ [ReverseClick])
                   sample_engine in
  num_eq (currentTime (audio later)) (Fin (Qmax 0 (start_offset 0 10 - 4 * rate_or_1 1))) /\
  paused (audio later) = false /\
  reverseSource later = None /\
  num_eq (currentTime (audio at_once)) (Fin (start_offset 0 10)).
Proof.
  apply (reverse_round_trip sample_engine sample_buffer 10 0 1 4); try reflexivity.
  - intros now Hnow. discriminate Hnow.
  - unfold Qle. simpl. lia.
  - unfold Qle. simpl. lia.
Defined.

(** Started from the end of the ten seconds and toggled off four seconds
    later, forward playback resumes at second 6. *)
Example reverse_round_trip_sample :
  currentTime (audio (run [ReverseClick; Decoded sample_buffer; Tick 4; ReverseClick]
                        sample_engine)) = Fin 6.
Proof. vm_compute. reflexivity. Qed.

(** C4 at two overlapping toggle-on requests: both clicks suspend at the
    fetch, and each decode that completes starts a session without
    stopping the one before.  Two nodes play; [reverseSource] refers to
    the second only, so the stop button leaves the first one playing;
    the frame request of the first session is still pending too. *)
Theorem overlapping_toggles_two_live_sessions :
  let e := run [ReverseClick; ReverseClick; Decoded sample_buffer; Decoded sample_buffer]
             sample_engine in
  length (live e) = 2%nat /\
  reverseSource e = Some 1%nat /\
  length (frames e) = 2%nat /\
  length (live (handle StopClick e)) = 1%nat /\
  reverseSource (handle StopClick e) = None.
Proof. vm_compute. repeat split; reflexivity. Qed.

(** C5 at two overlapping toggle-on requests: the second click finds
    nothing cached yet, so the source is fetched, decoded and reversed
    twice. *)
Theorem overlapping_toggles_decode_twice :
  let e := run [ReverseClick; ReverseClick; Decoded sample_buffer; Decoded sample_buffer]
             sample_engine in
  fetches e = 2%nat /\ decodes e = 2%nat.
Proof. vm_compute. split; reflexivity. Qed.

End ReverseProofs.

(** ** More on rate control *)

Module RateMore.
Import Rate RateProofs.

(** X1.  [clamp] with the bounds of the script sends every number but
    NaN into [[0.1, 16]], the infinities included; NaN stays NaN; and
    clamping twice is clamping once. *)
Theorem clamp_reaches_range (v : num) :
  in_range (clamp v MIN_RATE MAX_RATE) = negb (is_NaN v) /\
  is_NaN (clamp v MIN_RATE MAX_RATE) = is_NaN v /\
  clamp (clamp v MIN_RATE MAX_RATE) MIN_RATE MAX_RATE = clamp v MIN_RATE MAX_RATE.
Proof.
  split; [|split; [|apply clamp_idempotent]].
  - destruct (is_NaN v) eqn:E.
    + destruct v; try discriminate E. reflexivity.
    + apply clamp_range, E.
  - destruct (is_NaN v) eqn:E.
    + destruct v; try discriminate E. reflexivity.
    + apply in_range_not_NaN, clamp_range, E.
Qed.

Section WithHost.
Context `{Host}.

Lemma setRate_other (rev : revision) (i j : nat) (v : num) (pg : Page) :
  i <> j -> players (setRate rev i v pg) !! j = players pg !! j.
Proof.
  intros Hne. destruct rev; simpl; apply list_lookup_alter_ne, Hne.
Qed.

(** X2.  A rate chosen on one player, by a speed button or through the
    rate field, stays on that player: every other player of the page is
    as it was, and so is the session override. *)
Theorem local_choice_stays_local (rev : revision) (pg : Page) (i j k : nat) :
  j <> i ->
  players (handle rev (SpeedClick i k) pg) !! j = players pg !! j /\
  players (handle rev (InputEvent i) pg) !! j = players pg !! j /\
  GLOBAL_RATE (handle rev (SpeedClick i k) pg) = GLOBAL_RATE pg /\
  GLOBAL_RATE (handle rev (InputEvent i) pg) = GLOBAL_RATE pg.
Proof.
  intros Hne. assert (Hne' : i <> j) by congruence.
  split; [|split; [|split; apply handle_GLOBAL_RATE; reflexivity]].
  - simpl. destruct (SPEEDS !! k); [|reflexivity].
    destruct (enhanced_at i pg); [|reflexivity]. apply setRate_other, Hne'.
  - simpl. destruct (enhanced_at i pg); [|reflexivity]. unfold handleInputEvent.
    destruct (players pg !! i); [|reflexivity].
    destruct (isFinite _); [|reflexivity]. apply setRate_other, Hne'.
Qed.

Lemma enhancePlayer_storage (rev : revision) (i : nat) (pg : Page) :
  stored (enhancePlayer rev i pg) = stored pg /\
  writes (enhancePlayer rev i pg) = writes pg.
Proof. unfold enhancePlayer, loadRate. split; split_matches. Qed.

Lemma handle_storage (rev : revision) (ev : event) (pg : Page) :
  writes_storage ev = false ->
  stored (handle rev ev pg) = stored pg /\ writes (handle rev ev pg) = writes pg.
Proof.
  intros Hw. destruct ev; try discriminate Hw; simpl;
    try (destruct (enhancePlayer_storage rev (length (players pg))
                     (with_players (players pg ++ [pl]) pg)) as [-> ->];
         split; reflexivity);
    unfold on_play; split; split_matches.
Qed.

(** X3.  Only a speed button, the rate field and the apply-to-all button
    write the storage.  Whatever else happens (play, rate change,
    metadata loaded, a rate set by the page, players added and enhanced),
    the stored item and the list of writes stay as they were. *)
Theorem only_rate_choices_write_storage (rev : revision) (evs : list event) (pg : Page) :
  Forall (fun ev => writes_storage ev = false) evs ->
  stored (run rev evs pg) = stored pg /\ writes (run rev evs pg) = writes pg.
Proof.
  intros Hevs. revert pg. induction Hevs as [|ev evs Hev _ IH]; intros pg;
    [split; reflexivity|].
  rewrite run_step. destruct (IH (handle rev ev pg)) as [-> ->].
  apply handle_storage, Hev.
Qed.

Lemma handle_keeps_override (rev : revision) (ev : event) (pg : Page) :
  is_Some (GLOBAL_RATE pg) -> is_Some (GLOBAL_RATE (handle rev ev pg)).
Proof.
  intros Hg. destruct (is_broadcast ev) eqn:Eb.
  - destruct ev; try discriminate Eb. simpl. unfold applyBtn_click.
    destruct (enhanced_at i pg); [|exact Hg].
    destruct (players pg !! i) as [src|]; [|exact Hg].
    destruct (audio src); [simpl; eauto | exact Hg].
  - rewrite (handle_GLOBAL_RATE rev ev pg Eb). exact Hg.
Qed.

(** X4.  The session override is never cleared: once an apply-to-all
    has set it, it is set after every run of events; and a run without
    an apply-to-all leaves it exactly as it was. *)
Theorem override_is_never_cleared (rev : revision) (evs : list event) (pg : Page) :
  (is_Some (GLOBAL_RATE pg) -> is_Some (GLOBAL_RATE (run rev evs pg))) /\
  (Forall (fun ev => is_broadcast ev = false) evs ->
   GLOBAL_RATE (run rev evs pg) = GLOBAL_RATE pg).
Proof.
  split; [|apply run_GLOBAL_RATE].
  revert pg. induction evs as [|ev evs IH]; intros pg Hg; [exact Hg|].
  rewrite run_step. apply IH, handle_keeps_override, Hg.
Qed.

Lemma enhancePlayer_marks (rev : revision) (i : nat) (pg : Page) (pl : Player) :
  players (enhancePlayer rev i pg) !! i = Some pl ->
  tmEnhanced pl = true \/ audio pl = None.
Proof.
  unfold enhancePlayer. destruct (players pg !! i) as [p|] eqn:El.
  2:{ rewrite El. discriminate. }
  destruct (tmEnhanced p) eqn:Ee.
  { rewrite El. intros [= <-]. left. exact Ee. }
  destruct (audio p) as [a|] eqn:Ea.
  2:{ rewrite El. intros [= <-]. right. exact Ea. }
  set (fresh := fun p0 : Player => _).
  assert (Hl : players (on_player i fresh pg) !! i = Some (fresh p))
    by (rewrite lookup_on_player, El; reflexivity).
  assert (Hf : forall v (pg0 : Page) (x : Player),
             players pg0 !! i = Some (fresh p) ->
             players (on_player i (applyRate v) pg0) !! i = Some x ->
             tmEnhanced x = true).
  { intros v pg0 x Hl0 Hpl. rewrite lookup_on_player, Hl0 in Hpl. simpl in Hpl.
    injection Hpl as <-. rewrite applyRate_enhanced. reflexivity. }
  intros Hpl. left. cbv zeta in Hpl. destruct rev.
  - simpl in Hpl. destruct (GLOBAL_RATE pg); apply (Hf _ _ _ Hl Hpl).
  - rewrite lookup_on_player in Hpl.
    destruct (players (on_player i (applyRate _) _) !! i) as [q|] eqn:Eq;
      [|discriminate Hpl].
    injection Hpl as <-. rewrite syncUI_enhanced. apply (Hf _ _ _ Hl Eq).
Qed.

(** X5.  Enhancing a player is idempotent: a second [enhancePlayer] on
    the same player changes nothing (no second set of controls, no second
    read of the storage, no rate applied again). *)
Theorem enhancePlayer_idempotent (rev : revision) (i : nat) (pg : Page) :
  enhancePlayer rev i (enhancePlayer rev i pg) = enhancePlayer rev i pg.
Proof.
  set (pg' := enhancePlayer rev i pg).
  pose proof (enhancePlayer_marks rev i pg) as Hm. fold pg' in Hm.
  unfold enhancePlayer at 1. destruct (players pg' !! i) as [pl|]; [|reflexivity].
  destruct (Hm pl eq_refl) as [-> | Ha]; [reflexivity|].
  destruct (tmEnhanced pl); [reflexivity|]. rewrite Ha. reflexivity.
Qed.

(** *** The script starts *)

Lemma enhancePlayer_other (rev : revision) (i j : nat) (pg : Page) :
  i <> j -> players (enhancePlayer rev i pg) !! j = players pg !! j.
Proof.
  intros Hne. unfold enhancePlayer, loadRate.
  destruct (players pg !! i); [|reflexivity].
  destruct (tmEnhanced _); [reflexivity|]. destruct (audio _); [|reflexivity].
  destruct rev; cbv zeta.
  - destruct (GLOBAL_RATE _); simpl; rewrite !list_lookup_alter_ne by exact Hne;
      reflexivity.
  - simpl. rewrite !list_lookup_alter_ne by exact Hne. reflexivity.
Qed.

Lemma enhancePlayer_initial_rate (rev : revision) (i : nat) (pg : Page) :
  initial_rate rev (enhancePlayer rev i pg) = initial_rate rev pg.
Proof.
  unfold initial_rate.
  rewrite enhancePlayer_GLOBAL_RATE, enhancePlayer_INITIAL_RATE.
  destruct (enhancePlayer_storage rev i pg) as [-> _]. reflexivity.
Qed.

(** What [enhancePlayer] makes of a plain player with a media element. *)
Lemma enhancePlayer_at (rev : revision) (i : nat) (pg : Page) (pl : Player) (a : Audio) :
  players pg !! i = Some pl ->
  tmEnhanced pl = false ->
  audio pl = Some a ->
  supportsRate (clamp (initial_rate rev pg) MIN_RATE MAX_RATE) = true ->
  exists pl', players (enhancePlayer rev i pg) !! i = Some pl' /\
    tmEnhanced pl' = true /\ tmApplyRate pl' = true /\
    rate_of pl' = Some (clamp (initial_rate rev pg) MIN_RATE MAX_RATE).
Proof.
  intros Hl He Ha Hs. unfold enhancePlayer. rewrite Hl, He, Ha.
  set (fresh := fun p : Player =>
                  {| tmEnhanced := true; tmApplyRate := _; audio := _;
                     input_value := _; btn_active := _ |}).
  assert (Hfa : audio (fresh pl) = Some a) by exact Ha.
  assert (Hgoal : forall v (pg0 : Page),
             players pg0 !! i = Some (fresh pl) ->
             supportsRate (clamp v MIN_RATE MAX_RATE) = true ->
             players (on_player i (applyRate v) pg0) !! i = Some (applyRate v (fresh pl)) /\
             tmEnhanced (applyRate v (fresh pl)) = true /\
             tmApplyRate (applyRate v (fresh pl)) = true /\
             rate_of (applyRate v (fresh pl)) = Some (clamp v MIN_RATE MAX_RATE)).
  { intros v pg0 Hl0 Hv. rewrite lookup_on_player, Hl0.
    split; [reflexivity|]. split; [rewrite applyRate_enhanced; reflexivity|].
    split; [|apply (applyRate_rate v _ a Hfa Hv)].
    unfold applyRate, syncUI. simpl. rewrite Ha. reflexivity. }
  assert (Hl1 : players (on_player i fresh pg) !! i = Some (fresh pl))
    by (rewrite lookup_on_player, Hl; reflexivity).
  unfold initial_rate in *. cbv zeta. destruct rev.
  - simpl. destruct (GLOBAL_RATE pg) as [g|]; eexists; apply Hgoal; assumption.
  - destruct (Hgoal (getEffectiveRate (on_player i fresh pg)) _ Hl1 Hs)
      as (H1 & H2 & H3 & H4).
    exists (syncUI (applyRate (getEffectiveRate (on_player i fresh pg)) (fresh pl))).
    rewrite lookup_on_player, H1. split; [reflexivity|].
    rewrite syncUI_enhanced, rate_of_syncUI. split; [exact H2|]. split; [|exact H4].
    unfold syncUI at 1. destruct (audio (applyRate _ _)); exact H3.
Qed.

Lemma enhance_fold (rev : revision) (idx : list nat) (pg : Page) :
  supportsRate (clamp (initial_rate rev pg) MIN_RATE MAX_RATE) = true ->
  NoDup idx ->
  let pg' := foldl (fun acc i => enhancePlayer rev i acc) pg idx in
  initial_rate rev pg' = initial_rate rev pg /\
  (forall j, j ∉ idx -> players pg' !! j = players pg !! j) /\
  (forall j pl a, j ∈ idx -> players pg !! j = Some pl ->
     tmEnhanced pl = false -> audio pl = Some a ->
     exists pl', players pg' !! j = Some pl' /\
       tmEnhanced pl' = true /\ tmApplyRate pl' = true /\
       rate_of pl' = Some (clamp (initial_rate rev pg) MIN_RATE MAX_RATE)).
Proof.
  revert pg. induction idx as [|i idx IH]; intros pg Hs Hnd; simpl.
  - split; [reflexivity|]. split; [reflexivity|]. intros j pl a Hj.
    apply elem_of_nil in Hj. contradiction.
  - apply NoDup_cons in Hnd as [Hi Hnd].
    pose proof (enhancePlayer_initial_rate rev i pg) as Hini.
    destruct (IH (enhancePlayer rev i pg)) as (H1 & H2 & H3);
      [rewrite Hini; exact Hs | exact Hnd |].
    split; [rewrite H1; exact Hini|]. split.
    + intros j Hj. apply not_elem_of_cons in Hj as [Hne Hj].
      rewrite (H2 j Hj). apply enhancePlayer_other. congruence.
    + intros j pl a Hj Hl He Ha. apply elem_of_cons in Hj as [-> | Hj].
      * rewrite (H2 i Hi). apply (enhancePlayer_at rev i pg pl a Hl He Ha Hs).
      * assert (Hne : i <> j) by (intros ->; contradiction).
        rewrite <- Hini. apply (H3 j pl a Hj); try assumption.
        rewrite enhancePlayer_other by exact Hne. exact Hl.
Qed.

(** X6.  When the script starts on a host that accepts the rates of the
    range, every player of the document that has a media element is
    enhanced, gets its apply-rate hook and plays at the loaded rate (1
    when nothing usable is stored); a player without a media element is
    left as it is. *)
Theorem startup_enhances_players (rev : revision) (pg : Page) (i : nat) (pl : Player) :
  accepts_range ->
  players pg !! i = Some pl ->
  tmEnhanced pl = false ->
  match audio pl with
  | None => players (startup rev pg) !! i = Some pl
  | Some _ =>
      exists pl', players (startup rev pg) !! i = Some pl' /\
        tmEnhanced pl' = true /\ tmApplyRate pl' = true /\
        rate_of pl' = Some (loadRate pg).1
  end.
Proof.
  intros Hacc Hl He. unfold startup.
  set (pg0 := match rev with Rev1 => _ | Rev2 => _ end).
  assert (Hp0 : players pg0 = players pg) by (unfold pg0; destruct rev; reflexivity).
  assert (Hi0 : initial_rate rev pg0 = loadRate_value (stored pg))
    by (unfold pg0; destruct rev; reflexivity).
  assert (Hc : clamp (initial_rate rev pg0) MIN_RATE MAX_RATE = loadRate_value (stored pg))
    by (rewrite Hi0; apply clamp_in_range, loadRate_value_in_range).
  assert (Hs : supportsRate (clamp (initial_rate rev pg0) MIN_RATE MAX_RATE) = true)
    by (rewrite Hc; apply Hacc, loadRate_value_in_range).
  destruct (enhance_fold rev (seq 0 (length (players pg0))) pg0 Hs (NoDup_seq _ _))
    as (_ & _ & Hin).
  assert (Hi : i ∈ seq 0 (length (players pg0))).
  { apply elem_of_seq. rewrite Hp0. apply lookup_lt_Some in Hl. lia. }
  rewrite <- Hp0 in Hl.
  destruct (audio pl) as [a|] eqn:Ea.
  - destruct (Hin i pl a Hi Hl He Ea) as (pl' & H1 & H2 & H3 & H4).
    exists pl'. rewrite Hc in H4. repeat split; assumption.
  - generalize (seq 0 (length (players pg0))). intros idx. revert Hl. generalize pg0.
    induction idx as [|k idx IH]; intros pg1 Hl1; simpl; [exact Hl1|].
    apply IH. destruct (decide (k = i)) as [->|Hne].
    + unfold enhancePlayer. rewrite Hl1, He, Ea. exact Hl1.
    + rewrite enhancePlayer_other by exact Hne. exact Hl1.
Qed.

(** *** What the controls show *)

Lemma num_or_nonzero (q : Q) : num_or (Fin q) (Fin 1) = Fin (nonzero_rate q).
Proof.
  unfold num_or, nonzero_rate. simpl. destruct (Qeq_bool q 0); reflexivity.
Qed.

Lemma rounds_to_bounds (x : Q) (y : num) :
  rounds_to x y ->
  exists r, y = Fin r /\
    (- (Qabs x * (1 # 9007199254740992)) <= r - x <= Qabs x * (1 # 9007199254740992))%Q.
Proof.
  intros (r & -> & Hr). exists r. split; [reflexivity|].
  apply Qabs_Qle_condition. exact Hr.
Qed.

Lemma Qabs_bounds (x : Q) : (0 <= Qabs x /\ - Qabs x <= x <= Qabs x)%Q.
Proof.
  split; [apply Qabs_nonneg|]. apply Qabs_Qle_condition. apply Qle_refl.
Qed.

(** X7.  The rate field shows the rate of the element rounded to two
    decimals.  On a host that rounds the product [rate * 100] and the
    quotient [n / 100] of the whole number [n = Math.round(rate * 100)]
    with a relative error of at most 2^-53, as binary64 rounds them, the
    field shows that quotient; [n] is at most 0.5 (and the rounding of
    the product) away from the rate times 100, and the number shown is at
    most 0.005 and three roundings away from the rate.  An element at
    rate 0 is shown as the quotient [100 / 100]. *)
Theorem field_shows_rounded_rate (pl : Player) (a : Audio) (q : Q) :
  audio pl = Some a ->
  playbackRate a = Fin q ->
  rounds_to (nonzero_rate q * 100) (js_mul (Fin (nonzero_rate q)) (Fin 100)) ->
  (forall n : Z,
     Math_round (js_mul (Fin (nonzero_rate q)) (Fin 100)) = Fin (inject_Z n) ->
     rounds_to (inject_Z n / 100) (js_div (Fin (inject_Z n)) (Fin 100))) ->
  exists (n : Z) (r : Q),
    input_value (syncUI pl) = js_String (Fin r) /\
    js_div (Fin (inject_Z n)) (Fin 100) = Fin r /\
    (Qabs (inject_Z n - nonzero_rate q * 100)
     <= (1 # 2) + Qabs (nonzero_rate q) * 100 * unit_roundoff)%Q /\
    (Qabs (r - nonzero_rate q)
     <= (1 # 200) + 3 * (Qabs (nonzero_rate q) + 1) * unit_roundoff)%Q /\
    (q == 0 -> n = 100%Z)%Q.
Proof.
  intros Ha Hq Hmul Hdiv.
  destruct (rounds_to_bounds _ _ Hmul) as (m & Hm & Hmlo & Hmhi).
  set (n := Qfloor (m + (1 # 2))%Q).
  assert (Hround : Math_round (js_mul (Fin (nonzero_rate q)) (Fin 100)) = Fin (inject_Z n))
    by (rewrite Hm; reflexivity).
  destruct (rounds_to_bounds _ _ (Hdiv n Hround)) as (r & Hr & Hrlo & Hrhi).
  exists n, r.
  assert (Hin : input_value (syncUI pl) = js_String (Fin r)).
  { unfold syncUI. rewrite Ha, Hq, num_or_nonzero, Hm.
    change (js_String (js_div (Fin (inject_Z n)) (Fin 100)) = js_String (Fin r)).
    rewrite Hr. reflexivity. }
  split; [exact Hin|]. split; [exact Hr|].
  set (x := nonzero_rate q) in *.
  pose proof (Qfloor_le (m + (1 # 2))%Q) as Hlo.
  pose proof (Qlt_floor (m + (1 # 2))%Q) as Hhi.
  rewrite inject_Z_plus in Hhi. change (inject_Z 1) with 1%Q in Hhi. fold n in Hlo, Hhi.
  set (z := inject_Z n) in *.
  assert (Hz : (z / 100 == z * (1 # 100))%Q) by (unfold Qdiv; reflexivity).
  assert (Hx100 : (Qabs (x * 100) == Qabs x * 100)%Q) by (rewrite Qabs_Qmult; reflexivity).
  rewrite Hx100 in Hmlo, Hmhi.
  destruct (Qabs_bounds x) as (Hx0 & Hxlo & Hxhi).
  destruct (Qabs_bounds (z / 100)) as (Hz0 & _).
  set (ax := Qabs x) in *.
  assert (Hn : (- ((1 # 2) + ax * 100 * (1 # 9007199254740992)) <= z - x * 100
                <= (1 # 2) + ax * 100 * (1 # 9007199254740992))%Q) by (split; lra).
  assert (Haz : (Qabs (z / 100)
                 <= ax + (1 # 200) + ax * (1 # 9007199254740992))%Q).
  { apply Qabs_Qle_condition. rewrite Hz. split; lra. }
  set (az := Qabs (z / 100)) in *.
  unfold unit_roundoff. split; [|split].
  - apply Qabs_Qle_condition. exact Hn.
  - apply Qabs_Qle_condition. rewrite Hz in Hrlo, Hrhi. split; lra.
  - intros H0.
    assert (Hx1 : x = 1%Q).
    { unfold x, nonzero_rate. apply Qeq_eq_bool in H0. rewrite H0. reflexivity. }
    assert (Hax : (ax == 1)%Q) by (unfold ax; rewrite Hx1; reflexivity).
    rewrite Hx1 in Hmlo, Hmhi.
    assert (H1 : (inject_Z 100 < inject_Z (n + 1))%Q).
    { rewrite inject_Z_plus. change (inject_Z 1) with 1%Q. change (inject_Z 100) with 100%Q.
      fold z. clear - Hhi Hmlo Hax. lra. }
    assert (H2 : (inject_Z n < inject_Z 101)%Q).
    { fold z. change (inject_Z 101) with 101%Q. clear - Hlo Hmhi Hax. lra. }
    rewrite <- Zlt_Qlt in H1, H2. lia.
Qed.

Lemma near_speeds_apart (a b x : Q) :
  (Qabs (a - x) < 1 # 1000)%Q -> (Qabs (b - x) < 1 # 1000)%Q ->
  (- (1 # 500) < a - b < 1 # 500)%Q.
Proof.
  intros Ha Hb. apply Qabs_Qlt_condition in Ha, Hb. split; lra.
Qed.

Lemma lookup_map {A B : Type} (f : A -> B) (l : list A) (i : nat) :
  map f l !! i = f <$> l !! i.
Proof.
  revert i. induction l as [|x l IH]; intros [|i]; simpl; try reflexivity. apply IH.
Qed.

(** A speed [a] is near the number [r] when [|a - r| < 0.001]. *)
Lemma near_Fin (a r : num) :
  num_ltb (num_abs (num_sub a r)) (Fin (1 # 1000)) = true ->
  exists qa x, a = Fin qa /\ r = Fin x /\ (Qabs (qa - x) < 1 # 1000)%Q.
Proof.
  destruct a as [| |qa|], r as [| |x|]; try discriminate. intros Hn.
  exists qa, x. split; [reflexivity|]. split; [reflexivity|]. apply Qltb_lt, Hn.
Qed.

Lemma syncUI_fields (pl : Player) (a : Audio) :
  audio pl = Some a ->
  exists r,
    input_value (syncUI pl) = js_String r /\
    btn_active (syncUI pl)
    = map (fun sp => num_ltb (num_abs (num_sub (parseFloat (js_String sp)) r))
                       (Fin (1 # 1000))) SPEEDS.
Proof. intros Ha. unfold syncUI. rewrite Ha. eexists. split; reflexivity. Qed.

(** X8.  On a host that reads back the speeds it prints, [syncUI]
    highlights at most one speed button, and the speed of a highlighted
    button is within 0.001 of the rate the field shows. *)
Theorem at_most_one_speed_highlighted (pl : Player) (a : Audio) (i j : nat) :
  (forall k sp, SPEEDS !! k = Some sp -> parseFloat (js_String sp) = sp) ->
  audio pl = Some a ->
  btn_active (syncUI pl) !! i = Some true ->
  btn_active (syncUI pl) !! j = Some true ->
  i = j /\
  exists sp r, SPEEDS !! i = Some (Fin sp) /\
    input_value (syncUI pl) = js_String (Fin r) /\ (Qabs (sp - r) < 1 # 1000)%Q.
Proof.
  intros Hround Ha. destruct (syncUI_fields pl a Ha) as (r & -> & ->).
  rewrite !lookup_map. intros Hi Hj.
  destruct (SPEEDS !! i) as [si|] eqn:Ei; [|discriminate Hi].
  destruct (SPEEDS !! j) as [sj|] eqn:Ej; [|discriminate Hj].
  simpl in Hi, Hj. injection Hi as Hi. injection Hj as Hj.
  rewrite (Hround i si Ei) in Hi. rewrite (Hround j sj Ej) in Hj.
  destruct (near_Fin si r Hi) as (qi & x & -> & Hr & Hni).
  destruct (near_Fin sj r Hj) as (qj & x' & -> & Hr' & Hnj).
  rewrite Hr in Hr'. injection Hr' as <-.
  pose proof (near_speeds_apart qi qj x Hni Hnj) as [Hlo Hhi].
  split; [|exists qi, x; rewrite Hr; split; [reflexivity | split; [reflexivity | exact Hni]]].
  clear - Ei Ej Hlo Hhi. unfold SPEEDS in Ei, Ej.
  do 9 (destruct i as [|i];
        [injection Ei as <-;
         do 9 (destruct j as [|j];
               [injection Ej as <-; first [reflexivity | exfalso; lra]|]);
         discriminate Ej|]).
  discriminate Ei.
Qed.

(** *** Apply to all, whatever the rate of the source *)

(** X9.  The apply-to-all button broadcasts [rate || 1], so a source at
    rate 0 broadcasts 1.  That rate becomes the override and is stored as
    it is; a player with the hook is brought to it clamped, a player
    without the hook to the rate itself; a player whose element refuses
    the rate keeps its own; the source player is not touched. *)
Theorem broadcast_from_any_rate
    (rev : revision) (pg : Page) (i j : nat) (src pl : Player) (a b : Audio) :
  players pg !! i = Some src ->
  tmEnhanced src = true ->
  audio src = Some a ->
  j <> i ->
  players pg !! j = Some pl ->
  audio pl = Some b ->
  let rate := num_or (playbackRate a) (Fin 1) in
  let pg' := handle rev (ApplyAllClick i) pg in
  GLOBAL_RATE pg' = Some rate /\
  stored pg' = Some (js_String rate) /\
  players pg' !! i = Some src /\
  rate_at j pg'
  = Some (if supportsRate (broadcast_target rate pl)
          then broadcast_target rate pl else playbackRate b).
Proof.
  intros Hl He Ha Hne Hlj Hb rate pg'.
  assert (Hen : enhanced_at i pg = true) by (unfold enhanced_at; rewrite Hl; exact He).
  assert (Hpg' : pg' = applyBtn_click i pg) by (unfold pg'; simpl; rewrite Hen; reflexivity).
  unfold applyBtn_click in Hpg'. rewrite Hl, Ha in Hpg'. fold rate in Hpg'.
  rewrite Hpg'. split; [reflexivity|]. split; [reflexivity|]. split.
  - simpl. rewrite list_lookup_imap, Hl. simpl.
    destruct (decide (i = i)); [reflexivity | contradiction].
  - unfold rate_at. simpl. rewrite list_lookup_imap, Hlj. simpl.
    destruct (decide (j = i)); [contradiction|].
    unfold broadcast_to, broadcast_target, rate_of. destruct (tmApplyRate pl).
    + rewrite applyRate_audio, Hb. simpl. unfold try_set_rate.
      destruct (supportsRate _); reflexivity.
    + simpl. rewrite Hb. simpl. unfold try_set_rate.
      destruct (supportsRate _); reflexivity.
Qed.

(** X10.  When the element refuses the rate of a speed button, the player
    keeps the rate it had, but the refused rate is written to the storage
    all the same. *)
Theorem refused_rate_is_still_saved
    (rev : revision) (pg : Page) (i k : nat) (pl : Player) (a : Audio) (r : num) :
  players pg !! i = Some pl ->
  tmEnhanced pl = true ->
  audio pl = Some a ->
  SPEEDS !! k = Some r ->
  supportsRate r = false ->
  rate_at i (handle rev (SpeedClick i k) pg) = Some (playbackRate a) /\
  stored (handle rev (SpeedClick i k) pg) = Some (js_String r) /\
  writes (handle rev (SpeedClick i k) pg) = js_String r :: writes pg.
Proof.
  intros Hl He Ha Hk Hs.
  assert (Hen : enhanced_at i pg = true) by (unfold enhanced_at; rewrite Hl; exact He).
  pose proof (SPEEDS_in_range k r Hk) as Hr.
  simpl. rewrite Hk, Hen. split; [|apply (stored_setRate rev i r pg Hr)].
  assert (Hrate : forall v, clamp v MIN_RATE MAX_RATE = r ->
            rate_at i (on_player i (applyRate v) pg) = Some (playbackRate a)).
  { intros v Hv. rewrite rate_at_on_player, Hl. simpl. unfold rate_of.
    rewrite applyRate_audio, Ha, Hv. simpl. unfold try_set_rate. rewrite Hs. reflexivity. }
  destruct rev; simpl.
  - apply Hrate. rewrite clamp_idempotent. apply clamp_in_range, Hr.
  - apply Hrate. apply clamp_in_range, Hr.
Qed.

(** *** Play *)

(** X11.  Second revision: after a ['play'] event the rate of the player
    is within 0.001 of the effective rate (the override, or else the
    rate loaded at startup): a rate further away, such as one chosen with
    a speed button, is replaced by the effective rate; a rate within
    0.001 is kept. *)
Theorem play_returns_to_effective_rate
    (pg : Page) (i : nat) (pl : Player) (a : Audio) (q e : Q) :
  players pg !! i = Some pl ->
  tmEnhanced pl = true ->
  audio pl = Some a ->
  playbackRate a = Fin q ->
  getEffectiveRate pg = Fin e ->
  in_range (Fin e) = true ->
  supportsRate (Fin e) = true ->
  rate_at i (handle Rev2 (PlayEvent i) pg)
  = Some (Fin (if Qle_bool (Qabs (q - e)) (1 # 1000) then q else e)).
Proof.
  intros Hl He Ha Hq Heff Hr Hs.
  assert (Hen : enhanced_at i pg = true) by (unfold enhanced_at; rewrite Hl; exact He).
  simpl. rewrite Hen. unfold on_play. rewrite Hl, Ha, Hq, Heff.
  unfold num_gtb. simpl num_ltb. unfold Qltb. simpl.
  match goal with |- context [Qle_bool ?x ?y] => destruct (Qle_bool x y) end; cbn [negb].
  - unfold rate_at. rewrite Hl. simpl. unfold rate_of. rewrite Ha. simpl.
    rewrite Hq. reflexivity.
  - rewrite rate_at_on_player, Hl. simpl.
    rewrite (applyRate_rate (Fin e) pl a Ha); rewrite (clamp_in_range _ Hr); auto.
Qed.

(** X12.  First revision: a ['play'] event applies the number in the rate
    field of the player, clamped; when the field holds no number it
    applies the override, or else the rate the element has ([|| 1]),
    clamped as well.  It writes nothing to the storage. *)
Theorem play_applies_the_field
    (pg : Page) (i : nat) (pl : Player) (a : Audio) :
  players pg !! i = Some pl ->
  tmEnhanced pl = true ->
  audio pl = Some a ->
  let v := parseFloat (str_or (input_value pl) "NaN") in
  let wanted :=
    if is_NaN v
    then match GLOBAL_RATE pg with
         | Some g => g
         | None => num_or (playbackRate a) (Fin 1)
         end
    else v in
  supportsRate (clamp wanted MIN_RATE MAX_RATE) = true ->
  rate_at i (handle Rev1 (PlayEvent i) pg) = Some (clamp wanted MIN_RATE MAX_RATE) /\
  writes (handle Rev1 (PlayEvent i) pg) = writes pg /\
  GLOBAL_RATE (handle Rev1 (PlayEvent i) pg) = GLOBAL_RATE pg.
Proof.
  intros Hl He Ha v wanted Hs.
  assert (Hen : enhanced_at i pg = true) by (unfold enhanced_at; rewrite Hl; exact He).
  split; [|split; [apply handle_storage; reflexivity | apply handle_GLOBAL_RATE; reflexivity]].
  simpl. rewrite Hen. unfold on_play. rewrite Hl, Ha. fold v.
  rewrite clamp_isFinite. unfold wanted in *. destruct (is_NaN v) eqn:En; simpl.
  - rewrite rate_at_on_player, Hl. simpl. apply (applyRate_rate _ pl a Ha Hs).
  - rewrite rate_at_on_player, Hl. simpl.
    rewrite (applyRate_rate _ pl a Ha); rewrite clamp_idempotent; auto.
Qed.

End WithHost.

(** *** On the sample pages *)

Lemma local_choice_stays_local_witness :
  let pg := two_players Rev1 in
  players (handle Rev1 (SpeedClick 0 3) pg) !! 1 = players pg !! 1 /\
  players (handle Rev1 (InputEvent 0) pg) !! 1 = players pg !! 1 /\
  GLOBAL_RATE (handle Rev1 (SpeedClick 0 3) pg) = GLOBAL_RATE pg /\
  GLOBAL_RATE (handle Rev1 (InputEvent 0) pg) = GLOBAL_RATE pg.
Proof. apply (local_choice_stays_local Rev1 (two_players Rev1) 0 1 3). lia. Defined.

Lemma only_rate_choices_write_storage_witness :
  let pg := handle Rev1 (SpeedClick 0 3) (two_players Rev1) in
  let evs := [PlayEvent 0; RateChange 1; ExternalRate 1 (Fin 3);
              NewPlayer (plain_player (Fin 1)); UserTypes 0 "5"] in
  stored (run Rev1 evs pg) = stored pg /\ writes (run Rev1 evs pg) = writes pg.
Proof.
  apply (only_rate_choices_write_storage Rev1). repeat constructor.
Defined.

Lemma override_is_never_cleared_witness :
  let pg := handle Rev2 (ApplyAllClick 0) (two_players Rev2) in
  let evs := [SpeedClick 1 5; PlayEvent 1; NewPlayer (plain_player (Fin 1))] in
  is_Some (GLOBAL_RATE (run Rev2 evs pg)) /\
  GLOBAL_RATE (run Rev2 evs pg) = GLOBAL_RATE pg.
Proof.
  intros pg evs. destruct (override_is_never_cleared Rev2 evs pg) as [Hset Hsame].
  split.
  - apply Hset. vm_compute. eauto.
  - apply Hsame. repeat constructor.
Defined.

Lemma startup_enhances_players_witness :
  let pg := page_of (Some "2") [plain_player (Fin 1); silent_player] in
  (exists pl', players (startup Rev1 pg) !! 0 = Some pl' /\
     tmEnhanced pl' = true /\ tmApplyRate pl' = true /\
     rate_of pl' = Some (loadRate pg).1) /\
  players (startup Rev1 pg) !! 1 = Some silent_player.
Proof.
  intros pg. split.
  - exact (startup_enhances_players Rev1 pg 0 (plain_player (Fin 1))
             DecimalHost_accepts_range eq_refl eq_refl).
  - exact (startup_enhances_players Rev1 pg 1 silent_player
             DecimalHost_accepts_range eq_refl eq_refl).
Defined.

(** A host that computes exactly rounds within every bound. *)
Lemma exact_rounds_to (x : Q) : rounds_to x (Fin x).
Proof.
  exists x. split; [reflexivity|].
  assert (H0 : (x - x == 0)%Q) by ring. rewrite H0.
  apply Qmult_le_0_compat; [apply Qabs_nonneg | discriminate].
Qed.

Lemma field_shows_rounded_rate_witness :
  let pl := plain_player (Fin (3 # 8)) in
  exists (n : Z) (r : Q),
    input_value (syncUI pl) = js_String (Fin r) /\
    js_div (Fin (inject_Z n)) (Fin 100) = Fin r /\
    (Qabs (inject_Z n - nonzero_rate (3 # 8) * 100)
     <= (1 # 2) + Qabs (nonzero_rate (3 # 8)) * 100 * unit_roundoff)%Q /\
    (Qabs (r - nonzero_rate (3 # 8))
     <= (1 # 200) + 3 * (Qabs (nonzero_rate (3 # 8)) + 1) * unit_roundoff)%Q /\
    (3 # 8 == 0 -> n = 100%Z)%Q.
Proof.
  apply (field_shows_rounded_rate (plain_player (Fin (3 # 8))) (plain_audio (Fin (3 # 8)))
           (3 # 8)); [reflexivity | reflexivity | |].
  - exact (exact_rounds_to (nonzero_rate (3 # 8) * 100)).
  - intros n _. exact (exact_rounds_to (inject_Z n / 100)).
Defined.

(** A rate of 0.375 is shown as 0.38, a rate of 0 as 1. *)
Example field_samples :
  input_value (syncUI (plain_player (Fin (3 # 8)))) = "0.38" /\
  input_value (syncUI (plain_player (Fin 0))) = "1".
Proof. vm_compute. split; reflexivity. Qed.

Lemma DecimalHost_reads_back_speeds (k : nat) (sp : num) :
  SPEEDS !! k = Some sp -> parseFloat (js_String sp) = sp.
Proof.
  intros Hk. do 9 (destruct k as [|k]; [injection Hk as <-; vm_compute; reflexivity|]).
  discriminate Hk.
Qed.

Lemma at_most_one_speed_highlighted_witness :
  let pl := plain_player (Fin 2) in
  3%nat = 3%nat /\
  exists sp r, SPEEDS !! 3 = Some (Fin sp) /\
    input_value (syncUI pl) = js_String (Fin r) /\ (Qabs (sp - r) < 1 # 1000)%Q.
Proof.
  apply (at_most_one_speed_highlighted (plain_player (Fin 2)) (plain_audio (Fin 2)) 3 3
           DecimalHost_reads_back_speeds); reflexivity.
Defined.

Lemma broadcast_from_any_rate_witness :
  let pg := handle Rev1 (ExternalRate 0 (Fin 0)) (two_players Rev1) in
  let pg' := handle Rev1 (ApplyAllClick 0) pg in
  rate_at 0 pg = Some (Fin 0) /\
  GLOBAL_RATE pg' = Some (Fin 1) /\ stored pg' = Some "1" /\ rate_at 1 pg' = Some (Fin 1).
Proof.
  intros pg pg'.
  pose (src := default silent_player (players pg !! 0)).
  pose (pl := default silent_player (players pg !! 1)).
  destruct (broadcast_from_any_rate Rev1 pg 0 1 src pl
              (set_playbackRate (Fin 0) (plain_audio (Fin 1))) (plain_audio (Fin 1)))
    as (Hg & Hst & _ & Hr); try (vm_compute; reflexivity).
  { lia. }
  split; [vm_compute; reflexivity|]. split; [exact Hg|]. split; [exact Hst | exact Hr].
Defined.

(** On the picky host the speed button 8 is refused: the player stays at
    rate 1 and "8" is stored. *)
Lemma refused_rate_is_still_saved_witness :
  let pg := @startup PickyHost Rev1 (page_of None [plain_player (Fin 1)]) in
  let pg' := @handle PickyHost Rev1 (SpeedClick 0 6) pg in
  rate_at 0 pg' = Some (Fin 1) /\ stored pg' = Some "8" /\ writes pg' = ["8"].
Proof.
  intros pg pg'.
  pose (pl := default silent_player (players pg !! 0)).
  exact (@refused_rate_is_still_saved PickyHost Rev1 pg 0 6 pl (plain_audio (Fin 1)) (Fin 8)
           eq_refl eq_refl eq_refl eq_refl eq_refl).
Defined.

(** Second revision: the speed button 2, then play: the rate is back at
    the rate loaded at startup. *)
Lemma play_returns_to_effective_rate_witness :
  let pg := handle Rev2 (SpeedClick 0 3) (one_player Rev2) in
  rate_at 0 pg = Some (Fin 2) /\
  rate_at 0 (handle Rev2 (PlayEvent 0) pg) = Some (Fin 1).
Proof.
  intros pg. split; [vm_compute; reflexivity|].
  pose (pl := default silent_player (players pg !! 0)).
  exact (play_returns_to_effective_rate pg 0 pl (set_playbackRate (Fin 2) (plain_audio (Fin 1)))
           2 1 eq_refl eq_refl eq_refl eq_refl eq_refl eq_refl eq_refl).
Defined.

(** First revision: the speed button 2, then play: the rate stays 2,
    which is what the field shows. *)
Lemma play_applies_the_field_witness :
  let pg := handle Rev1 (SpeedClick 0 3) (one_player Rev1) in
  rate_at 0 (handle Rev1 (PlayEvent 0) pg) = Some (Fin 2) /\
  writes (handle Rev1 (PlayEvent 0) pg) = writes pg /\
  GLOBAL_RATE (handle Rev1 (PlayEvent 0) pg) = GLOBAL_RATE pg.
Proof.
  intros pg.
  pose (pl := default silent_player (players pg !! 0)).
  exact (play_applies_the_field pg 0 pl (set_playbackRate (Fin 2) (plain_audio (Fin 1)))
           eq_refl eq_refl eq_refl eq_refl).
Defined.

(** A rate the page sets from outside stays as it is: the listener of
    ['ratechange'] shows it in the field and clamps nothing. *)
Example outside_rate_is_not_clamped :
  let pg := run Rev1 [ExternalRate 0 (Fin 40); RateChange 0] (one_player Rev1) in
  rate_at 0 pg = Some (Fin 40) /\
  (input_value <$> players pg !! 0) = Some "40".
Proof. vm_compute. split; reflexivity. Qed.

Lemma enhanced_rate_in_range_witness :
  let pg := run Rev1 [SpeedClick 0 8; UserTypes 1 "0.01"; InputEvent 1; ApplyAllClick 1]
              (startup Rev1 (page_of None [plain_player (Fin 40); plain_player (Fin 1)])) in
  exists a, (players pg !! 0 ≫= audio) = Some a /\ in_range (playbackRate a) = true.
Proof.
  intros pg.
  pose (pl := default silent_player (players pg !! 0)).
  destruct (enhanced_rate_in_range DecimalHost_accepts_range Rev1
              (page_of None [plain_player (Fin 40); plain_player (Fin 1)])
              [SpeedClick 0 8; UserTypes 1 "0.01"; InputEvent 1; ApplyAllClick 1] 0 pl)
    as (a & Ha & Hr).
  - intros j p Hj. destruct j as [|[|j]]; simpl in Hj; try discriminate Hj;
      injection Hj as <-; reflexivity.
  - repeat constructor.
  - vm_compute. reflexivity.
  - vm_compute. reflexivity.
  - exists a. split; [|exact Hr]. replace (players pg !! 0) with (Some pl); [exact Ha|].
    vm_compute. reflexivity.
Defined.

End RateMore.

(** ** More on reverse playback *)

Module ReverseMore.
Import Reverse ReverseProofs.
Local Open Scope Q_scope.

(** *** The reversed buffer *)

(** X17.  Reversing the channels of a buffer keeps its duration, its
    number of channels and the length of each channel, and reversing
    twice gives the buffer back. *)
Theorem reverse_channels_involutive (b : AudioBuffer) :
  reverse_channels (reverse_channels b) = b /\
  duration (reverse_channels b) = duration b /\
  map length (channels (reverse_channels b)) = map length (channels b).
Proof.
  destruct b as [d cs]. unfold reverse_channels. simpl. split; [|split; [reflexivity|]].
  - f_equal. induction cs as [|c cs IH]; simpl; [reflexivity|].
    rewrite reverse_involutive, IH. reflexivity.
  - induction cs as [|c cs IH]; simpl; [reflexivity|].
    rewrite length_reverse, IH. reflexivity.
Qed.

(** *** A decode that fails *)

Lemma stopReverse_btn (c : bool) (e : Engine) : btn_active (stopReverse c e) = false.
Proof. unfold stopReverse. reflexivity. Qed.

Lemma stopReverse_next_frame (c : bool) (e : Engine) :
  next_frame (stopReverse c e) = next_frame e.
Proof. unfold stopReverse, cancelAnimationFrame. split_matches. Qed.



(** *** A start the host refuses *)



(** *** Frame requests *)

Lemma frames_nil_owned (e : Engine) : frames e = [] -> frames_owned e.
Proof. intros He f w Hin. rewrite He in Hin. inversion Hin. Qed.

Lemma stopReverse_RAF (c : bool) (e : Engine) : reverseRAF (stopReverse c e) = None.
Proof.
  unfold stopReverse, cancelAnimationFrame. split_matches; simpl in *; congruence.
Qed.

Lemma stopReverse_frames (c : bool) (e : Engine) :
  frames (stopReverse c e)
  = match reverseRAF e with
    | Some f => filter (fun r => r.1 <> f) (frames e)
    | None => frames e
    end.
Proof.
  unfold stopReverse, cancelAnimationFrame.
  destruct (reverseSource e); simpl; destruct (reverseRAF e); simpl;
    destruct (indicator e); simpl; destruct (reverseCtx e); simpl;
    try destruct (c && _); reflexivity.
Qed.

Lemma stopReverse_indicator (c : bool) (e : Engine) (x : num) :
  indicator (stopReverse c e) <> Some (Some x).
Proof.
  unfold stopReverse, cancelAnimationFrame.
  destruct (reverseSource e); simpl; destruct (reverseRAF e); simpl;
    destruct (indicator e) eqn:H; simpl; destruct (reverseCtx e); simpl;
    repeat match goal with |- context [if ?b then _ else _] => destruct b end;
    simpl; try rewrite H; discriminate.
Qed.

Lemma owned_filter (e : Engine) (f : nat) :
  frames_owned e -> reverseRAF e = Some f ->
  filter (fun r : nat * num => r.1 <> f) (frames e) = [].
Proof.
  intros Ho Hr.
  destruct (filter (fun r : nat * num => r.1 <> f) (frames e)) as [|[g w] l] eqn:E;
    [reflexivity|].
  assert (Hin : (g, w) ∈ filter (fun r : nat * num => r.1 <> f) (frames e))
    by (rewrite E; left).
  apply list_elem_of_filter in Hin as [Hne Hin]. simpl in Hne.
  pose proof (Ho g w Hin) as Hg. rewrite Hr in Hg. injection Hg as ->.
  exfalso. apply Hne. reflexivity.
Qed.

(** [stopReverse] cancels every request the player has pending. *)
Lemma stopReverse_cancels (c : bool) (e : Engine) :
  frames_owned e -> frames (stopReverse c e) = [].
Proof.
  intros Ho. rewrite stopReverse_frames.
  destruct (reverseRAF e) as [f|] eqn:Er.
  - apply owned_filter; assumption.
  - destruct (frames e) as [|[g w] l] eqn:Ef; [reflexivity|].
    assert (Hin : (g, w) ∈ frames e) by (rewrite Ef; left).
    pose proof (Ho g w Hin) as Hg. rewrite Er in Hg. discriminate Hg.
Qed.

Lemma requestAnimationFrame_owned (w : num) (e : Engine) :
  frames e = [] -> frames_owned (requestAnimationFrame w e).
Proof.
  intros He f v. unfold requestAnimationFrame. simpl. rewrite He. simpl.
  intros Hin. apply list_elem_of_singleton in Hin. injection Hin as -> _. reflexivity.
Qed.

Lemma start_session_frames (e : Engine) : frames e = [] -> frames_owned (start_session e).
Proof.
  intros He. unfold start_session. cbv zeta.
  destruct (tmReverseBuffer e) as [buf|]; [|apply frames_nil_owned, He].
  destruct (reverseCtx e) as [now|]; [|apply frames_nil_owned, He].
  destruct (start_accepts _ _).
  - destruct (indicator _); [destruct (indicatorContainer _)|];
      try (apply frames_nil_owned; exact He).
    apply requestAnimationFrame_owned. exact He.
  - apply frames_nil_owned, stopReverse_cancels, frames_nil_owned. exact He.
Qed.

Lemma step_frames (w : num) (e : Engine) : frames e = [] -> frames_owned (step w e).
Proof.
  intros He. unfold step. cbv zeta.
  destruct (reverseSource e) as [id|]; [|apply frames_nil_owned, He].
  destruct (reverseCtx e) as [now|]; [|apply frames_nil_owned, He].
  match goal with |- context [if ?b then _ else _] => destruct b end.
  - apply frames_nil_owned, stopReverse_cancels, frames_nil_owned. exact He.
  - apply requestAnimationFrame_owned. exact He.
Qed.

(** With the buffer cached and no click suspended, every event keeps the
    pending frame requests with [reverseRAF]. *)
Lemma handle_cached_frames (ev : event) (e : Engine) (buf : AudioBuffer) :
  tmReverseBuffer e = Some buf ->
  awaiting e = 0%nat ->
  frames_owned e ->
  frames_owned (handle ev e).
Proof.
  intros Hb Ha Ho.
  assert (Hstop : forall c, frames (stopReverse c e) = [])
    by (intros c; apply stopReverse_cancels, Ho).
  destruct ev; cbn [handle];
    try (apply frames_nil_owned; exact (Hstop _)); try exact Ho.
  - unfold click. destruct (reverseSource e) eqn:Es.
    + apply frames_nil_owned. exact (Hstop true).
    + set (e1 := stopReverse false _).
      assert (H1 : frames e1 = []) by (apply stopReverse_cancels; exact Ho).
      assert (Hb1 : tmReverseBuffer e1 = Some buf)
        by (unfold e1; rewrite stopReverse_buffer; exact Hb).
      clearbody e1.
      destruct (reverseCtx e1); simpl; rewrite Hb1;
        apply start_session_frames; exact H1.
  - unfold decoded. rewrite Ha. exact Ho.
  - unfold decode_failed. rewrite Ha. exact Ho.
  - unfold on_ratechange. destruct (reverseSource e); exact Ho.
  - destruct (list_find _ _) as [[i [g w]]|] eqn:Ef; [|exact Ho].
    apply list_find_Some in Ef as (Hi & Hg & _). simpl in Hg. subst g.
    apply step_frames. simpl. apply owned_filter; [exact Ho|].
    apply (Ho f w). apply (list_elem_of_lookup_2 _ i). exact Hi.
  - destruct (nodes e !! id) as [m|]; [|exact Ho].
    destruct (node_onended m); [|exact Ho].
    apply frames_nil_owned, stopReverse_cancels. exact Ho.
  - destruct (reverseCtx e); [|exact Ho]. destruct (Qle_bool 0 dt); exact Ho.
Qed.

Lemma run_cached_inv (evs : list event) (e : Engine) (buf : AudioBuffer) :
  tmReverseBuffer e = Some buf ->
  awaiting e = 0%nat ->
  source_owns_live e ->
  frames_owned e ->
  source_owns_live (run evs e) /\ frames_owned (run evs e).
Proof.
  revert e. induction evs as [|ev evs IH]; intros e Hb Ha Ho Hf; [split; assumption|].
  rewrite run_event.
  pose proof (handle_cached_decode_work ev e buf Hb Ha) as Hw.
  unfold decode_work in Hw. injection Hw as Hb' Ha' _ _.
  apply (IH _ (eq_trans Hb' Hb) (eq_trans Ha' Ha)).
  - apply (handle_cached_owns ev e buf Hb Ha Ho).
  - apply (handle_cached_frames ev e buf Hb Ha Hf).
Qed.

(** When every playing node and every pending frame request is the one
    the variables of the player hold, [stopReverse] clears them all, and
    so does each of its callers, whatever happened since: a forward
    play, the stop button of the site and the local stop button leave no
    session, no node playing, no frame request pending, the button not
    highlighted, the indicator without an offset. *)
Lemma stopping_clears_session
  (evs : list event) (ev : event) (e : Engine) (buf : AudioBuffer) :
  tmReverseBuffer e = Some buf ->
  awaiting e = 0%nat ->
  source_owns_live e ->
  frames_owned e ->
  terminating ev = true ->
  let e' := handle ev (run evs e) in
  no_session e' /\ frames e' = [] /\ reverseRAF e' = None /\
  btn_active e' = false /\ forall x, indicator e' <> Some (Some x).
Proof.
  intros Hb Ha Ho Hf Hev e'.
  destruct (run_cached_inv evs e buf Hb Ha Ho Hf) as [Ho' Hf'].
  unfold e'. generalize dependent (run evs e). intros e1 _ Ho' Hf'.
  assert (Hstop : no_session (stopReverse false e1) /\ frames (stopReverse false e1) = [] /\
                  reverseRAF (stopReverse false e1) = None /\
                  btn_active (stopReverse false e1) = false /\
                  forall x, indicator (stopReverse false e1) <> Some (Some x)).
  { split; [apply stopReverse_no_session, Ho'|].
    split; [apply stopReverse_cancels, Hf'|].
    split; [apply stopReverse_RAF|].
    split; [apply stopReverse_btn | apply stopReverse_indicator]. }
  destruct ev; try discriminate Hev; cbn [handle]; exact Hstop.
Qed.

(** X20.  On a player just enhanced, reverse is toggled on and the
    decode completes before anything else happens.  From then on,
    whatever events follow, a forward play, the stop button of the site
    and the local stop button each leave nothing of reverse playback
    behind: no session, no node playing, no frame request pending, the
    button not highlighted, the indicator without an offset. *)
Theorem stop_leaves_nothing_running
  (a : Audio) (ind : bool) (w : num) (raw : AudioBuffer) (evs : list event) (ev : event) :
  terminating ev = true ->
  let e' := handle ev (run (ReverseClick :: Decoded raw :: evs) (initial a ind w)) in
  no_session e' /\ frames e' = [] /\ reverseRAF e' = None /\
  btn_active e' = false /\ forall x, indicator e' <> Some (Some x).
Proof.
  intros Hev. rewrite !run_event.
  set (e1 := handle ReverseClick (initial a ind w)).
  assert (H1 : awaiting e1 = 1%nat /\ reverseSource e1 = None /\ nodes e1 = [] /\
               frames e1 = []).
  { unfold e1. destruct ind; repeat split; reflexivity. }
  destruct H1 as (Ha1 & Hs1 & Hn1 & Hf1).
  set (X := set_tmReverseBuffer (Some (reverse_channels raw))
              (set_decodes (S (decodes e1)) (set_awaiting 0 e1))).
  assert (He2 : handle (Decoded raw) e1 = start_session X).
  { cbn [handle]. unfold decoded. rewrite Ha1. reflexivity. }
  rewrite He2.
  assert (HnX : no_session X).
  { split; [exact Hs1|]. intros i n Hi. change (nodes X) with (nodes e1) in Hi.
    rewrite Hn1 in Hi. discriminate Hi. }
  pose proof (start_session_decode_work X) as Hw.
  unfold decode_work in Hw. injection Hw as Hb Ha _ _.
  apply (stopping_clears_session evs ev (start_session X) (reverse_channels raw)).
  - rewrite Hb. reflexivity.
  - rewrite Ha. reflexivity.
  - apply start_session_owns, HnX.
  - apply start_session_frames. exact Hf1.
  - exact Hev.
Qed.

(** *** The step function on a session *)

Lemma frame_served (e : Engine) (f : nat) (w : num) :
  frames e = [(f, w)] -> handle (Frame f) e = step w (set_frames [] e).
Proof.
  intros Hf. cbn [handle]. rewrite Hf.
  assert (Hfind : list_find (fun r : nat * num => r.1 = f) [(f, w)] = Some (0%nat, (f, w))).
  { apply list_find_Some. split; [reflexivity|]. split; [reflexivity|].
    intros j y _ Hj. lia. }
  assert (Hfil : filter (fun r : nat * num => r.1 <> f) [(f, w)] = []).
  { rewrite filter_cons_False; [reflexivity|]. simpl. intros H. apply H. reflexivity. }
  rewrite Hfind, Hfil. reflexivity.
Qed.

Lemma step_at (w : num) (e : Engine) (id : nat) (n : SourceNode) (c0 c1 s d k : Q) :
  reverseSource e = Some id ->
  nodes e !! id = Some n ->
  reverseCtx e = Some (Fin c1) ->
  reverseStartCtxTime e = Fin c0 ->
  reverseStartOffset e = Fin s ->
  reverseDuration e = Fin d ->
  playbackRate (audio e) = Fin k ->
  step w e
  = let T := position (node_loop n) (Fin s) (Fin ((c1 - c0) * rate_or_1 k)) (Fin d) in
    let x := num_neg (num_mul (num_sub (Fin 1) (num_div T (Fin d))) w) in
    let e1 := set_indicator (Some (Some x)) e in
    if negb (node_loop n) && num_leb T (Fin 0) then stopReverse true e1
    else requestAnimationFrame w e1.
Proof.
  intros Hs Hn Hc Ha Ho Hd Hk. unfold step.
  rewrite Hs, Hc, Hn, Ha, Ho, Hd, Hk, num_or_Fin. reflexivity.
Qed.

Lemma position_once (s el : Q) :
  (s <= el ->
   num_leb (position false (Fin s) (Fin el) (Fin 0)) (Fin 0) = true) /\
  (el < s ->
   num_leb (position false (Fin s) (Fin el) (Fin 0)) (Fin 0) = false).
Proof.
  unfold position, Math_max. simpl.
  split; intros H.
  - destruct (Qltb (s + - el) 0) eqn:E; simpl; apply Qle_bool_iff; [lra|]. lra.
  - assert (E : Qltb (s + - el) 0 = false) by (apply Qltb_ge; lra).
    rewrite E. simpl. apply not_true_iff_false. rewrite Qle_bool_iff. lra.
Qed.

(** X21.  A frame served to a running session.  When the session does
    not loop and the elapsed media time has reached the start offset,
    the step function ends the session: the node is stopped, the forward
    position is committed as 0, the element stays paused or playing as
    it was, no new frame is requested.  When the session loops, or the
    elapsed time is still below the start offset, the session goes on
    and exactly one new frame request is pending. *)
Theorem frame_ends_or_continues
  (e : Engine) (id f : nat) (n : SourceNode) (w : num) (c0 c1 s d k : Q) :
  reverseSource e = Some id ->
  nodes e !! id = Some n ->
  frames e = [(f, w)] ->
  reverseCtx e = Some (Fin c1) ->
  reverseStartCtxTime e = Fin c0 ->
  reverseStartOffset e = Fin s ->
  reverseDuration e = Fin d ->
  0 < d ->
  playbackRate (audio e) = Fin k ->
  let el := (c1 - c0) * rate_or_1 k in
  let e' := handle (Frame f) e in
  (node_loop n = false -> s <= el ->
   reverseSource e' = None /\
   num_eq (currentTime (audio e')) (Fin 0) /\
   paused (audio e') = paused (audio e) /\
   nodes e' !! id = Some (node_stop n) /\
   frames e' = [] /\ btn_active e' = false) /\
  (node_loop n = true \/ el < s ->
   reverseSource e' = Some id /\ audio e' = audio e /\ nodes e' = nodes e /\
   frames e' = [(next_frame e, w)] /\ reverseRAF e' = Some (next_frame e)).
Proof.
  intros Hs Hn Hf Hc Ha Ho Hd Hpos Hk el e'.
  unfold e'. rewrite (frame_served e f w Hf).
  rewrite (step_at w (set_frames [] e) id n c0 c1 s d k Hs Hn Hc Ha Ho Hd Hk).
  fold el. cbv zeta.
  set (x := num_neg _). clearbody x.
  split.
  - intros Hl Hle. rewrite Hl.
    assert (HT : num_leb (position false (Fin s) (Fin el) (Fin d)) (Fin 0) = true).
    { destruct (position_once s el) as [H _]. exact (H Hle). }
    rewrite HT. cbn [negb andb].
    set (e1 := set_indicator (Some (Some x)) (set_frames [] e)).
    split; [apply stopReverse_source|].
    split; [|split; [|split; [|split; [|apply stopReverse_btn]]]].
    + rewrite (stopReverse_commit e1 (Fin c1) Hc).
      2:{ change (reverseDuration e1) with (reverseDuration e). rewrite Hd.
          apply Qltb_lt, Hpos. }
      change (reverseStartCtxTime e1) with (reverseStartCtxTime e).
      change (reverseStartOffset e1) with (reverseStartOffset e).
      change (audio e1) with (audio e).
      rewrite Ha, Ho, Hk, num_or_Fin. simpl. unfold Math_max. simpl.
      fold (c1 - c0). fold el.
      destruct (Qltb (s + - el) 0) eqn:E; simpl; [reflexivity|].
      apply Qltb_ge in E. lra.
    + rewrite (stopReverse_commit e1 (Fin c1) Hc).
      2:{ change (reverseDuration e1) with (reverseDuration e). rewrite Hd.
          apply Qltb_lt, Hpos. }
      reflexivity.
    + rewrite stopReverse_nodes. change (reverseSource e1) with (reverseSource e).
      rewrite Hs. change (nodes e1) with (nodes e).
      rewrite list_lookup_alter_eq, Hn. reflexivity.
    + apply stopReverse_cancels, frames_nil_owned. reflexivity.
  - intros Hcase.
    assert (Hgo : negb (node_loop n)
                  && num_leb (position (node_loop n) (Fin s) (Fin el) (Fin d)) (Fin 0)
                  = false).
    { destruct (node_loop n) eqn:El; [reflexivity|].
      destruct Hcase as [Hl | Hlt]; [discriminate Hl|].
      destruct (position_once s el) as [_ H]. cbn [negb andb]. exact (H Hlt). }
    rewrite Hgo. unfold requestAnimationFrame. simpl. repeat split; assumption.
Qed.

(** For a looping session the fraction of the duration the position
    stands for lies in the interval [(0, 1]]. *)
Lemma looping_percent (s el D : Q) :
  0 < D ->
  exists u, num_div (position true (Fin s) (Fin el) (Fin D)) (Fin D) = Fin u /\
            0 < u /\ u <= 1.
Proof.
  intros HD. unfold position. cbv zeta.
  change (num_sub (Fin s) (Fin el)) with (Fin (s + - el)).
  rewrite !(num_rem_Fin _ _ HD).
  destruct (Qrem_bound (s + - el) D HD) as [Hlo Hhi].
  set (c := Qrem (s + - el) D) in *.
  destruct (Qsgn_pos D HD) as [p Hp].
  assert (Hdiv : forall T, 0 < T -> T <= D ->
            exists u, num_div (Fin T) (Fin D) = Fin u /\ 0 < u /\ u <= 1).
  { intros T H0 H1. exists (T / D). unfold num_div. rewrite Hp.
    split; [reflexivity|]. split.
    - apply Qlt_shift_div_l; [exact HD | lra].
    - apply Qle_shift_div_r; [exact HD | lra]. }
  destruct (num_leb (Fin c) (Fin 0)) eqn:Ec.
  - apply num_leb_Fin in Ec. apply Hdiv; lra.
  - simpl in Ec. apply not_true_iff_false in Ec. rewrite Qle_bool_iff in Ec.
    apply Qnot_le_lt in Ec. apply Hdiv; lra.
Qed.

(** X22.  Each frame served to a looping session moves the indicator to
    an offset between minus the width of its container and 0: the
    indicator never leaves the container, whatever the clock shows. *)
Theorem looping_frame_moves_indicator
  (e : Engine) (id f : nat) (n : SourceNode) (c0 c1 s d k w : Q) :
  reverseSource e = Some id ->
  nodes e !! id = Some n ->
  node_loop n = true ->
  frames e = [(f, Fin w)] ->
  reverseCtx e = Some (Fin c1) ->
  reverseStartCtxTime e = Fin c0 ->
  reverseStartOffset e = Fin s ->
  reverseDuration e = Fin d ->
  0 < d ->
  playbackRate (audio e) = Fin k ->
  0 <= w ->
  exists x, indicator (handle (Frame f) e) = Some (Some (Fin x)) /\ - w <= x /\ x <= 0.
Proof.
  intros Hs Hn Hl Hf Hc Ha Ho Hd Hpos Hk Hw.
  rewrite (frame_served e f (Fin w) Hf).
  rewrite (step_at (Fin w) (set_frames [] e) id n c0 c1 s d k Hs Hn Hc Ha Ho Hd Hk).
  rewrite Hl. cbv zeta. cbn [negb andb].
  destruct (looping_percent s ((c1 - c0) * rate_or_1 k) d Hpos) as (u & -> & Hu0 & Hu1).
  exists (- ((1 + - u) * w)). split; [reflexivity|].
  assert (H0 : 0 <= (1 + - u) * w) by (apply Qmult_le_0_compat; lra).
  assert (H1 : (1 + - u) * w <= 1 * w) by (apply Qmult_le_compat_r; lra).
  split; lra.
Qed.

(** *** A change of rate while a session runs *)

Lemma on_ratechange_live (e : Engine) (id : nat) :
  reverseSource e = Some id ->
  on_ratechange e
  = set_nodes (alter (node_set_rate (num_or (playbackRate (audio e)) (Fin 1))) id (nodes e)) e.
Proof. intros Hs. unfold on_ratechange. rewrite Hs. reflexivity. Qed.

(** X23.  The rate of the element changes to [k2] while a session runs.
    The node takes the new rate ([1] for a rate of 0), and the anchors of
    the session stay as they are: the position committed when reverse is
    toggled off is the start offset minus the whole time elapsed since
    the start times the new rate, also for the part played at the old
    rate. *)
Theorem rate_change_mid_reverse
  (e : Engine) (id : nat) (n : SourceNode) (c0 c1 s d k2 dt1 dt2 : Q) :
  reverseSource e = Some id ->
  nodes e !! id = Some n ->
  reverseCtx e = Some (Fin c1) ->
  reverseStartCtxTime e = Fin c0 ->
  reverseStartOffset e = Fin s ->
  reverseDuration e = Fin d ->
  0 < d ->
  0 <= dt1 -> 0 <= dt2 ->
  let a2 := set_playbackRate (Fin k2) (audio e) in
  let e2 := run [Tick dt1; MediaChange a2; RateChange] e in
  let e3 := run [Tick dt2; ReverseClick] e2 in
  nodes e2 !! id = Some (node_set_rate (Fin (rate_or_1 k2)) n) /\
  reverseStartCtxTime e2 = Fin c0 /\
  reverseStartOffset e2 = Fin s /\
  num_eq (currentTime (audio e3))
    (Fin (Qmax 0 (s - (c1 + dt1 + dt2 - c0) * rate_or_1 k2))).
Proof.
  intros Hs Hn Hc Ha Ho Hd Hpos H1 H2 a2 e2 e3.
  assert (He2 : e2 = set_nodes (alter (node_set_rate (Fin (rate_or_1 k2))) id (nodes e))
                       (set_audio a2 (set_reverseCtx (Some (Fin (c1 + dt1))) e))).
  { unfold e2. change (run [Tick dt1; MediaChange a2; RateChange] e)
      with (on_ratechange (set_audio a2 (handle (Tick dt1) e))).
    rewrite (tick_advances e c1 dt1 Hc H1).
    rewrite (on_ratechange_live
               (set_audio a2 (set_reverseCtx (Some (Fin (c1 + dt1))) e)) id Hs).
    unfold a2. simpl playbackRate.
    rewrite num_or_Fin. reflexivity. }
  split; [|split; [|split]].
  - rewrite He2. simpl. rewrite list_lookup_alter_eq, Hn. reflexivity.
  - rewrite He2. exact Ha.
  - rewrite He2. exact Ho.
  - unfold e3. change (run [Tick dt2; ReverseClick] e2) with (click (handle (Tick dt2) e2)).
    assert (Hc2 : reverseCtx e2 = Some (Fin (c1 + dt1))) by (rewrite He2; reflexivity).
    rewrite (tick_advances e2 (c1 + dt1) dt2 Hc2 H2).
    assert (Hs2 : reverseSource e2 = Some id) by (rewrite He2; exact Hs).
    assert (Ha2 : reverseStartCtxTime e2 = Fin c0) by (rewrite He2; exact Ha).
    assert (Ho2 : reverseStartOffset e2 = Fin s) by (rewrite He2; exact Ho).
    assert (Hd2 : reverseDuration e2 = Fin d) by (rewrite He2; exact Hd).
    assert (Hk2 : playbackRate (audio e2) = Fin k2) by (rewrite He2; reflexivity).
    clearbody e2.
    destruct (toggle_off_position (set_reverseCtx (Some (Fin (c1 + dt1 + dt2))) e2) id
                c0 (c1 + dt1 + dt2) s d k2 Hs2 eq_refl Ha2 Ho2 Hd2 Hpos Hk2)
      as (Hres & _ & _).
    exact Hres.
Qed.

(** *** On the sample players *)



Lemma stop_leaves_nothing_running_witness :
  let e' := handle StopLocalClick
              (run (ReverseClick :: Decoded sample_buffer
                      :: [Tick 1; Frame 1; ReverseClick; ReverseClick; Tick 2; Frame 3])
                 (initial sample_audio true (Fin 200))) in
  no_session e' /\ frames e' = [] /\ reverseRAF e' = None /\
  btn_active e' = false /\ forall x, indicator e' <> Some (Some x).
Proof.
  apply (stop_leaves_nothing_running sample_audio true (Fin 200) sample_buffer
           [Tick 1; Frame 1; ReverseClick; ReverseClick; Tick 2; Frame 3] StopLocalClick).
  reflexivity.
Defined.

(** After two overlapping toggles the stop button leaves the first node
    playing and its frame request pending. *)
Example stop_after_overlapping_toggles :
  let e := handle StopClick
             (run [ReverseClick; ReverseClick; Decoded sample_buffer; Decoded sample_buffer]
                sample_engine) in
  map node_playing (nodes e) = [true; false] /\ map fst (frames e) = [1%nat].
Proof. vm_compute. split; reflexivity. Qed.

(** The session of [playing_once] starts at second 4 and plays at rate
    2: two seconds later the frame ends it; one second later it does
    not. *)
Lemma frame_ends_or_continues_witness :
  let e := handle (Tick 2) playing_once in
  let e' := handle (Frame 1) e in
  reverseSource e' = None /\
  num_eq (currentTime (audio e')) (Fin 0) /\
  frames e' = [] /\
  let c := handle (Frame 1) (handle (Tick 1) playing_once) in
  reverseSource c = Some 0%nat /\
  frames c = [(next_frame (handle (Tick 1) playing_once), Fin 200)].
Proof.
  pose (n := default (node_stop (Build_SourceNode sample_buffer NaN false NaN false false))
               (nodes playing_once !! 0%nat)).
  assert (Hl : node_loop n = false) by (vm_compute; reflexivity).
  destruct (frame_ends_or_continues (handle (Tick 2) playing_once) 0 1 n (Fin 200)
              0 2 4 10 2) as [Hend _]; try (vm_compute; reflexivity).
  destruct (Hend Hl) as (H1 & H2 & _ & _ & H5 & _); [unfold Qle; simpl; lia|].
  destruct (frame_ends_or_continues (handle (Tick 1) playing_once) 0 1 n (Fin 200)
              0 1 4 10 2) as [_ Hgo]; try (vm_compute; reflexivity).
  destruct Hgo as (G1 & _ & _ & G4 & _); [right; reflexivity|].
  exact (conj H1 (conj H2 (conj H5 (conj G1 G4)))).
Defined.

Lemma looping_frame_moves_indicator_witness :
  exists x, indicator (handle (Frame 1) (handle (Tick 25) playing_loop))
            = Some (Some (Fin x)) /\ - 200 <= x /\ x <= 0.
Proof.
  pose (n := default (node_stop (Build_SourceNode sample_buffer NaN false NaN false false))
               (nodes playing_loop !! 0%nat)).
  apply (looping_frame_moves_indicator (handle (Tick 25) playing_loop) 0 1 n
           0 25 10 10 1 200); try (vm_compute; reflexivity).
  unfold Qle. simpl. lia.
Defined.

(** Started from the end of the ten seconds at rate 1, the rate set to 2
    after one second and reverse toggled off two seconds later, forward
    playback resumes at second 10 - 3 * 2 = 4. *)
Lemma rate_change_mid_reverse_witness :
  let a2 := set_playbackRate (Fin 2) (audio playing_loop) in
  let e2 := run [Tick 1; MediaChange a2; RateChange] playing_loop in
  let e3 := run [Tick 2; ReverseClick] e2 in
  (exists n, nodes e2 !! 0%nat = Some (node_set_rate (Fin (rate_or_1 2)) n)) /\
  num_eq (currentTime (audio e3)) (Fin (Qmax 0 (10 - (0 + 1 + 2 - 0) * rate_or_1 2))).
Proof.
  pose (n := default (node_stop (Build_SourceNode sample_buffer NaN false NaN false false))
               (nodes playing_loop !! 0%nat)).
  destruct (rate_change_mid_reverse playing_loop 0 n 0 0 10 10 2 1 2)
    as (H1 & _ & _ & H4); try (vm_compute; reflexivity).
  - unfold Qle. simpl. lia.
  - unfold Qle. simpl. lia.
  - split; [exists n; exact H1 | exact H4].
Defined.

Example rate_change_sample :
  currentTime
    (audio (run [Tick 1; MediaChange (set_playbackRate (Fin 2) (audio playing_loop));
                 RateChange; Tick 2; ReverseClick] playing_loop)) = Fin 4.
Proof. vm_compute. reflexivity. Qed.

Lemma cached_single_session_witness :
  single_session
    (run [ReverseClick; ReverseClick; Tick 1; Frame 2; StopClick; ReverseClick]
       playing_loop).
Proof.
  apply (cached_single_session _ playing_loop (reverse_channels sample_buffer));
    try reflexivity.
  intros i n Hi Hp. vm_compute in Hi.
  destruct i as [|i]; [reflexivity | discriminate Hi].
Defined.

Lemma sequential_toggles_decode_once_witness :
  let e' := run (ReverseClick :: Decoded sample_buffer
                   :: [ReverseClick; ReverseClick; StopClick; ReverseClick])
              sample_engine in
  fetches e' = 1%nat /\ decodes e' = 1%nat /\
  tmReverseBuffer e' = Some (reverse_channels sample_buffer).
Proof.
  apply (sequential_toggles_decode_once sample_engine sample_buffer
           [ReverseClick; ReverseClick; StopClick; ReverseClick]); reflexivity.
Defined.

Lemma positive_duration_has_context_witness : is_Some (reverseCtx playing_loop).
Proof.
  apply (positive_duration_has_context sample_audio true (Fin 200)
           [ReverseClick; Decoded sample_buffer]).
  reflexivity.
Defined.

End ReverseMore.
